(** * Onion request builder

    A shallow embedding of [src/onion/crypto-util.ts]: the [HopEncryption]
    and [CryptoUtils] classes and the [OnionBuilder] class that follows them
    in the same file, together with the properties the specification states
    about them.

    Conventions of the embedding.
    - A [Buffer] or [Uint8Array] is a [list byte]; a typed array is never
      shared between two owners in the code that is modelled, so a copy and
      a view are the same value.
    - A JavaScript string is the list of its UTF-16 code units (each a [Z]
      in 0..65535), so that [JSON.stringify], [TextEncoder.encode] and
      [Buffer.from(s)] can be written out as the engine computes them.
    - A [number] is a [Z]: lengths, ports and path lengths are integers in
      every call the repository makes. The integer stands for the double
      nearest to it, which is the integer itself below 2^53; only the
      printing of a number tells the two apart.
    - Methods that touch the outside (the CSPRNG, [Math.random], the
      network, the fields of [this]) are functions of an explicit [World];
      an exception leaves the world as it was when it was thrown.
    - tweetnacl, Node's [crypto] and WebCrypto are not part of the
      repository: their primitives are the fields of the class [Platform],
      and module [Reference] gives the instance that the concrete runs use. *)

From Stdlib Require Import ZArith Lia Strings.Byte Ascii String.
From Bignums Require Import BigZ.
From stdpp Require Import base list gmap sets.

Local Open Scope Z_scope.
#[local] Set Warnings "-register-all".

(** ** Bytes and UTF-16 code units *)

Abbreviation bytes := (list byte).
Abbreviation jsstring := (list Z).

Definition byte_of_Z (z : Z) : byte :=
  default x00 (Byte.of_N (Z.to_N (z mod 256))).

Definition Z_of_byte (b : byte) : Z := Z.of_N (Byte.to_N b).

(** An ASCII literal as a JavaScript string. *)
Definition js (s : string) : jsstring :=
  Z_of_byte <$> list_byte_of_string s.

Definition DQUOTE : Z := 34.
Definition BACKSLASH : Z := 92.

(** ** [CryptoUtils.toHex] and [CryptoUtils.fromHex] *)

Definition hex_digit (n : Z) : Z := if n <? 10 then 48 + n else 87 + n.

(** [buffer.toString("hex")]: two lowercase digits per byte. *)
Definition toHex (buffer : bytes) : jsstring :=
  b ← buffer; [hex_digit (Z_of_byte b / 16); hex_digit (Z_of_byte b mod 16)].

Definition unhex (c : Z) : option Z :=
  if (48 <=? c) && (c <=? 57) then Some (c - 48)
  else if (97 <=? c) && (c <=? 102) then Some (c - 87)
  else if (65 <=? c) && (c <=? 70) then Some (c - 55)
  else None.

(** [Buffer.from(hex, "hex")]: decoding stops at the first pair that is not
    two hex digits; a trailing single character is dropped. Node's decoder
    reads each UTF-16 code unit through its low byte. *)
Fixpoint fromHex (hex : jsstring) : bytes :=
  match hex with
  | a :: b :: rest =>
      match unhex (a mod 256), unhex (b mod 256) with
      | Some x, Some y => byte_of_Z (16 * x + y) :: fromHex rest
      | _, _ => []
      end
  | _ => []
  end.

(** ** UTF-8 encoding ([Buffer.from(s)], [TextEncoder.encode]) *)

Definition is_high_surrogate (c : Z) : bool := (0xD800 <=? c) && (c <=? 0xDBFF).
Definition is_low_surrogate (c : Z) : bool := (0xDC00 <=? c) && (c <=? 0xDFFF).

Definition utf8_code_point (cp : Z) : bytes :=
  if cp <? 0x80 then [byte_of_Z cp]
  else if cp <? 0x800 then
    [byte_of_Z (0xC0 + cp / 64); byte_of_Z (0x80 + cp mod 64)]
  else if cp <? 0x10000 then
    [byte_of_Z (0xE0 + cp / 4096); byte_of_Z (0x80 + (cp / 64) mod 64);
     byte_of_Z (0x80 + cp mod 64)]
  else
    [byte_of_Z (0xF0 + cp / 262144); byte_of_Z (0x80 + (cp / 4096) mod 64);
     byte_of_Z (0x80 + (cp / 64) mod 64); byte_of_Z (0x80 + cp mod 64)].

(** U+FFFD, what both encoders write for a surrogate without its partner. *)
Definition utf8_replacement : bytes := [xef; xbf; xbd].

Fixpoint utf8 (s : jsstring) : bytes :=
  match s with
  | [] => []
  | c :: rest =>
      if is_high_surrogate c then
        match rest with
        | d :: rest' =>
            if is_low_surrogate d
            then utf8_code_point (0x10000 + (c - 0xD800) * 1024 + (d - 0xDC00))
                   ++ utf8 rest'
            else utf8_replacement ++ utf8 rest
        | [] => utf8_replacement
        end
      else if is_low_surrogate c then utf8_replacement ++ utf8 rest
      else utf8_code_point c ++ utf8 rest
  end.

(** ** UTF-8 decoding ([buffer.toString()]) *)

(** The code units of one code point: a surrogate pair above U+FFFF. *)
Definition utf16_code_point (cp : Z) : jsstring :=
  if cp <? 0x10000 then [cp]
  else [0xD800 + (cp - 0x10000) / 1024; 0xDC00 + (cp - 0x10000) mod 1024].

(** The decoder between two bytes: [needed] continuation bytes are still
    to come for the code point begun in [cp], and the next one must lie in
    [lower .. upper]. *)
Record Utf8State : Type := {
  cp : Z;
  needed : nat;
  lower : Z;
  upper : Z
}.

Definition utf8_start : Utf8State :=
  {| cp := 0; needed := 0; lower := 0x80; upper := 0xBF |}.

(** A byte read with no sequence open: the text it gives, and the state
    after it. A byte that cannot begin a sequence gives U+FFFD. *)
Definition utf8_lead (b : Z) : jsstring * Utf8State :=
  if b <? 0x80 then ([b], utf8_start)
  else if (0xC2 <=? b) && (b <=? 0xDF)
  then ([], {| cp := b - 0xC0; needed := 1; lower := 0x80; upper := 0xBF |})
  else if (0xE0 <=? b) && (b <=? 0xEF)
  then ([], {| cp := b - 0xE0; needed := 2;
               lower := if b =? 0xE0 then 0xA0 else 0x80;
               upper := if b =? 0xED then 0x9F else 0xBF |})
  else if (0xF0 <=? b) && (b <=? 0xF4)
  then ([], {| cp := b - 0xF0; needed := 3;
               lower := if b =? 0xF0 then 0x90 else 0x80;
               upper := if b =? 0xF4 then 0x8F else 0xBF |})
  else ([0xFFFD], utf8_start).

(** [buffer.toString()], which is [toString("utf8")]: every ill-formed
    part of the input becomes one U+FFFD, and the byte that broke a
    sequence is read again as the start of the next; a byte order mark is
    kept. *)
Fixpoint utf8_decode (st : Utf8State) (data : list Z) : jsstring :=
  match data with
  | [] => match needed st with O => [] | S _ => [0xFFFD] end
  | b :: rest =>
      match needed st with
      | O => let '(out, st') := utf8_lead b in out ++ utf8_decode st' rest
      | S n =>
          if (lower st <=? b) && (b <=? upper st) then
            let cp' := cp st * 64 + (b - 0x80) in
            match n with
            | O => utf16_code_point cp' ++ utf8_decode utf8_start rest
            | S _ =>
                utf8_decode {| cp := cp'; needed := n; lower := 0x80; upper := 0xBF |}
                  rest
            end
          else
            let '(out, st') := utf8_lead b in
            [0xFFFD] ++ out ++ utf8_decode st' rest
      end
  end.

Definition Buffer_toString (buffer : bytes) : jsstring :=
  utf8_decode utf8_start (Z_of_byte <$> buffer).

(** ** Numbers as text *)

(** The nearest value with 53 significant bits, ties to even: what a
    product of two doubles becomes when it is stored. *)
Definition round53 (p : Z) : Z :=
  let k := Z.log2 p - 52 in
  if k <=? 0 then p
  else
    let q := p / 2 ^ k in
    let r := p mod 2 ^ k in
    let half := 2 ^ (k - 1) in
    if r <? half then q * 2 ^ k
    else if half <? r then (q + 1) * 2 ^ k
    else if Z.even q then q * 2 ^ k
    else (q + 1) * 2 ^ k.

(** The Number value an integer stands for: the nearest double, or [None]
    when that is an infinity. *)
Definition Number_of_Z (z : Z) : option Z :=
  let x := round53 (Z.abs z) in
  if x <? 2 ^ 1024 then Some (Z.sgn z * x) else None.

(** ** [JSON.stringify] *)

(** The values the code serialises. The members of an object are listed in
    the order the engine enumerates them. *)
Inductive JSON : Type :=
  | JNull
  | JBool (b : bool)
  | JNum (z : Z)
  | JStr (s : jsstring)
  | JArr (items : list JSON)
  | JObj (members : list (jsstring * JSON)).

Definition unicode_escape (c : Z) : jsstring :=
  [BACKSLASH; 117; hex_digit ((c / 4096) mod 16); hex_digit ((c / 256) mod 16);
   hex_digit ((c / 16) mod 16); hex_digit (c mod 16)].

(** One code unit that is not half of a surrogate pair. *)
Definition quote_unit (c : Z) : jsstring :=
  if c =? 8 then [BACKSLASH; 98]
  else if c =? 9 then [BACKSLASH; 116]
  else if c =? 10 then [BACKSLASH; 110]
  else if c =? 12 then [BACKSLASH; 102]
  else if c =? 13 then [BACKSLASH; 114]
  else if c =? DQUOTE then [BACKSLASH; DQUOTE]
  else if c =? BACKSLASH then [BACKSLASH; BACKSLASH]
  else if (c <? 32) || is_high_surrogate c || is_low_surrogate c
  then unicode_escape c
  else [c].

Fixpoint quote_units (s : jsstring) : jsstring :=
  match s with
  | [] => []
  | c :: rest =>
      if is_high_surrogate c then
        match rest with
        | d :: rest' =>
            if is_low_surrogate d then c :: d :: quote_units rest'
            else quote_unit c ++ quote_units rest
        | [] => quote_unit c
        end
      else quote_unit c ++ quote_units rest
  end.

Definition QuoteJSONString (s : jsstring) : jsstring :=
  [DQUOTE] ++ quote_units s ++ [DQUOTE].

Fixpoint uint_codes (u : Decimal.uint) : jsstring :=
  match u with
  | Decimal.Nil => []
  | Decimal.D0 u => 48 :: uint_codes u
  | Decimal.D1 u => 49 :: uint_codes u
  | Decimal.D2 u => 50 :: uint_codes u
  | Decimal.D3 u => 51 :: uint_codes u
  | Decimal.D4 u => 52 :: uint_codes u
  | Decimal.D5 u => 53 :: uint_codes u
  | Decimal.D6 u => 54 :: uint_codes u
  | Decimal.D7 u => 55 :: uint_codes u
  | Decimal.D8 u => 56 :: uint_codes u
  | Decimal.D9 u => 57 :: uint_codes u
  end.

(** The decimal digits of a natural number. *)
Definition decimal (n : Z) : jsstring :=
  match Z.to_int n with
  | Decimal.Pos u => uint_codes u
  | Decimal.Neg u => uint_codes u
  end.

(** Whether the integer [c], read as a decimal literal, is the double [x]
    (of 2^53 at least, so that halves of the gaps to its neighbours are
    integers once doubled): [c] lies between the midpoints, which count
    when the mantissa of [x] is even. Below a power of two the gap is half
    as wide. *)
Definition reads_back (x c : Z) : bool :=
  let e := Z.log2 x - 52 in
  let m := x / 2 ^ e in
  let above := 2 ^ e in
  let below := if m =? 2 ^ 52 then 2 ^ (e - 1) else 2 ^ e in
  if Z.even m
  then (2 * x - below <=? 2 * c) && (2 * c <=? 2 * x + above)
  else (2 * x - below <? 2 * c) && (2 * c <? 2 * x + above).

(** The multiple of [10 ^ t] that reads back as [x], if there is one: the
    nearer of the two around [x], and on a tie the one with the even
    digits. *)
Definition candidate (x t : Z) : option Z :=
  let p := 10 ^ t in
  let lo := x / p * p in
  let hi := lo + p in
  match reads_back x lo, reads_back x hi with
  | true, true =>
      if x - lo <? hi - x then Some lo
      else if hi - x <? x - lo then Some hi
      else if Z.even (lo / p) then Some lo else Some hi
  | true, false => Some lo
  | false, true => Some hi
  | false, false => None
  end.

(** The integer with the fewest significant digits that reads back as
    [x], looked for from [t] trailing zeros down. *)
Fixpoint shortest (x : Z) (t : nat) : Z :=
  match t with
  | O => x
  | S t' =>
      match candidate x (Z.of_nat t) with
      | Some c => c
      | None => shortest x t'
      end
  end.

Fixpoint strip_zeros (digits : jsstring) : jsstring :=
  match digits with
  | [] => []
  | d :: rest =>
      match strip_zeros rest with
      | [] => if d =? 48 then [] else [d]
      | rest' => d :: rest'
      end
  end.

(** [Number::toString] of a double that is a natural number: the digits
    of the shortest decimal that reads back as it, written out up to 21
    digits and with an exponent beyond. *)
Definition digits_of_double (x : Z) : jsstring :=
  let c := if x <? 2 ^ 53 then x else shortest x (length (decimal x)) in
  let n := length (decimal c) in
  if (n <=? 21)%nat then decimal c
  else
    match strip_zeros (decimal c) with
    | [] => []
    | d :: more =>
        [d] ++ (match more with [] => [] | _ => [46] ++ more end)
          ++ js "e+" ++ decimal (Z.of_nat n - 1)
    end.

(** [String(n)] and [`${n}`] on an integer. *)
Definition Number_toString (z : Z) : jsstring :=
  match Number_of_Z z with
  | Some v => (if v <? 0 then [45] else []) ++ digits_of_double (Z.abs v)
  | None => if z <? 0 then js "-Infinity" else js "Infinity"
  end.

(** What [JSON.stringify] writes for a number: [null] for an infinity. *)
Definition JSON_number (z : Z) : jsstring :=
  match Number_of_Z z with
  | Some _ => Number_toString z
  | None => js "null"
  end.

Fixpoint join_comma (parts : list jsstring) : jsstring :=
  match parts with
  | [] => []
  | [p] => p
  | p :: rest => p ++ [44] ++ join_comma rest
  end.

Fixpoint JSON_stringify (j : JSON) : jsstring :=
  match j with
  | JNull => js "null"
  | JBool true => js "true"
  | JBool false => js "false"
  | JNum z => JSON_number z
  | JStr s => QuoteJSONString s
  | JArr items => [91] ++ join_comma (map JSON_stringify items) ++ [93]
  | JObj members =>
      [123]
        ++ join_comma
             (map (fun kv => QuoteJSONString (fst kv) ++ [58] ++ JSON_stringify (snd kv))
                  members)
        ++ [125]
  end.

(** ** Thirty-two bit sizes *)

(** The four bytes a little-endian store of an unsigned 32-bit value leaves. *)
Definition le32 (v : Z) : bytes :=
  [byte_of_Z (Z.land v 255);
   byte_of_Z (Z.land (Z.shiftr v 8) 255);
   byte_of_Z (Z.land (Z.shiftr v 16) 255);
   byte_of_Z (Z.land (Z.shiftr v 24) 255)].

(** [view.setUint32(0, value, true)] on a fresh four-byte array: the value
    is first reduced modulo 2^32. *)
Definition DataView_setUint32_le (value : Z) : bytes := le32 (value mod 2 ^ 32).

(** The specification's [u32_LE(n)]. *)
Definition u32_LE (n : nat) : bytes :=
  let v := Z.of_nat n in
  [byte_of_Z (v mod 256); byte_of_Z (v / 256 mod 256);
   byte_of_Z (v / 65536 mod 256); byte_of_Z (v / 16777216 mod 256)].

Definition read_u32_LE (b : bytes) : option Z :=
  match b with
  | b0 :: b1 :: b2 :: b3 :: _ =>
      Some (Z_of_byte b0 + 256 * Z_of_byte b1 + 65536 * Z_of_byte b2
            + 16777216 * Z_of_byte b3)
  | _ => None
  end.

(** ** Exceptions and results *)

(** The exceptions the modelled code can raise. Those the repository throws
    itself carry the data its message is built from. *)
Inductive JsError : Type :=
  | BadScalarSize                           (* tweetnacl: "bad n size" *)
  | BadPointSize                            (* tweetnacl: "bad p size" *)
  | DataError                               (* subtle.importKey: key length *)
  | OperationError                          (* subtle.decrypt: tag mismatch *)
  | RangeError                              (* writeUInt32LE, TypedArray.set *)
  | TypeError                               (* property read on undefined *)
  | AxiosError (message : jsstring)         (* a rejected HTTP request *)
  | UnsupportedEncryptionType (encType : jsstring)
  | CiphertextTooShort
  | NotEnoughActiveNodes (need : Z) (got : nat)
  | UnableToBuildOnionPath
  | CustomDestinationRequired
  | CustomDestinationIncomplete
  | SeedNodesExhausted
  | SendFailed (message : jsstring).

(** [error.message] of the errors created with [new Error(...)] in the
    repository (the empty string for the others, whose text the code never
    builds). *)
Definition message (e : JsError) : jsstring :=
  match e with
  | UnsupportedEncryptionType encType =>
      js "Unsupported encryption type: " ++ encType
  | CiphertextTooShort => js "Ciphertext too short for AES-GCM"
  | NotEnoughActiveNodes need got =>
      js "Not enough active service nodes. Need " ++ Number_toString need
        ++ js ", got " ++ Number_toString (Z.of_nat got)
  | UnableToBuildOnionPath => js "Unable to build onion path"
  | CustomDestinationRequired => js "Custom destination is required"
  | CustomDestinationIncomplete =>
      js "Custom destination must have host, port, protocol, and target properties"
  | SeedNodesExhausted =>
      js "Failed to fetch service nodes from all seed nodes after attempts"
  | SendFailed m => js "Failed to send onion request: " ++ m
  | AxiosError m => m
  | _ => []
  end.

(** How a call ends. [Starved] is not a JavaScript result: it says that the
    finite supply of [Math.random] values given to the model ran out while a
    loop was still asking for more. *)
Inductive Outcome (A : Type) : Type :=
  | Returned (a : A)
  | Threw (e : JsError)
  | Starved.
Arguments Returned {A} a.
Arguments Threw {A} e.
Arguments Starved {A}.

#[global] Instance Outcome_ret : MRet Outcome := fun A a => Returned a.
#[global] Instance Outcome_bind : MBind Outcome := fun A B k m =>
  match m with
  | Returned a => k a
  | Threw e => Threw e
  | Starved => Starved
  end.

(** ** The platform: primitives of tweetnacl, Node and WebCrypto *)

Class Platform : Type := {
  (** [crypto_scalarmult(q, n, p)] on a 32-byte scalar and a 32-byte point. *)
  crypto_scalarmult : bytes -> bytes -> bytes;
  (** [createHmac("sha256", key).update(msg).digest()]. *)
  HMAC_SHA256 : bytes -> bytes -> bytes;
  (** AES-GCM with an empty associated data and a 128-bit tag appended. *)
  AES_GCM_encrypt : bytes -> bytes -> bytes -> bytes;
  AES_GCM_decrypt : bytes -> bytes -> bytes -> option bytes;
  (** The sizes of their results: [crypto_scalarmult_BYTES] and the width
      of a SHA-256 digest. *)
  crypto_scalarmult_length : forall n p, length (crypto_scalarmult n p) = 32%nat;
  HMAC_SHA256_length : forall key msg, length (HMAC_SHA256 key msg) = 32%nat
}.

(** ** The world outside the program *)

(** A double in [0, 1), as [Math.random] returns them:
    [mantissa / 2 ^ exponent]. *)
Record Sample : Type := { mantissa : Z; exponent : Z }.

(** An element of [result.service_node_states] in a seed node's answer. *)
Record NodeState : Type := {
  ns_service_node_pubkey : jsstring;
  ns_public_ip : jsstring;
  ns_storage_port : Z;
  ns_pubkey_x25519 : jsstring;
  ns_pubkey_ed25519 : jsstring;
  ns_storage_lmq_port : Z;
  ns_swarm_id : Z
}.

Record ServiceNode : Type := {
  pubkey_ed25519 : jsstring;
  pubkey_x25519 : jsstring;
  public_ip : jsstring;
  storage_lmq_port : Z;
  storage_port : Z;
  swarm_id : Z
}.

(** What [axios.post] to a seed node does: it rejects, or it resolves with
    a body in which [data.result.service_node_states] is an array ([Some])
    or one of the three links is missing ([None]). *)
Inductive SeedReply : Type :=
  | SeedRejected (message : jsstring)
  | SeedResolved (service_node_states : option (list NodeState)).

Inductive EntryReply : Type :=
  | EntryRejected (message : jsstring)
  | EntryResolved (status : Z) (headers : list (jsstring * jsstring)) (data : bytes).

(** The fields of an [OnionBuilder] the methods read or write. *)
Record Fields : Type := {
  serviceNodes : list ServiceNode;
  onionPathLength : Z
}.

Record World : Type := {
  this : Fields;
  (** the CSPRNG behind [randomBytes] and [nacl.box.keyPair] *)
  entropy : nat -> byte;
  (** how many bytes of [entropy] have been handed out *)
  consumed : nat;
  (** the values the next calls of [Math.random] return *)
  samples : list Sample;
  (** the answer to the [k]-th HTTP request, by kind of request *)
  seed_reply : nat -> jsstring -> Z -> SeedReply;
  entry_reply : nat -> jsstring -> bytes -> EntryReply;
  (** how many HTTP requests have been sent *)
  requests : nat
}.

Definition Js (A : Type) : Type := World -> Outcome A * World.

#[global] Instance Js_ret : MRet Js := fun A a w => (Returned a, w).
#[global] Instance Js_bind : MBind Js := fun A B k m w =>
  match m w with
  | (Returned a, w') => k a w'
  | (Threw e, w') => (Threw e, w')
  | (Starved, w') => (Starved, w')
  end.

Definition throw {A : Type} (e : JsError) : Js A := fun w => (Threw e, w).

(** [try { body } catch (error) { handler }]: the handler runs in the world
    the body left behind. *)
Definition try_catch {A : Type} (body : Js A) (handler : JsError -> Js A) : Js A :=
  fun w =>
    match body w with
    | (Threw e, w') => handler e w'
    | r => r
    end.

(** A computation that needs nothing from the world. *)
Definition pure {A : Type} (o : Outcome A) : Js A := fun w => (o, w).

(** Reading from the world, and changing it. *)
Definition read {A : Type} (f : World -> A) : Js A := fun w => (Returned (f w), w).
Definition write (f : World -> World) : Js unit := fun w => (Returned tt, f w).

Definition set_consumed (n : nat) (w : World) : World :=
  {| this := this w; entropy := entropy w; consumed := n; samples := samples w;
     seed_reply := seed_reply w; entry_reply := entry_reply w;
     requests := requests w |}.

Definition set_samples (l : list Sample) (w : World) : World :=
  {| this := this w; entropy := entropy w; consumed := consumed w; samples := l;
     seed_reply := seed_reply w; entry_reply := entry_reply w;
     requests := requests w |}.

Definition set_requests (n : nat) (w : World) : World :=
  {| this := this w; entropy := entropy w; consumed := consumed w;
     samples := samples w; seed_reply := seed_reply w;
     entry_reply := entry_reply w; requests := n |}.

Definition set_this (f : Fields) (w : World) : World :=
  {| this := f; entropy := entropy w; consumed := consumed w;
     samples := samples w; seed_reply := seed_reply w;
     entry_reply := entry_reply w; requests := requests w |}.

(** [crypto.randomBytes(n)]. *)
Definition randomBytes (n : nat) : Js bytes := fun w =>
  (Returned ((fun i => entropy w (consumed w + i)%nat) <$> seq 0 n),
   set_consumed (consumed w + n)%nat w).

(** ** Typed arrays *)

Definition Uint8Array_new (len : nat) : bytes := replicate len x00.

(** [target.set(source, offset)]. *)
Definition TypedArray_set (target source : bytes) (offset : nat) : Outcome bytes :=
  if decide (offset + length source <= length target)%nat
  then Returned (take offset target ++ source
                   ++ drop (offset + length source)%nat target)
  else Threw RangeError.

(** [buf.writeUInt32LE(size, 0)] on [Buffer.allocUnsafe(4)]. *)
Definition encodeSize (size : Z) : Outcome bytes :=
  if (0 <=? size) && (size <=? 4294967295) then Returned (le32 size)
  else Threw RangeError.

(** JavaScript truthiness of a string and of a number. *)
Definition truthy_string (s : jsstring) : bool :=
  match s with [] => false | _ => true end.
Definition truthy_number (n : Z) : bool := negb (n =? 0).

(** ** tweetnacl *)

Module nacl.

Record KeyPair : Type := { publicKey : bytes; secretKey : bytes }.

(** The base point, [_9] in tweetnacl. *)
Definition nine : bytes := x09 :: replicate 31 x00.

Section with_platform.
Context `{Platform}.

(** [nacl.scalarMult(n, p)]. *)
Definition scalarMult (n p : bytes) : Outcome bytes :=
  if negb (length n =? 32)%nat then Threw BadScalarSize
  else if negb (length p =? 32)%nat then Threw BadPointSize
  else Returned (crypto_scalarmult n p).

(** [nacl.box.keyPair()]: 32 random bytes and their multiple of the
    base point. *)
Definition box_keyPair : Js KeyPair :=
  sk ← randomBytes 32;
  mret {| publicKey := crypto_scalarmult sk nine; secretKey := sk |}.
End with_platform.

End nacl.

(** ** WebCrypto's [crypto.subtle] for AES-GCM *)

Module subtle.
Section with_platform.
Context `{Platform}.

Definition importKey (raw : bytes) : Outcome bytes :=
  if (length raw =? 16)%nat || (length raw =? 24)%nat || (length raw =? 32)%nat
  then Returned raw
  else Threw DataError.

Definition encrypt (iv cryptoKey data : bytes) : Outcome bytes :=
  Returned (AES_GCM_encrypt cryptoKey iv data).

Definition decrypt (iv cryptoKey data : bytes) : Outcome bytes :=
  match AES_GCM_decrypt cryptoKey iv data with
  | Some plain => Returned plain
  | None => Threw OperationError
  end.
End with_platform.
End subtle.

(** ** class HopEncryption *)

Module HopEncryption.

Record t : Type := { privateKey : bytes; publicKey : bytes; isServer : bool }.

(** The constructor: both keys go through [slice(0, 32)]. *)
Definition new (privateKey publicKey : bytes) (isServer : bool) : t :=
  {| privateKey := take 32 privateKey;
     publicKey := take 32 publicKey;
     isServer := isServer |}.

Section with_platform.
Context `{Platform}.

Definition deriveSymmetricKey (seckey pubkey : bytes) (isForDecryption : bool)
  : Outcome bytes :=
  sharedSecret ← nacl.scalarMult seckey pubkey;
  let salt := utf8 (js "LOKI") in
  mret (HMAC_SHA256 salt sharedSecret).

Definition encryptAESGCM (self : t) (plaintext recipientPubKey : bytes)
  : Js bytes :=
  key ← pure (deriveSymmetricKey (privateKey self) recipientPubKey false);
  iv ← randomBytes 12;
  cryptoKey ← pure (subtle.importKey key);
  encrypted ← pure (subtle.encrypt iv cryptoKey plaintext);
  mret (concat [iv; encrypted]).

Definition encrypt (self : t) (encType : jsstring)
    (plaintext recipientPubKey : bytes) : Js bytes :=
  if bool_decide (encType = js "aes-gcm") || bool_decide (encType = js "gcm")
  then encryptAESGCM self plaintext recipientPubKey
  else throw (UnsupportedEncryptionType encType).

Definition decryptAESGCM (self : t) (ciphertext senderPubKey : bytes)
  : Outcome bytes :=
  if (length ciphertext <? 12 + 16)%nat then Threw CiphertextTooShort
  else
    let iv := take 12 ciphertext in
    let encrypted := drop 12 ciphertext in
    key ← deriveSymmetricKey (privateKey self) senderPubKey true;
    cryptoKey ← subtle.importKey key;
    subtle.decrypt iv cryptoKey encrypted.

Definition decrypt (self : t) (encType : jsstring)
    (ciphertext senderPubKey : bytes) : Outcome bytes :=
  if bool_decide (encType = js "aes-gcm") || bool_decide (encType = js "gcm")
  then decryptAESGCM self ciphertext senderPubKey
  else if bool_decide (encType = js "xchacha20")
  then decryptAESGCM self ciphertext senderPubKey
  else Threw (UnsupportedEncryptionType encType).
End with_platform.

End HopEncryption.

(** ** [Math.floor(Math.random() * n)] *)

(** [Math.floor(r * n)] for a sample [r] and an array length [n]: the exact
    product is [mantissa * n / 2 ^ exponent]. *)
Definition Math_floor_times (r : Sample) (n : nat) : Z :=
  round53 (mantissa r * Z.of_nat n) / 2 ^ exponent r.

(** The doubles of the interval [0, 1). *)
Definition unit_interval (r : Sample) : Prop :=
  0 <= mantissa r < 2 ^ 53 /\ 0 <= exponent r /\ mantissa r < 2 ^ exponent r.

Definition unit_intervalb (r : Sample) : bool :=
  (0 <=? mantissa r) && (mantissa r <? 2 ^ 53) && (0 <=? exponent r)
  && (mantissa r <? 2 ^ exponent r).

(** ** class OnionBuilder *)

Record OnionDestination : Type := {
  host : jsstring;
  port : Z;
  protocol : jsstring;
  target : jsstring
}.

Record OnionPathNode : Type := {
  ed25519_pubkey : jsstring;
  x25519_pubkey : jsstring;
  ip : jsstring;
  node_port : Z
}.

Record OnionRequestResult : Type := {
  encryptedPayload : bytes;
  (** [onionPath[0]], [None] when it is [undefined] *)
  entryNode : option OnionPathNode;
  ephemeralKey : bytes;
  finalEphemeralKeyPair : nacl.KeyPair
}.

Record OnionResponse : Type := {
  statusCode : Z;
  response_headers : list (jsstring * jsstring);
  (** [responseBuffer.toString()] *)
  body : jsstring
}.

Definition OXEN_SEED_NODES : list jsstring :=
  [js "http://seed1.getsession.org/json_rpc";
   js "http://seed2.getsession.org/json_rpc";
   js "http://seed3.getsession.org/json_rpc"].

(** Reading a property of [l[i]]: a [TypeError] when the element is
    [undefined]. *)
Definition defined {A : Type} (x : option A) : Outcome A :=
  match x with
  | Some a => Returned a
  | None => Threw TypeError
  end.

Module OnionBuilder.

Definition getServiceNodes : Js (list ServiceNode) :=
  read (fun w => serviceNodes (this w)).

Definition setOnionPathLength (length : Z) : Js unit :=
  write (fun w => set_this {| serviceNodes := serviceNodes (this w);
                              onionPathLength := length |} w).

(** [axios.post(seedNodeUrl, request, ...)] for a [get_n_service_nodes]
    request. *)
Definition post_seed (seedNodeUrl : jsstring) (limit : Z)
  : Js (option (list NodeState)) :=
  fun w =>
    let w' := set_requests (S (requests w)) w in
    match seed_reply w (requests w) seedNodeUrl limit with
    | SeedRejected m => (Threw (AxiosError m), w')
    | SeedResolved states => (Returned states, w')
    end.

Definition project (node : NodeState) : ServiceNode :=
  {| pubkey_ed25519 := ns_pubkey_ed25519 node;
     pubkey_x25519 := ns_pubkey_x25519 node;
     public_ip := ns_public_ip node;
     storage_port := ns_storage_port node;
     storage_lmq_port := ns_storage_lmq_port node;
     swarm_id := ns_swarm_id node |}.

(** The inner [for ... of OXEN_SEED_NODES] loop: [Some] when a seed node
    made the method return, [None] when the list was gone through. *)
Fixpoint try_seed_nodes (limit : Z) (seeds : list jsstring)
  : Js (option (list ServiceNode)) :=
  match seeds with
  | [] => mret None
  | seedNodeUrl :: rest =>
      found ← try_catch
                (states ← post_seed seedNodeUrl limit;
                 match states with
                 | Some service_node_states =>
                     mret (Some (project <$> service_node_states))
                 | None => mret None
                 end)
                (fun error => mret None);
      match found with
      | Some serviceNodes => mret (Some serviceNodes)
      | None => try_seed_nodes limit rest
      end
  end.

(** The outer loop, with [attempts] rounds left. *)
Fixpoint fetch_rounds (limit : Z) (attempts : nat) : Js (list ServiceNode) :=
  match attempts with
  | O => throw SeedNodesExhausted
  | S attempts' =>
      found ← try_seed_nodes limit OXEN_SEED_NODES;
      match found with
      | Some serviceNodes => mret serviceNodes
      | None => fetch_rounds limit attempts'
      end
  end.

Definition fetchServiceNodes (limit : Z) : Js (list ServiceNode) :=
  fetch_rounds limit 5.

Definition updateServiceNodes (limit : Z) : Js unit :=
  try_catch
    (realServiceNodes ← fetchServiceNodes limit;
     write (fun w =>
              set_this {| serviceNodes := realServiceNodes;
                          onionPathLength := onionPathLength (this w) |} w))
    (fun error => throw error).

(** The filter of [buildOnionPath]. *)
Definition active (node : ServiceNode) : bool :=
  truthy_string (pubkey_ed25519 node) && truthy_string (pubkey_x25519 node)
  && truthy_string (public_ip node) && truthy_number (storage_port node).

(** The [while] loop of [buildOnionPath], drawing from [pending]. An entry
    of [selectedNodes] is [None] when [activeNodes[randomIndex]] is
    [undefined]. *)
Fixpoint select (activeNodes : list ServiceNode) (pathLength : Z)
    (pending : list Sample) (selectedNodes : list (option ServiceNode))
    (usedIndices : gset Z)
  : Outcome (list (option ServiceNode)) * list Sample :=
  match pending with
  | [] =>
      if Z.of_nat (length selectedNodes) <? pathLength then (Starved, [])
      else (Returned selectedNodes, [])
  | r :: pending' =>
      if Z.of_nat (length selectedNodes) <? pathLength then
        let randomIndex := Math_floor_times r (length activeNodes) in
        if bool_decide (randomIndex ∈ usedIndices)
        then select activeNodes pathLength pending' selectedNodes usedIndices
        else select activeNodes pathLength pending'
               (selectedNodes ++ [activeNodes !! Z.to_nat randomIndex])
               ({[randomIndex]} ∪ usedIndices)
      else (Returned selectedNodes, pending)
  end.

(** The loop run on the samples the world holds; those it does not use
    stay there. *)
Definition select_nodes (activeNodes : list ServiceNode) (pathLength : Z)
  : Js (list (option ServiceNode)) :=
  fun w =>
    let '(r, rest) := select activeNodes pathLength (samples w) [] ∅ in
    (r, set_samples rest w).

Definition to_path_node (node : ServiceNode) : OnionPathNode :=
  {| ed25519_pubkey := pubkey_ed25519 node;
     x25519_pubkey := pubkey_x25519 node;
     ip := public_ip node;
     node_port := storage_port node |}.

(** [selectedNodes.map(node => ({...}))]. *)
Fixpoint map_to_path (selectedNodes : list (option ServiceNode))
  : Outcome (list OnionPathNode) :=
  match selectedNodes with
  | [] => Returned []
  | node :: rest =>
      node ← defined node;
      path ← map_to_path rest;
      mret (to_path_node node :: path)
  end.

Definition buildOnionPath (pathLength : Z) : Js (list OnionPathNode) :=
  try_catch
    (serviceNodes ← getServiceNodes;
     let activeNodes := List.filter active serviceNodes in
     if Z.of_nat (length activeNodes) <? pathLength
     then throw (NotEnoughActiveNodes pathLength (length activeNodes))
     else
       selectedNodes ← select_nodes activeNodes pathLength;
       pure (map_to_path selectedNodes))
    (fun error => throw UnableToBuildOnionPath).

Section with_platform.
Context `{Platform}.

Definition encryptForHop (data senderSecretKey recipientPublicKey : bytes)
  : Js bytes :=
  ephemeralKeyPair ← nacl.box_keyPair;
  let hopEncryption :=
    HopEncryption.new (nacl.secretKey ephemeralKeyPair)
      (nacl.publicKey ephemeralKeyPair) false in
  encrypted ← HopEncryption.encrypt hopEncryption (js "aes-gcm") data
                recipientPublicKey;
  mret (concat [nacl.publicKey ephemeralKeyPair; encrypted]).

(** [[size][inner][tail]] assembled as the code does it: a zeroed array
    of the total length, then three [set] calls. *)
Definition frame (size inner tail : bytes) : Outcome bytes :=
  let data := Uint8Array_new (length size + length inner + length tail) in
  data ← TypedArray_set data size 0;
  data ← TypedArray_set data inner (length size);
  TypedArray_set data tail (length size + length inner).

(** One turn of the [for] loop of [buildOnionRequest], at index [i]. *)
Definition hop (onionPath : list OnionPathNode) (destination : OnionDestination)
    (i : nat) (blob ephemeralKeyForNextHop : bytes) : Js (bytes * bytes) :=
  let node := onionPath !! i in
  ephemeralKeyPair ← nacl.box_keyPair;
  node ← pure (defined node);
  routingInfo ←
    (if Z.of_nat i =? Z.of_nat (length onionPath) - 1 then
       mret (JObj [(js "host", JStr (host destination));
                   (js "port", JNum (port destination));
                   (js "protocol", JStr (protocol destination));
                   (js "target", JStr (target destination))])
     else
       next ← pure (defined (onionPath !! (i + 1)%nat));
       mret (JObj [(js "destination", JStr (ed25519_pubkey next));
                   (js "ephemeral_key", JStr (toHex ephemeralKeyForNextHop));
                   (js "enc_type", JStr (js "aes-gcm"))]));
  let routingJson := JSON_stringify routingInfo in
  let routingBuffer := utf8 routingJson in
  let blobSizeBuffer := DataView_setUint32_le (Z.of_nat (length blob)) in
  layerData ← pure (frame blobSizeBuffer blob routingBuffer);
  let nodeX25519PubKey := fromHex (x25519_pubkey node) in
  let nodeHopEncryption :=
    HopEncryption.new (nacl.secretKey ephemeralKeyPair)
      (nacl.publicKey ephemeralKeyPair) false in
  layerDataBuffer ←
    pure (TypedArray_set (Uint8Array_new (length layerData)) layerData 0);
  blob ← HopEncryption.encrypt nodeHopEncryption (js "aes-gcm")
           layerDataBuffer nodeX25519PubKey;
  mret (blob, nacl.publicKey ephemeralKeyPair).

(** [for (let i = onionPath.length - 1; i >= 0; i--)], entered with
    [i + 1 = remaining]. *)
Fixpoint hops (onionPath : list OnionPathNode) (destination : OnionDestination)
    (remaining : nat) (blob ephemeralKeyForNextHop : bytes)
  : Js (bytes * bytes) :=
  match remaining with
  | O => mret (blob, ephemeralKeyForNextHop)
  | S i =>
      '(blob, ephemeralKeyForNextHop) ←
        hop onionPath destination i blob ephemeralKeyForNextHop;
      hops onionPath destination i blob ephemeralKeyForNextHop
  end.

Definition buildOnionRequest (finalPayload : JSON)
    (onionPath : list OnionPathNode) (destination : OnionDestination)
  : Js OnionRequestResult :=
  finalEphemeralKeyPair ← nacl.box_keyPair;
  let finalRoute := JObj [(js "headers", JObj [])] in
  let payloadJson := JSON_stringify finalPayload in
  let routingJson := JSON_stringify finalRoute in
  let payloadBuffer := utf8 payloadJson in
  let routingBuffer := utf8 routingJson in
  sizeBuffer ← pure (encodeSize (Z.of_nat (length payloadBuffer)));
  let finalData := concat [sizeBuffer; payloadBuffer; routingBuffer] in
  '(blob, ephemeralKeyForNextHop) ←
    hops onionPath destination (length onionPath) finalData
      (nacl.publicKey finalEphemeralKeyPair);
  let wrapperMeta :=
    JObj [(js "ephemeral_key", JStr (toHex ephemeralKeyForNextHop));
          (js "enc_type", JStr (js "aes-gcm"))] in
  let wrapperMetaJson := JSON_stringify wrapperMeta in
  let wrapperMetaBuffer := utf8 wrapperMetaJson in
  let wrapperSizeBuffer := DataView_setUint32_le (Z.of_nat (length blob)) in
  finalWrapper ← pure (frame wrapperSizeBuffer blob wrapperMetaBuffer);
  mret {| encryptedPayload := finalWrapper;
          entryNode := onionPath !! 0%nat;
          ephemeralKey := ephemeralKeyForNextHop;
          finalEphemeralKeyPair := finalEphemeralKeyPair |}.

(** [axios.post(entryNodeUrl + "/onion_req/v2", payload, ...)]. *)
Definition post_entry (url : jsstring) (payload : bytes)
  : Js (Z * list (jsstring * jsstring) * bytes) :=
  fun w =>
    let w' := set_requests (S (requests w)) w in
    match entry_reply w (requests w) url payload with
    | EntryRejected m => (Threw (AxiosError m), w')
    | EntryResolved status headers data => (Returned (status, headers, data), w')
    end.

Definition sendRawOnionRequest (onionRequest : OnionRequestResult)
  : Js OnionResponse :=
  entry ← pure (defined (entryNode onionRequest));
  let entryNodeUrl :=
    js "https://" ++ ip entry ++ js ":" ++ Number_toString (node_port entry) in
  try_catch
    ('(status, headers, data) ←
       post_entry (entryNodeUrl ++ js "/onion_req/v2")
         (encryptedPayload onionRequest);
     mret {| statusCode := status; response_headers := headers;
             body := Buffer_toString data |})
    (fun error => throw (SendFailed (message error))).

(** [customDestination] is [None] when the caller passes [undefined] or
    [null]. *)
Definition sendOnionRequest (payload : JSON)
    (customDestination : option OnionDestination) : Js OnionResponse :=
  match customDestination with
  | None => throw CustomDestinationRequired
  | Some customDestination =>
      if negb (truthy_string (host customDestination))
         || negb (truthy_number (port customDestination))
         || negb (truthy_string (protocol customDestination))
         || negb (truthy_string (target customDestination))
      then throw CustomDestinationIncomplete
      else
        pathLength ← read (fun w => onionPathLength (this w));
        onionPath ← buildOnionPath pathLength;
        onionRequest ← buildOnionRequest payload onionPath customDestination;
        sendRawOnionRequest onionRequest
  end.
End with_platform.

End OnionBuilder.

(** ** A reference platform

    The primitives behind [Platform], written out from their standards so
    that the embedding can be run: SHA-256 and HMAC, X25519, AES and GCM.
    Octets are integers in 0..255 here. *)

Module Reference.


(** *** SHA-256 (FIPS 180-4) and HMAC (RFC 2104) over lists of octets *)

Definition w32 (x : Z) : Z := x mod 2 ^ 32.
Definition rotr (n x : Z) : Z := Z.lor (Z.shiftr x n) (w32 (Z.shiftl x (32 - n))).
Definition xor3 (a b c : Z) : Z := Z.lxor (Z.lxor a b) c.
Definition Ch (x y z : Z) : Z := Z.lxor (Z.land x y) (Z.land (Z.lxor x 0xFFFFFFFF) z).
Definition Maj (x y z : Z) : Z := xor3 (Z.land x y) (Z.land x z) (Z.land y z).
Definition Sigma0 (x : Z) : Z := xor3 (rotr 2 x) (rotr 13 x) (rotr 22 x).
Definition Sigma1 (x : Z) : Z := xor3 (rotr 6 x) (rotr 11 x) (rotr 25 x).
Definition sigma0 (x : Z) : Z := xor3 (rotr 7 x) (rotr 18 x) (Z.shiftr x 3).
Definition sigma1 (x : Z) : Z := xor3 (rotr 17 x) (rotr 19 x) (Z.shiftr x 10).

Definition primes64 : list Z :=
  [2; 3; 5; 7; 11; 13; 17; 19; 23; 29; 31; 37; 41; 43; 47; 53; 59; 61; 67; 71;
   73; 79; 83; 89; 97; 101; 103; 107; 109; 113; 127; 131; 137; 139; 149; 151;
   157; 163; 167; 173; 179; 181; 191; 193; 197; 199; 211; 223; 227; 229; 233;
   239; 241; 251; 257; 263; 269; 271; 277; 281; 283; 293; 307; 311].

(** The largest [r] below [2 ^ bits] with [r ^ 3 <= x]. *)
Fixpoint cube_root (bits : nat) (x acc : Z) : Z :=
  match bits with
  | O => acc
  | S b =>
      let c := acc + 2 ^ Z.of_nat b in
      cube_root b x (if c * c * c <=? x then c else acc)
  end.

(** The round constants: the fractional parts of the cube roots of the
    first 64 primes; the initial state: those of the square roots of the
    first 8. *)
Definition K256 : list Z :=
  Eval vm_compute in (fun p => w32 (cube_root 36 (p * 2 ^ 96) 0)) <$> primes64.
Definition H256 : list Z :=
  Eval vm_compute in (fun p => w32 (Z.sqrt (p * 2 ^ 64))) <$> take 8 primes64.

Record Hash : Type :=
  { ha : Z; hb : Z; hc : Z; hd : Z; he : Z; hf : Z; hg : Z; hh : Z }.

Definition be32 (x : Z) : list Z :=
  [Z.shiftr x 24 mod 256; Z.shiftr x 16 mod 256; Z.shiftr x 8 mod 256; x mod 256].
Definition be64 (x : Z) : list Z := be32 (Z.shiftr x 32) ++ be32 (w32 x).

Fixpoint words_be (fuel : nat) (l : list Z) : list Z :=
  match fuel, l with
  | S f, a :: b :: c :: d :: rest =>
      (a * 16777216 + b * 65536 + c * 256 + d) :: words_be f rest
  | _, _ => []
  end.

(** The message schedule, newest word first. *)
Fixpoint schedule (n : nat) (rev_w : list Z) : list Z :=
  match n with
  | O => rev_w
  | S n' =>
      let w := w32 (sigma1 (nth 1 rev_w 0) + nth 6 rev_w 0
                    + sigma0 (nth 14 rev_w 0) + nth 15 rev_w 0) in
      schedule n' (w :: rev_w)
  end.

Definition round (s : Hash) (kw : Z * Z) : Hash :=
  let t1 := hh s + Sigma1 (he s) + Ch (he s) (hf s) (hg s) + fst kw + snd kw in
  let t2 := Sigma0 (ha s) + Maj (ha s) (hb s) (hc s) in
  {| ha := w32 (t1 + t2); hb := ha s; hc := hb s; hd := hc s;
     he := w32 (hd s + t1); hf := he s; hg := hf s; hh := hg s |}.

Definition compress (s : Hash) (block : list Z) : Hash :=
  let w := rev (schedule 48 (rev (words_be 16 block))) in
  let s' := foldl round s (zip K256 w) in
  {| ha := w32 (ha s + ha s'); hb := w32 (hb s + hb s'); hc := w32 (hc s + hc s');
     hd := w32 (hd s + hd s'); he := w32 (he s + he s'); hf := w32 (hf s + hf s');
     hg := w32 (hg s + hg s'); hh := w32 (hh s + hh s') |}.

Fixpoint absorb (fuel : nat) (s : Hash) (l : list Z) : Hash :=
  match fuel, l with
  | S f, _ :: _ => absorb f (compress s (take 64 l)) (drop 64 l)
  | _, _ => s
  end.

Definition pad (msg : list Z) : list Z :=
  let n := Z.of_nat (length msg) in
  msg ++ [128] ++ replicate (Z.to_nat ((55 - n) mod 64)) 0 ++ be64 (8 * n).

Definition initial : Hash :=
  {| ha := nth 0 H256 0; hb := nth 1 H256 0; hc := nth 2 H256 0; hd := nth 3 H256 0;
     he := nth 4 H256 0; hf := nth 5 H256 0; hg := nth 6 H256 0; hh := nth 7 H256 0 |}.

Definition digest (s : Hash) : list Z :=
  be32 (ha s) ++ be32 (hb s) ++ be32 (hc s) ++ be32 (hd s)
    ++ be32 (he s) ++ be32 (hf s) ++ be32 (hg s) ++ be32 (hh s).

Definition sha256 (msg : list Z) : list Z :=
  let m := pad msg in digest (absorb (length m) initial m).

Definition hmac_sha256 (key msg : list Z) : list Z :=
  let k := if (64 <? length key)%nat then sha256 key else key in
  let k := k ++ replicate (64 - length k) 0 in
  sha256 ((Z.lxor 0x5c <$> k) ++ sha256 ((Z.lxor 0x36 <$> k) ++ msg)).

(** *** X25519 (RFC 7748), with the field arithmetic on machine words *)

Fixpoint le_decode (l : list Z) : Z :=
  match l with
  | [] => 0
  | b :: rest => b + 256 * le_decode rest
  end.

Fixpoint le_encode (n : nat) (x : Z) : list Z :=
  match n with
  | O => []
  | S n' => x mod 256 :: le_encode n' (x / 256)
  end.

(** The scalar with its three low bits and its top bit cleared and bit
    254 set. *)
Definition clamp (k : Z) : Z :=
  Z.lor (Z.land k (2 ^ 255 - 8)) (2 ^ 254).

Definition p25519 : bigZ := Eval vm_compute in BigZ.of_Z (2 ^ 255 - 19).

Definition fmul (a b : bigZ) : bigZ := BigZ.modulo (BigZ.mul a b) p25519.
Definition fadd (a b : bigZ) : bigZ := BigZ.modulo (BigZ.add a b) p25519.
Definition fsub (a b : bigZ) : bigZ := BigZ.modulo (BigZ.sub a b) p25519.

Fixpoint fpow (b : bigZ) (e : positive) : bigZ :=
  match e with
  | xH => b
  | xO e' => let r := fpow b e' in fmul r r
  | xI e' => let r := fpow b e' in fmul (fmul r r) b
  end.

(** One step of the Montgomery ladder, for bit [t] of the scalar. *)
Definition ladder_step (k : Z) (x1 : bigZ)
    (st : bigZ * bigZ * bigZ * bigZ * Z) (t : Z)
  : bigZ * bigZ * bigZ * bigZ * Z :=
  let '(x2, z2, x3, z3, swap) := st in
  let kt := Z.land (Z.shiftr k t) 1 in
  let sw := Z.lxor swap kt in
  let '(x2, x3) := if sw =? 1 then (x3, x2) else (x2, x3) in
  let '(z2, z3) := if sw =? 1 then (z3, z2) else (z2, z3) in
  let A := fadd x2 z2 in
  let AA := fmul A A in
  let B := fsub x2 z2 in
  let BB := fmul B B in
  let E := fsub AA BB in
  let C := fadd x3 z3 in
  let D := fsub x3 z3 in
  let DA := fmul D A in
  let CB := fmul C B in
  let S := fadd DA CB in
  let T := fsub DA CB in
  (fmul AA BB, fmul E (fadd AA (fmul (BigZ.of_Z 121665) E)), fmul S S,
   fmul x1 (fmul T T), kt).

Definition x25519 (scalar point : list Z) : list Z :=
  let k := clamp (le_decode scalar) in
  let x1 := BigZ.modulo (BigZ.of_Z (Z.land (le_decode point) (2 ^ 255 - 1))) p25519 in
  let '(x2, z2, x3, z3, swap) :=
    foldl (ladder_step k x1) (BigZ.one, BigZ.zero, x1, BigZ.one, 0)
      ((fun i => 254 - Z.of_nat i) <$> seq 0 255) in
  let '(x2, z2) := if swap =? 1 then (x3, z3) else (x2, z2) in
  le_encode 32 (BigZ.to_Z (fmul x2 (fpow z2 (Z.to_pos (2 ^ 255 - 21))))).

(** *** AES (FIPS 197) and GCM (NIST SP 800-38D) *)

Definition xtime (a : Z) : Z :=
  Z.land (Z.lxor (Z.shiftl a 1) (if Z.testbit a 7 then 0x11b else 0)) 255.

Fixpoint gmul_bits (n : nat) (a b : Z) : Z :=
  match n with
  | O => 0
  | S n' =>
      Z.lxor (if Z.odd b then a else 0) (gmul_bits n' (xtime a) (Z.shiftr b 1))
  end.
Definition gmul (a b : Z) : Z := gmul_bits 8 a b.

Definition rotl8 (x n : Z) : Z :=
  Z.land (Z.lor (Z.shiftl x n) (Z.shiftr x (8 - n))) 255.

Definition sbox_of (x : Z) : Z :=
  let x2 := gmul x x in let x4 := gmul x2 x2 in let x8 := gmul x4 x4 in
  let x16 := gmul x8 x8 in let x32 := gmul x16 x16 in let x64 := gmul x32 x32 in
  let x128 := gmul x64 x64 in
  let inv := gmul x128 (gmul x64 (gmul x32 (gmul x16 (gmul x8 (gmul x4 x2))))) in
  Z.lxor (Z.lxor (Z.lxor inv (rotl8 inv 1)) (Z.lxor (rotl8 inv 2) (rotl8 inv 3)))
         (Z.lxor (rotl8 inv 4) 0x63).

Definition SBOX : list Z :=
  Eval vm_compute in (fun i => sbox_of (Z.of_nat i)) <$> seq 0 256.

Definition sub (b : Z) : Z := nth (Z.to_nat b) SBOX 0.

Definition xor_bytes (a b : list Z) : list Z := zip_with Z.lxor a b.

(** The key schedule, newest word first; [i] is the index of the next
    word and [nk] the number of words of the key. *)
Fixpoint expand (n : nat) (nk i rcon : Z) (rev_w : list (list Z)) : list (list Z) :=
  match n with
  | O => rev_w
  | S n' =>
      let prev := nth 0 rev_w [] in
      let temp :=
        if i mod nk =? 0 then
          xor_bytes (sub <$> (drop 1 prev ++ take 1 prev)) [rcon; 0; 0; 0]
        else if (6 <? nk) && (i mod nk =? 4) then sub <$> prev
        else prev in
      let w := xor_bytes (nth (Z.to_nat (nk - 1)) rev_w []) temp in
      expand n' nk (i + 1) (if i mod nk =? 0 then xtime rcon else rcon) (w :: rev_w)
  end.

Fixpoint chunks {A : Type} (fuel size : nat) (l : list A) : list (list A) :=
  match fuel, l with
  | S f, _ :: _ => take size l :: chunks f size (drop size l)
  | _, _ => []
  end.

(** The round keys, sixteen octets each. *)
Definition round_keys (key : list Z) : list (list Z) :=
  let words := chunks (length key) 4 key in
  let nk := length words in
  let total := (4 * (nk + 7))%nat in
  let w := rev (expand (total - nk) (Z.of_nat nk) (Z.of_nat nk) 1 (rev words)) in
  (fun ws => concat ws) <$> chunks total 4 w.

Definition shift_rows (s : list Z) : list Z :=
  (fun i => nth (i mod 4 + 4 * ((i / 4 + i mod 4) mod 4))%nat s 0) <$> seq 0 16.

Definition mix_column (c : list Z) : list Z :=
  let a := fun i => nth i c 0 in
  [Z.lxor (Z.lxor (gmul 2 (a 0%nat)) (gmul 3 (a 1%nat))) (Z.lxor (a 2%nat) (a 3%nat));
   Z.lxor (Z.lxor (a 0%nat) (gmul 2 (a 1%nat))) (Z.lxor (gmul 3 (a 2%nat)) (a 3%nat));
   Z.lxor (Z.lxor (a 0%nat) (a 1%nat)) (Z.lxor (gmul 2 (a 2%nat)) (gmul 3 (a 3%nat)));
   Z.lxor (Z.lxor (gmul 3 (a 0%nat)) (a 1%nat)) (Z.lxor (a 2%nat) (gmul 2 (a 3%nat)))].

Definition mix_columns (s : list Z) : list Z :=
  concat (mix_column <$> chunks 4 4 s).

Fixpoint rounds (s : list Z) (rks : list (list Z)) : list Z :=
  match rks with
  | [] => s
  | [last] => xor_bytes (shift_rows (sub <$> s)) last
  | rk :: rest => rounds (xor_bytes (mix_columns (shift_rows (sub <$> s))) rk) rest
  end.

Definition aes_block (rks : list (list Z)) (block : list Z) : list Z :=
  match rks with
  | [] => block
  | rk0 :: rest => rounds (xor_bytes block rk0) rest
  end.

Fixpoint be_decode (acc : Z) (l : list Z) : Z :=
  match l with
  | [] => acc
  | b :: rest => be_decode (256 * acc + b) rest
  end.

Fixpoint be_encode (n : nat) (x : Z) (tail : list Z) : list Z :=
  match n with
  | O => tail
  | S n' => be_encode n' (x / 256) (x mod 256 :: tail)
  end.

(** Multiplication in GF(2^128), bits numbered as GCM does. *)
Fixpoint gf128_bits (n : nat) (x v acc : Z) : Z :=
  match n with
  | O => acc
  | S n' =>
      gf128_bits n' x
        (Z.lxor (Z.shiftr v 1) (if Z.odd v then Z.shiftl 0xE1 120 else 0))
        (if Z.testbit x (Z.of_nat n') then Z.lxor acc v else acc)
  end.
Definition gf128_mul (x y : Z) : Z := gf128_bits 128 x y 0.

Definition pad16 (l : list Z) : list Z :=
  l ++ replicate (Z.to_nat ((- Z.of_nat (length l)) mod 16)) 0.

Definition ghash (h : Z) (data : list Z) : Z :=
  foldl (fun y block => gf128_mul (Z.lxor y (be_decode 0 block)) h) 0
    (chunks (length data) 16 data).

Definition inc32 (cb : list Z) : list Z :=
  take 12 cb ++ be_encode 4 ((be_decode 0 (drop 12 cb) + 1) mod 2 ^ 32) [].

Fixpoint gctr (rks : list (list Z)) (cb : list Z) (blocks : list (list Z)) : list Z :=
  match blocks with
  | [] => []
  | b :: rest => xor_bytes b (aes_block rks cb) ++ gctr rks (inc32 cb) rest
  end.

Definition gcm_j0 (h : Z) (iv : list Z) : list Z :=
  if (length iv =? 12)%nat then iv ++ [0; 0; 0; 1]
  else be_encode 16
         (ghash h (pad16 iv ++ be_encode 16 (8 * Z.of_nat (length iv)) [])) [].

Definition gcm_tag (rks : list (list Z)) (h : Z) (j0 c : list Z) : list Z :=
  let s := ghash h (pad16 c ++ be_encode 16 (8 * Z.of_nat (length c)) []) in
  xor_bytes (be_encode 16 s []) (aes_block rks j0).

Definition aes_gcm_encrypt (key iv plain : list Z) : list Z :=
  let rks := round_keys key in
  let h := be_decode 0 (aes_block rks (replicate 16 0)) in
  let j0 := gcm_j0 h iv in
  let c := gctr rks (inc32 j0) (chunks (length plain) 16 plain) in
  c ++ gcm_tag rks h j0 c.

Definition aes_gcm_decrypt (key iv data : list Z) : option (list Z) :=
  if (length data <? 16)%nat then None
  else
    let c := take (length data - 16) data in
    let t := drop (length data - 16) data in
    let rks := round_keys key in
    let h := be_decode 0 (aes_block rks (replicate 16 0)) in
    let j0 := gcm_j0 h iv in
    if bool_decide (gcm_tag rks h j0 c = t)
    then Some (gctr rks (inc32 j0) (chunks (length c) 16 c))
    else None.

Definition octets (b : bytes) : list Z := Z_of_byte <$> b.
Definition of_octets (l : list Z) : bytes := byte_of_Z <$> l.

Lemma digest_length (s : Hash) : length (digest s) = 32%nat.
Proof. reflexivity. Qed.

Lemma hmac_sha256_length (key msg : list Z) :
  length (hmac_sha256 key msg) = 32%nat.
Proof. unfold hmac_sha256, sha256. apply digest_length. Qed.

Lemma le_encode_length (n : nat) (x : Z) : length (le_encode n x) = n.
Proof. revert x. induction n as [|n IH]; intros x; cbn; [|rewrite IH]; reflexivity. Qed.

Lemma x25519_length (scalar point : list Z) : length (x25519 scalar point) = 32%nat.
Proof.
  unfold x25519.
  destruct (foldl _ _ _) as [[[[x2 z2] x3] z3] swap].
  destruct (swap =? 1); apply le_encode_length.
Qed.

(** The platform the concrete runs are made on. *)
Definition platform : Platform :=
  {| crypto_scalarmult n p := of_octets (x25519 (octets n) (octets p));
     HMAC_SHA256 key msg := of_octets (hmac_sha256 (octets key) (octets msg));
     AES_GCM_encrypt key iv plain :=
       of_octets (aes_gcm_encrypt (octets key) (octets iv) (octets plain));
     AES_GCM_decrypt key iv data :=
       of_octets <$> aes_gcm_decrypt (octets key) (octets iv) (octets data);
     crypto_scalarmult_length n p :=
       eq_trans (length_fmap byte_of_Z _) (x25519_length (octets n) (octets p));
     HMAC_SHA256_length key msg :=
       eq_trans (length_fmap byte_of_Z _)
                (hmac_sha256_length (octets key) (octets msg)) |}.

End Reference.

(** ** The wire format in the specification's words

    A second description of what [buildOnionRequest] produces, following
    sections 4.4 and 6 of the specification; the theorems compare it with
    the embedding of the code above. *)

(** The text [s] between double quotes, nothing escaped. *)
Definition quoted (s : jsstring) : jsstring := [DQUOTE] ++ s ++ [DQUOTE].

Module Spec.

(** [Frame = u32_LE(size) || inner || tail]. *)
Definition frame (inner tail : bytes) : bytes :=
  u32_LE (length inner) ++ inner ++ tail.

(** [JSON({ephemeral_key: hex(next_eph_pub), enc_type: "aes-gcm"})]. *)
Definition outer_meta (next_eph_pub : bytes) : jsstring :=
  js "{" ++ quoted (js "ephemeral_key") ++ js ":" ++ quoted (toHex next_eph_pub)
    ++ js "," ++ quoted (js "enc_type") ++ js ":" ++ quoted (js "aes-gcm")
    ++ js "}".

Definition wrapper (blob next_eph_pub : bytes) : bytes :=
  frame blob (utf8 (outer_meta next_eph_pub)).

(** [routing_{N-1} := {"host":...,"port":<int>,"protocol":...,"target":...}];
    the three strings are JSON string literals. *)
Definition terminal_routing (destination : OnionDestination) : jsstring :=
  js "{" ++ quoted (js "host") ++ js ":" ++ QuoteJSONString (host destination)
    ++ js "," ++ quoted (js "port") ++ js ":" ++ JSON_number (port destination)
    ++ js "," ++ quoted (js "protocol") ++ js ":"
    ++ QuoteJSONString (protocol destination)
    ++ js "," ++ quoted (js "target") ++ js ":"
    ++ QuoteJSONString (target destination) ++ js "}".

(** [routing_i := {"destination":...,"ephemeral_key":<hex>,"enc_type":"aes-gcm"}]. *)
Definition intermediate_routing (next_ed25519 : jsstring) (next_eph_pub : bytes)
  : jsstring :=
  js "{" ++ quoted (js "destination") ++ js ":" ++ QuoteJSONString next_ed25519
    ++ js "," ++ quoted (js "ephemeral_key") ++ js ":"
    ++ quoted (toHex next_eph_pub)
    ++ js "," ++ quoted (js "enc_type") ++ js ":" ++ quoted (js "aes-gcm")
    ++ js "}".

(** [innermost_plain := u32_LE(payload_len) || utf8(JSON(payload))
    || utf8(JSON{"headers":{}})]. *)
Definition innermost (payload : JSON) : bytes :=
  frame (utf8 (JSON_stringify payload))
        (utf8 (js "{" ++ quoted (js "headers") ++ js ":{}}")).

(** The four octets of ASCII "LOKI". *)
Definition LOKI : bytes := [x4c; x4f; x4b; x49].

(** What one layer is made with: the hop, the ephemeral keypair generated
    for it, and the IV drawn for it. *)
Record Layer : Type := {
  layer_hop : OnionPathNode;
  layer_eph : nacl.KeyPair;
  layer_iv : bytes
}.

Section with_platform.
Context `{Platform}.

(** [K = HMAC-SHA256(key = "LOKI", msg = X25519(s, P))]. *)
Definition derive (s P : bytes) : bytes :=
  HMAC_SHA256 LOKI (crypto_scalarmult s P).

(** [IV || AES-GCM_K(IV, plaintext)]. *)
Definition seal (plaintext peer_pub sender_sk iv : bytes) : bytes :=
  iv ++ AES_GCM_encrypt (derive sender_sk peer_pub) iv plaintext.

(** A keypair is a secret scalar and its multiple of the base point. *)
Definition keypair (sk : bytes) : nacl.KeyPair :=
  {| nacl.publicKey := crypto_scalarmult sk nacl.nine; nacl.secretKey := sk |}.

(** Step 5 for the hops [P[i..N)], outermost first: the blob for
    [P[i]] and the ephemeral public key it was sealed with. The blob of
    the empty list is the innermost frame, announced by the final
    ephemeral key. *)
Fixpoint onion (payload : JSON) (destination : OnionDestination)
    (final_eph_pub : bytes) (layers : list Layer) : bytes * bytes :=
  match layers with
  | [] => (innermost payload, final_eph_pub)
  | l :: inner =>
      let '(blob_prev, next_eph_pub) :=
        onion payload destination final_eph_pub inner in
      let routing :=
        match inner with
        | [] => terminal_routing destination
        | next :: _ =>
            intermediate_routing (ed25519_pubkey (layer_hop next)) next_eph_pub
        end in
      (seal (frame blob_prev (utf8 routing))
            (fromHex (x25519_pubkey (layer_hop l)))
            (nacl.secretKey (layer_eph l)) (layer_iv l),
       nacl.publicKey (layer_eph l))
  end.

(** [n] octets of the random stream from position [from]. *)
Definition slice (w : World) (from n : nat) : bytes :=
  (fun i => entropy w (from + i)%nat) <$> seq 0 n.

(** The randomness each layer gets when the layers are made for
    [i = N-1] down to [0] on a stream read from [start]: the hop with
    [k] hops after it reads 32 octets of secret key and then 12 of IV at
    [start + 44 * k]. *)
Fixpoint layers (w : World) (start : nat) (path : list OnionPathNode)
  : list Layer :=
  match path with
  | [] => []
  | node :: rest =>
      let from := (start + 44 * length rest)%nat in
      {| layer_hop := node;
         layer_eph := keypair (slice w from 32);
         layer_iv := slice w (from + 32) 12 |} :: layers w start rest
  end.

(** Steps 2 to 7 of [build] on the path [P], with the random stream of
    [w]: the final ephemeral keypair comes first, then the layers. *)
Definition build (payload : JSON) (P : list OnionPathNode)
    (destination : OnionDestination) (w : World) : OnionRequestResult :=
  let final_eph_kp := keypair (slice w (consumed w) 32) in
  let '(blob, next_eph_pub) :=
    onion payload destination (nacl.publicKey final_eph_kp)
      (layers w (consumed w + 32) P) in
  {| encryptedPayload := wrapper blob next_eph_pub;
     entryNode := head P;
     ephemeralKey := next_eph_pub;
     finalEphemeralKeyPair := final_eph_kp |}.

(** [plain] is the plaintext of a layer somewhere inside [blob]. *)
Inductive sealed_in (plain : bytes) : bytes -> Prop :=
  | sealed_here peer_pub sender_sk iv :
      sealed_in plain (seal plain peer_pub sender_sk iv)
  | sealed_deeper inner tail peer_pub sender_sk iv :
      sealed_in plain inner ->
      sealed_in plain (seal (frame inner tail) peer_pub sender_sk iv).
End with_platform.

End Spec.

(** Path hops whose X25519 key is the hex form of 32 octets, as the data
    model has them. *)
Definition x25519_key_ok (node : OnionPathNode) : Prop :=
  length (fromHex (x25519_pubkey node)) = 32%nat.

(** ** Concrete inputs

    The request of the repository's own test script, three service nodes
    with well-formed keys and two that the filter of [buildOnionPath]
    rejects, and a world to run the methods in. *)

Module Scenario.

Definition payload : JSON :=
  JObj [(js "method", JStr (js "get_message"));
        (js "params", JObj [(js "msgId", JStr (js "1757402775049"))])].

Definition destination : OnionDestination :=
  {| host := js "example.invalid"; port := 443; protocol := js "https";
     target := js "/oxen/custom-endpoint/lsrpc" |}.

(** The same destination with an empty host. *)
Definition no_host : OnionDestination :=
  {| host := []; port := 443; protocol := js "https";
     target := js "/oxen/custom-endpoint/lsrpc" |}.

Definition service_node (ed25519 x25519 address : string) (storage : Z)
  : ServiceNode :=
  {| pubkey_ed25519 := js ed25519; pubkey_x25519 := js x25519;
     public_ip := js address; storage_lmq_port := 22020;
     storage_port := storage; swarm_id := 1 |}.

Definition node_a : ServiceNode :=
  service_node "d75a980182b10ab7d54bfed3c964073a0ee172f3daa62325af021a68f707511a"
    "8520f0098930a754748b7ddcb43ef75a0dbf3a0d26381af4eba4a98eaa9b4e6a"
    "10.0.0.1" 22021.
Definition node_b : ServiceNode :=
  service_node "3d4017c3e843895a92b70aa74d1b7ebc9c982ccf2ec4968cc0cd55f12af4660c"
    "de9edb7d7b7dc1b4d35b61c2ece435373f8343c85b78674dadfc7e146f882b4f"
    "10.0.0.2" 22021.
Definition node_c : ServiceNode :=
  service_node "fc51cd8e6218a1a38da47ed00230f0580816ed13ba3303ac5deb911548908025"
    "0900000000000000000000000000000000000000000000000000000000000000"
    "10.0.0.3" 22021.
(** No address; no storage port. *)
Definition node_d : ServiceNode :=
  service_node "e6db6867583030db3594c1a424b15f7c726624ec26b3353b10a903a6d0ab1c4c"
    "e5210f12786811d3f4b7959d0538ae2c31dbe7106fc03c3efc4cd549c715a493" "" 22021.
Definition node_e : ServiceNode :=
  service_node "e6db6867583030db3594c1a424b15f7c726624ec26b3353b10a903a6d0ab1c4c"
    "e5210f12786811d3f4b7959d0538ae2c31dbe7106fc03c3efc4cd549c715a493"
    "10.0.0.5" 0.

Definition path : list OnionPathNode :=
  OnionBuilder.to_path_node <$> [node_b; node_a; node_c].

(** Doubles as [k / 8]. *)
Definition eighths (k : Z) : Sample := {| mantissa := k; exponent := 3 |}.

Definition state (ip : string) : NodeState :=
  {| ns_service_node_pubkey := js "00"; ns_public_ip := js ip;
     ns_storage_port := 22021; ns_pubkey_x25519 := pubkey_x25519 node_a;
     ns_pubkey_ed25519 := pubkey_ed25519 node_a; ns_storage_lmq_port := 22020;
     ns_swarm_id := 7 |}.

(** A world with five known service nodes, in which the first four
    requests to seed nodes fail and the fifth is answered, and the entry
    node answers 200 with the body it was sent. *)
Definition world : World :=
  {| this := {| serviceNodes := [node_a; node_d; node_b; node_e; node_c];
                onionPathLength := 3 |};
     entropy := fun i => byte_of_Z (Z.of_nat (37 * i + 11));
     consumed := 0;
     samples := eighths <$> [5; 5; 0; 7; 2; 5; 3];
     seed_reply := fun k url limit =>
       if (k <? 4)%nat then SeedRejected (js "timeout of 10000ms exceeded")
       else SeedResolved (Some [state "10.0.0.8"; state "10.0.0.9"]);
     entry_reply := fun k url data => EntryResolved 200 [] data;
     requests := 0 |}.

(** The same world with a different random stream, one in which every
    seed node fails, and one that knows two usable nodes only. *)
Definition other_world : World :=
  {| this := {| serviceNodes := []; onionPathLength := 1 |};
     entropy := fun i => byte_of_Z (Z.of_nat (37 * (i - 5) + 11));
     consumed := 5;
     samples := [];
     seed_reply := fun k url limit => SeedResolved None;
     entry_reply := fun k url data => EntryRejected (js "socket hang up");
     requests := 9 |}.

Definition offline : World :=
  {| this := this world; entropy := entropy world; consumed := 0;
     samples := samples world;
     seed_reply := fun k url limit => SeedRejected (js "getaddrinfo ENOTFOUND");
     entry_reply := entry_reply world; requests := 0 |}.

Definition two_nodes : World :=
  set_this {| serviceNodes := [node_a; node_d; node_b; node_e];
              onionPathLength := 3 |} world.

(** A list of candidates that holds the same node twice. *)
Definition same_node_twice : World :=
  set_samples (eighths <$> [0; 7])
    (set_this {| serviceNodes := [node_a; node_a]; onionPathLength := 2 |} world).

(** The path of [path] with a second hop whose X25519 key is two octets
    long. *)
Definition bad_path : list OnionPathNode :=
  [OnionBuilder.to_path_node node_b;
   {| ed25519_pubkey := pubkey_ed25519 node_a; x25519_pubkey := js "abcd";
      ip := js "10.0.0.1"; node_port := 22021 |};
   OnionBuilder.to_path_node node_c].

(** The world with a configured path length of 0. *)
Definition no_hops : World :=
  set_this {| serviceNodes := serviceNodes (this world); onionPathLength := 0 |}
    world.

(** The key pairs of RFC 7748, section 6.1. *)
Definition alice_sk : bytes :=
  fromHex (js "77076d0a7318a57d3c16c17251b26645df4c2f87ebc0992ab177fba51db92c2a").
Definition alice_pk : bytes :=
  fromHex (js "8520f0098930a754748b7ddcb43ef75a0dbf3a0d26381af4eba4a98eaa9b4e6a").
Definition bob_sk : bytes :=
  fromHex (js "5dab087e624a8a4b79e17f8b83800ee66f3bb1292618b6fd1c2f8b27ff88e0eb").
Definition bob_pk : bytes :=
  fromHex (js "de9edb7d7b7dc1b4d35b61c2ece435373f8343c85b78674dadfc7e146f882b4f").

(** A message sealed by Alice for Bob on the reference platform, with an
    IV of twelve zero octets. *)
Definition greeting : bytes := utf8 (js "hello, onion").
Definition sealed_greeting : bytes :=
  Spec.seal (H := Reference.platform) greeting bob_pk alice_sk (replicate 12 x00).

End Scenario.

(** ** Vocabulary of the statements *)

(** The lowercase hex digits. *)
Definition hex_char (c : Z) : Prop := 48 <= c <= 57 \/ 97 <= c <= 102.

(** Code units that [JSON.stringify] copies as they are. *)
Definition plain_unit (c : Z) : Prop :=
  32 <= c < 0xD800 /\ c <> DQUOTE /\ c <> BACKSLASH.

(** Two worlds whose random streams give the same next [n] octets. *)
Definition agree (n : nat) (w1 w2 : World) : Prop :=
  forall k, (k < n)%nat ->
    entropy w1 (consumed w1 + k)%nat = entropy w2 (consumed w2 + k)%nat.

(** [m] looks at nothing of the world but the next [n] octets of the random
    stream, and changes nothing but the count of octets read. *)
Definition reads_at_most {A : Type} (n : nat) (m : Js A) : Prop :=
  forall w1 w2, agree n w1 w2 ->
    (m w1).1 = (m w2).1
    /\ exists d, (d <= n)%nat
         /\ (m w1).2 = set_consumed (consumed w1 + d) w1
         /\ (m w2).2 = set_consumed (consumed w2 + d) w2.

(** The index [buildOnionPath] turns a sample into, and the entry of
    [activeNodes] it reads there. *)
Definition drawn (activeNodes : list ServiceNode) (r : Sample) : Z :=
  Math_floor_times r (length activeNodes).
Definition at_index (activeNodes : list ServiceNode) (i : Z) : option ServiceNode :=
  activeNodes !! Z.to_nat i.

(** The seed node the [k]-th request of [fetchServiceNodes] goes to, and
    the node list a reply carries when it carries one. *)
Definition seed_of (k : nat) : jsstring :=
  default [] (OXEN_SEED_NODES !! (k mod 3)%nat).
Definition answered (reply : SeedReply) : option (list NodeState) :=
  match reply with
  | SeedResolved (Some states) => Some states
  | _ => None
  end.

(** A hop that passed the filter of [buildOnionPath]. *)
Definition hop_is_usable (hop : OnionPathNode) : Prop :=
  ed25519_pubkey hop <> [] /\ x25519_pubkey hop <> [] /\ ip hop <> []
  /\ node_port hop <> 0.

(** A destination [sendOnionRequest] lets through. *)
Definition destination_is_complete (d : OnionDestination) : Prop :=
  host d <> [] /\ port d <> 0 /\ protocol d <> [] /\ target d <> [].

(** ** The demo server's handling of a binary body (src/server.ts) *)

Module Server.

Definition LBRACE : Z := 123.
Definition RBRACE : Z := 125.

(** [s.indexOf(c, position)] for a search string of one code unit: the
    first index at or after [position] that holds it, or -1. [index_from]
    walks the part of the string that starts at index [i]. *)
Fixpoint index_from (c : Z) (s : jsstring) (i : nat) : Z :=
  match s with
  | [] => -1
  | x :: s' => if x =? c then Z.of_nat i else index_from c s' (S i)
  end.

Definition String_indexOf (s : jsstring) (c : Z) (position : nat) : Z :=
  index_from c (drop position s) position.

(** [s.substring(indexStart, indexEnd)]: both indices are clamped into
    the string, and swapped when the first is the larger. *)
Definition String_substring (s : jsstring) (indexStart indexEnd : Z) : jsstring :=
  let clamp (i : Z) := Z.to_nat (Z.min (Z.max i 0) (Z.of_nat (length s))) in
  let a := clamp indexStart in
  let b := clamp indexEnd in
  drop (Nat.min a b) (take (Nat.max a b) s).

(** [s.substring(indexStart)]. *)
Definition String_substring_from (s : jsstring) (indexStart : Z) : jsstring :=
  String_substring s indexStart (Z.of_nat (length s)).

Definition cleanCorruptedPrefix (bodyString : jsstring) : jsstring :=
  let jsonStart := String_indexOf bodyString LBRACE 0 in
  if 0 <? jsonStart then String_substring_from bodyString jsonStart
  else bodyString.

(** The [for] loop of [parseBinaryOnionRequest] that looks for the closing
    brace, from index [i] on with the count [braceCount] reached so far:
    the index at which the count comes to 0, or -1. *)
Fixpoint scan (s : jsstring) (i : nat) (braceCount : Z) : Z :=
  match s with
  | [] => -1
  | x :: s' =>
      let braceCount := if x =? LBRACE then braceCount + 1 else braceCount in
      let braceCount := if x =? RBRACE then braceCount - 1 else braceCount in
      if braceCount =? 0 then Z.of_nat i else scan s' (S i) braceCount
  end.

(** [braceEnd] after the loop started at [braceStart] with a count of 0. *)
Definition braceEnd (cleanedBody : jsstring) (braceStart : nat) : Z :=
  scan (drop braceStart cleanedBody) braceStart 0.

End Server.

(** Opening braces less closing braces in [s]. *)
Fixpoint brace_balance (s : jsstring) : Z :=
  match s with
  | [] => 0
  | x :: s' =>
      (if x =? Server.LBRACE then 1 else 0) - (if x =? Server.RBRACE then 1 else 0)
      + brace_balance s'
  end.

(** A computation that only sends requests: the world it leaves differs
    from the one it found by the count of requests, raised by [k] at most. *)
Definition sends_at_most {A : Type} (k : nat) (m : Js A) : Prop :=
  forall w, exists d, (d <= k)%nat /\ (m w).2 = set_requests (requests w + d) w.

(** * Properties *)

(** ** Bytes and sizes *)

Lemma Z_of_byte_range (b : byte) : 0 <= Z_of_byte b < 256.
Proof. destruct b; vm_compute; split; congruence. Qed.

Lemma byte_of_Z_of_byte (b : byte) : byte_of_Z (Z_of_byte b) = b.
Proof. destruct b; reflexivity. Qed.

Lemma byte_of_Z_mod (z : Z) : byte_of_Z (z mod 256) = byte_of_Z z.
Proof. unfold byte_of_Z. rewrite Z.mod_mod by lia. reflexivity. Qed.

Lemma Z_of_byte_of_Z (z : Z) : Z_of_byte (byte_of_Z z) = z mod 256.
Proof.
  unfold byte_of_Z, Z_of_byte.
  assert (Hr : 0 <= z mod 256 < 256) by (apply Z.mod_pos_bound; lia).
  destruct (Byte.of_N (Z.to_N (z mod 256))) as [b|] eqn:E.
  - apply Byte.to_of_N in E. simpl. rewrite E. lia.
  - apply Byte.of_N_None_iff in E. lia.
Qed.

Lemma le32_mod (v : Z) :
  0 <= v ->
  le32 v = [byte_of_Z (v mod 256); byte_of_Z (v / 256 mod 256);
            byte_of_Z (v / 65536 mod 256); byte_of_Z (v / 16777216 mod 256)].
Proof.
  intros Hv. unfold le32.
  change 255 with (Z.ones 8).
  rewrite !Z.land_ones, !Z.shiftr_div_pow2 by lia.
  reflexivity.
Qed.

Lemma div_mod_2_32 (v d : Z) :
  0 <= v -> (d = 1 \/ d = 256 \/ d = 65536 \/ d = 16777216) ->
  (v mod 2 ^ 32) / d mod 256 = v / d mod 256.
Proof.
  intros Hv Hd. change (2 ^ 32) with 4294967296.
  set (q := v / 4294967296).
  assert (E : v mod 4294967296 = v - 4294967296 * q) by (subst q; pose proof (Z.div_mod v 4294967296); lia).
  rewrite E.
  destruct Hd as [->|[->|[->| ->]]].
  - replace (v - 4294967296 * q) with (v + (- (4294967296 * q)) * 1) by ring.
    rewrite Z.div_add, !Z.div_1_r by lia.
    replace (v + - (4294967296 * q)) with (v + (- (16777216 * q)) * 256) by ring.
    apply Z.mod_add. lia.
  - replace (v - 4294967296 * q) with (v + (- (16777216 * q)) * 256) by ring.
    rewrite Z.div_add by lia.
    replace (v / 256 + - (16777216 * q)) with (v / 256 + (- (65536 * q)) * 256) by ring.
    apply Z.mod_add. lia.
  - replace (v - 4294967296 * q) with (v + (- (65536 * q)) * 65536) by ring.
    rewrite Z.div_add by lia.
    replace (v / 65536 + - (65536 * q)) with (v / 65536 + (- (256 * q)) * 256) by ring.
    apply Z.mod_add. lia.
  - replace (v - 4294967296 * q) with (v + (- (256 * q)) * 16777216) by ring.
    rewrite Z.div_add by lia.
    replace (v / 16777216 + - (256 * q)) with (v / 16777216 + (- q) * 256) by ring.
    apply Z.mod_add. lia.
Qed.

Lemma DataView_setUint32_le_u32_LE (n : nat) :
  DataView_setUint32_le (Z.of_nat n) = u32_LE n.
Proof.
  unfold DataView_setUint32_le, u32_LE.
  assert (Hn : 0 <= Z.of_nat n) by lia.
  rewrite le32_mod by (apply Z.mod_pos_bound; lia).
  pose proof (div_mod_2_32 (Z.of_nat n) 1 Hn ltac:(auto)) as H0.
  rewrite !Z.div_1_r in H0.
  rewrite H0.
  rewrite (div_mod_2_32 _ 256), (div_mod_2_32 _ 65536), (div_mod_2_32 _ 16777216)
    by auto.
  reflexivity.
Qed.

Lemma encodeSize_u32_LE (n : nat) :
  Z.of_nat n < 2 ^ 32 -> encodeSize (Z.of_nat n) = Returned (u32_LE n).
Proof.
  intros Hn. unfold encodeSize.
  destruct (Z.leb_spec 0 (Z.of_nat n)); [|lia].
  destruct (Z.leb_spec (Z.of_nat n) 4294967295); [|lia].
  simpl. rewrite le32_mod by lia. reflexivity.
Qed.

Lemma encodeSize_out_of_range (n : nat) :
  2 ^ 32 <= Z.of_nat n -> encodeSize (Z.of_nat n) = Threw RangeError.
Proof.
  intros Hn. unfold encodeSize.
  destruct (Z.leb_spec (Z.of_nat n) 4294967295); [lia|].
  rewrite andb_false_r. reflexivity.
Qed.

Lemma u32_LE_length (n : nat) : length (u32_LE n) = 4%nat.
Proof. reflexivity. Qed.

(** [u32_LE] is read back as the size modulo 2^32. *)
Lemma read_u32_LE_u32_LE (n : nat) (rest : bytes) :
  read_u32_LE (u32_LE n ++ rest) = Some (Z.of_nat n mod 2 ^ 32).
Proof.
  unfold u32_LE, read_u32_LE. simpl. f_equal.
  rewrite !Z_of_byte_of_Z, !Z.mod_mod by lia.
  set (v := Z.of_nat n).
  change (2 ^ 32) with 4294967296.
  assert (E1 : v / 256 / 256 = v / 65536) by (rewrite Z.div_div by lia; reflexivity).
  assert (E2 : v / 65536 / 256 = v / 16777216)
    by (rewrite Z.div_div by lia; reflexivity).
  assert (E3 : v / 16777216 / 256 = v / 4294967296)
    by (rewrite Z.div_div by lia; reflexivity).
  pose proof (Z.div_mod v 256 ltac:(lia)).
  pose proof (Z.div_mod (v / 256) 256 ltac:(lia)).
  pose proof (Z.div_mod (v / 65536) 256 ltac:(lia)).
  pose proof (Z.div_mod (v / 16777216) 256 ltac:(lia)).
  pose proof (Z.mod_pos_bound v 256 ltac:(lia)).
  pose proof (Z.mod_pos_bound (v / 256) 256 ltac:(lia)).
  pose proof (Z.mod_pos_bound (v / 65536) 256 ltac:(lia)).
  pose proof (Z.mod_pos_bound (v / 16777216) 256 ltac:(lia)).
  apply Z.mod_unique_pos with (q := v / 4294967296); lia.
Qed.

(** ** Typed arrays *)

Lemma TypedArray_set_at (pre src : bytes) (k : nat) :
  TypedArray_set (pre ++ replicate (length src + k) x00) src (length pre)
  = Returned (pre ++ src ++ replicate k x00).
Proof.
  unfold TypedArray_set.
  rewrite decide_True by (rewrite length_app, length_replicate; lia).
  f_equal.
  rewrite take_app_length.
  rewrite drop_app_add', drop_replicate by reflexivity.
  do 3 f_equal. lia.
Qed.

Lemma frame_concat `{Platform} (size inner tail : bytes) :
  OnionBuilder.frame size inner tail = Returned (size ++ inner ++ tail).
Proof.
  unfold OnionBuilder.frame, Uint8Array_new.
  pose proof (TypedArray_set_at [] size (length inner + length tail)) as H1.
  simpl in H1. rewrite <- Nat.add_assoc, H1. simpl.
  pose proof (TypedArray_set_at size inner (length tail)) as H2.
  rewrite H2. simpl.
  pose proof (TypedArray_set_at (size ++ inner) tail 0) as H3.
  rewrite length_app, Nat.add_0_r, <- !app_assoc in H3.
  rewrite H3. simpl. rewrite app_nil_r. reflexivity.
Qed.

Lemma TypedArray_copy (data : bytes) :
  TypedArray_set (Uint8Array_new (length data)) data 0 = Returned data.
Proof.
  pose proof (TypedArray_set_at [] data 0) as H.
  simpl in H. rewrite Nat.add_0_r, app_nil_r in H. exact H.
Qed.

(** ** Hex and JSON text *)

Lemma hex_digit_char (n : Z) : 0 <= n < 16 -> hex_char (hex_digit n).
Proof.
  intros Hn. unfold hex_char, hex_digit.
  destruct (Z.ltb_spec n 10); lia.
Qed.

Lemma toHex_cons (b : byte) (rest : bytes) :
  toHex (b :: rest)
  = hex_digit (Z_of_byte b / 16) :: hex_digit (Z_of_byte b mod 16) :: toHex rest.
Proof. reflexivity. Qed.

Lemma toHex_chars (buffer : bytes) : Forall hex_char (toHex buffer).
Proof.
  induction buffer as [|b rest IH]; [constructor|].
  rewrite toHex_cons.
  pose proof (Z_of_byte_range b) as Hb.
  constructor; [|constructor; [|assumption]]; apply hex_digit_char.
  - split; [apply Z.div_pos; lia | apply Z.div_lt_upper_bound; lia].
  - apply Z.mod_pos_bound; lia.
Qed.

Lemma toHex_length (buffer : bytes) : length (toHex buffer) = (2 * length buffer)%nat.
Proof.
  induction buffer as [|b rest IH]; [reflexivity|].
  rewrite toHex_cons. simpl. rewrite IH. lia.
Qed.

Lemma unhex_hex_digit (n : Z) : 0 <= n < 16 -> unhex (hex_digit n) = Some n.
Proof.
  intros Hn. unfold unhex, hex_digit.
  destruct (Z.ltb_spec n 10).
  - destruct (Z.leb_spec 48 (48 + n)), (Z.leb_spec (48 + n) 57); try lia.
    simpl. f_equal. lia.
  - destruct (Z.leb_spec 48 (87 + n)), (Z.leb_spec (87 + n) 57); try lia.
    simpl.
    destruct (Z.leb_spec 97 (87 + n)), (Z.leb_spec (87 + n) 102); try lia.
    simpl. f_equal. lia.
Qed.

Lemma hex_digit_low_byte (n : Z) : 0 <= n < 16 -> hex_digit n mod 256 = hex_digit n.
Proof.
  intros Hn. apply Z.mod_small. unfold hex_digit. destruct (n <? 10); lia.
Qed.

(** Decoding the hex form of a buffer gives the buffer back. *)
Lemma fromHex_toHex (buffer : bytes) : fromHex (toHex buffer) = buffer.
Proof.
  induction buffer as [|b rest IH]; [reflexivity|].
  rewrite toHex_cons. cbn [fromHex].
  pose proof (Z_of_byte_range b) as Hb.
  assert (Hhi : 0 <= Z_of_byte b / 16 < 16)
    by (split; [apply Z.div_pos; lia | apply Z.div_lt_upper_bound; lia]).
  assert (Hlo : 0 <= Z_of_byte b mod 16 < 16) by (apply Z.mod_pos_bound; lia).
  rewrite !hex_digit_low_byte by assumption.
  rewrite !unhex_hex_digit.
  - rewrite IH. f_equal.
    rewrite <- (byte_of_Z_of_byte b) at 3. f_equal.
    pose proof (Z.div_mod (Z_of_byte b) 16 ltac:(lia)). lia.
  - apply Z.mod_pos_bound; lia.
  - split; [apply Z.div_pos; lia | apply Z.div_lt_upper_bound; lia].
Qed.

Lemma hex_char_plain (c : Z) : hex_char c -> plain_unit c.
Proof. unfold hex_char, plain_unit, DQUOTE, BACKSLASH. lia. Qed.

Lemma quote_unit_plain (c : Z) : plain_unit c -> quote_unit c = [c].
Proof.
  unfold plain_unit, DQUOTE, BACKSLASH. intros (Hr & Hq & Hb).
  unfold quote_unit, is_high_surrogate, is_low_surrogate, DQUOTE, BACKSLASH.
  repeat match goal with
         | |- context [?a =? ?b] => destruct (Z.eqb_spec a b); [lia|]
         end.
  destruct (Z.ltb_spec c 32); [lia|].
  destruct (Z.leb_spec 55296 c); [lia|].
  destruct (Z.leb_spec 56320 c); [lia|].
  reflexivity.
Qed.

Lemma plain_not_high (c : Z) : plain_unit c -> is_high_surrogate c = false.
Proof.
  unfold plain_unit, is_high_surrogate. intros (Hr & _).
  destruct (Z.leb_spec 55296 c); [lia|]. reflexivity.
Qed.

Lemma quote_units_plain (s : jsstring) : Forall plain_unit s -> quote_units s = s.
Proof.
  induction 1 as [|c rest Hc _ IH]; [reflexivity|].
  cbn [quote_units]. rewrite (plain_not_high c Hc), (quote_unit_plain c Hc), IH.
  reflexivity.
Qed.

(** A string of plain code units is quoted by putting it between quotes. *)
Lemma QuoteJSONString_plain (s : jsstring) :
  Forall plain_unit s -> QuoteJSONString s = quoted s.
Proof.
  intros Hs. unfold QuoteJSONString, quoted. rewrite quote_units_plain by assumption.
  reflexivity.
Qed.

Lemma QuoteJSONString_toHex (buffer : bytes) :
  QuoteJSONString (toHex buffer) = quoted (toHex buffer).
Proof.
  apply QuoteJSONString_plain.
  eapply Forall_impl; [apply toHex_chars | apply hex_char_plain].
Qed.

Lemma QuoteJSONString_empty : QuoteJSONString [] = quoted [].
Proof. reflexivity. Qed.

Lemma stringify_wrapperMeta (key : bytes) :
  JSON_stringify
    (JObj [(js "ephemeral_key", JStr (toHex key)); (js "enc_type", JStr (js "aes-gcm"))])
  = Spec.outer_meta key.
Proof.
  cbn [JSON_stringify map join_comma fst snd].
  rewrite QuoteJSONString_toHex.
  unfold Spec.outer_meta. rewrite <- !app_assoc. reflexivity.
Qed.

Lemma stringify_intermediate (next : jsstring) (key : bytes) :
  JSON_stringify
    (JObj [(js "destination", JStr next); (js "ephemeral_key", JStr (toHex key));
           (js "enc_type", JStr (js "aes-gcm"))])
  = Spec.intermediate_routing next key.
Proof.
  cbn [JSON_stringify map join_comma fst snd].
  rewrite QuoteJSONString_toHex.
  unfold Spec.intermediate_routing. rewrite <- !app_assoc. reflexivity.
Qed.

Lemma stringify_terminal (destination : OnionDestination) :
  JSON_stringify
    (JObj [(js "host", JStr (host destination)); (js "port", JNum (port destination));
           (js "protocol", JStr (protocol destination));
           (js "target", JStr (target destination))])
  = Spec.terminal_routing destination.
Proof.
  cbn [JSON_stringify map join_comma fst snd].
  unfold Spec.terminal_routing. rewrite <- !app_assoc. reflexivity.
Qed.

Lemma stringify_finalRoute :
  utf8 (JSON_stringify (JObj [(js "headers", JObj [])]))
  = utf8 (js "{" ++ quoted (js "headers") ++ js ":{}}").
Proof. reflexivity. Qed.

(** ** Running the methods *)

Lemma bind_returned {A B : Type} (m : Js A) (k : A -> Js B) (w w' : World) (a : A) :
  m w = (Returned a, w') -> (m ≫= k) w = k a w'.
Proof. intros E. unfold mbind, Js_bind. rewrite E. reflexivity. Qed.

Lemma bind_threw {A B : Type} (m : Js A) (k : A -> Js B) (w w' : World) (e : JsError) :
  m w = (Threw e, w') -> (m ≫= k) w = (Threw e, w').
Proof. intros E. unfold mbind, Js_bind. rewrite E. reflexivity. Qed.

Lemma bind_pure_returned {A B : Type} (a : A) (k : A -> Js B) (w : World) :
  (pure (Returned a) ≫= k) w = k a w.
Proof. reflexivity. Qed.

Lemma set_consumed_twice (a b : nat) (w : World) :
  set_consumed b (set_consumed a w) = set_consumed b w.
Proof. reflexivity. Qed.

Section runs.
Context `{Platform}.

Lemma slice_length (w : World) (from n : nat) : length (Spec.slice w from n) = n.
Proof. unfold Spec.slice. rewrite length_fmap, length_seq. reflexivity. Qed.

Lemma slice_set_consumed (w : World) (c from n : nat) :
  Spec.slice (set_consumed c w) from n = Spec.slice w from n.
Proof. reflexivity. Qed.

Lemma randomBytes_run (n : nat) (w : World) :
  randomBytes n w
  = (Returned (Spec.slice w (consumed w) n), set_consumed (consumed w + n) w).
Proof. reflexivity. Qed.

Lemma box_keyPair_run (w : World) :
  nacl.box_keyPair w
  = (Returned (Spec.keypair (Spec.slice w (consumed w) 32)),
     set_consumed (consumed w + 32) w).
Proof. reflexivity. Qed.

Lemma scalarMult_run (n p : bytes) :
  length n = 32%nat -> length p = 32%nat ->
  nacl.scalarMult n p = Returned (crypto_scalarmult n p).
Proof. intros Hn Hp. unfold nacl.scalarMult. rewrite Hn, Hp. reflexivity. Qed.

Lemma deriveSymmetricKey_run (seckey pubkey : bytes) (isForDecryption : bool) :
  length seckey = 32%nat -> length pubkey = 32%nat ->
  HopEncryption.deriveSymmetricKey seckey pubkey isForDecryption
  = Returned (Spec.derive seckey pubkey).
Proof.
  intros Hn Hp. unfold HopEncryption.deriveSymmetricKey.
  rewrite scalarMult_run by assumption. reflexivity.
Qed.

Lemma importKey_derived (s P : bytes) :
  subtle.importKey (Spec.derive s P) = Returned (Spec.derive s P).
Proof.
  unfold subtle.importKey, Spec.derive. rewrite HMAC_SHA256_length. reflexivity.
Qed.

Lemma encryptAESGCM_run (self : HopEncryption.t) (plaintext recipientPubKey : bytes)
    (w : World) :
  length (HopEncryption.privateKey self) = 32%nat ->
  length recipientPubKey = 32%nat ->
  HopEncryption.encryptAESGCM self plaintext recipientPubKey w
  = (Returned (Spec.seal plaintext recipientPubKey (HopEncryption.privateKey self)
                 (Spec.slice w (consumed w) 12)),
     set_consumed (consumed w + 12) w).
Proof.
  intros Hs Hp. unfold HopEncryption.encryptAESGCM.
  rewrite deriveSymmetricKey_run by assumption.
  rewrite bind_pure_returned.
  rewrite (bind_returned _ _ _ _ _ (randomBytes_run 12 w)).
  rewrite importKey_derived, bind_pure_returned.
  unfold subtle.encrypt. rewrite bind_pure_returned.
  unfold Spec.seal. simpl. rewrite app_nil_r. reflexivity.
Qed.

Lemma encrypt_aes_gcm (self : HopEncryption.t) (plaintext recipientPubKey : bytes) :
  HopEncryption.encrypt self (js "aes-gcm") plaintext recipientPubKey
  = HopEncryption.encryptAESGCM self plaintext recipientPubKey.
Proof.
  unfold HopEncryption.encrypt.
  rewrite (bool_decide_eq_true_2 (js "aes-gcm" = js "aes-gcm")) by reflexivity.
  reflexivity.
Qed.

Lemma take_32_slice (w : World) (from : nat) :
  take 32 (Spec.slice w from 32) = Spec.slice w from 32.
Proof. apply take_ge. rewrite slice_length. lia. Qed.

(** One turn of the loop adds the layer of the hop at index [i]. *)
Lemma hop_run (payload : JSON) (onionPath : list OnionPathNode)
    (destination : OnionDestination) (final_eph_pub : bytes) (start i : nat)
    (node : OnionPathNode) (w : World) :
  onionPath !! i = Some node ->
  Forall x25519_key_ok onionPath ->
  let inner := Spec.layers w start (drop (S i) onionPath) in
  let '(blob, eph) := Spec.onion payload destination final_eph_pub inner in
  consumed w = (start + 44 * length (drop (S i) onionPath))%nat ->
  OnionBuilder.hop onionPath destination i blob eph w
  = (Returned (Spec.onion payload destination final_eph_pub
                 (Spec.layers w start (drop i onionPath))),
     set_consumed (consumed w + 44) w).
Proof.
  intros Hnode Hok inner.
  destruct (Spec.onion payload destination final_eph_pub inner)
    as [blob eph] eqn:Einner.
  intros Hc.
  rewrite (drop_S _ _ _ Hnode). cbn [Spec.layers Spec.onion].
  fold inner. rewrite Einner.
  unfold OnionBuilder.hop.
  rewrite (bind_returned _ _ _ _ _ (box_keyPair_run w)).
  rewrite Hnode. cbn [defined]. rewrite bind_pure_returned.
  assert (Hkey : x25519_key_ok node).
  { eapply Forall_forall; [exact Hok|]. eapply list_elem_of_lookup_2, Hnode. }
  assert (Hlen : (i < length onionPath)%nat) by (eapply lookup_lt_Some, Hnode).
  assert (Hrouting :
    (if Z.of_nat i =? Z.of_nat (length onionPath) - 1
     then mret (JObj [(js "host", JStr (host destination));
                      (js "port", JNum (port destination));
                      (js "protocol", JStr (protocol destination));
                      (js "target", JStr (target destination))])
     else next ← pure (defined (onionPath !! (i + 1)%nat));
          mret (JObj [(js "destination", JStr (ed25519_pubkey next));
                      (js "ephemeral_key", JStr (toHex eph));
                      (js "enc_type", JStr (js "aes-gcm"))]))
      (set_consumed (consumed w + 32) w)
    = (Returned
         (match inner with
          | [] => JObj [(js "host", JStr (host destination));
                        (js "port", JNum (port destination));
                        (js "protocol", JStr (protocol destination));
                        (js "target", JStr (target destination))]
          | next :: _ =>
              JObj [(js "destination", JStr (ed25519_pubkey (Spec.layer_hop next)));
                    (js "ephemeral_key", JStr (toHex eph));
                    (js "enc_type", JStr (js "aes-gcm"))]
          end),
       set_consumed (consumed w + 32) w)).
  { subst inner.
    destruct (Z.eqb_spec (Z.of_nat i) (Z.of_nat (length onionPath) - 1)) as [E|E].
    - rewrite drop_ge by lia. reflexivity.
    - destruct (onionPath !! (i + 1)%nat) as [next|] eqn:Enext.
      + replace (S i) with (i + 1)%nat by lia.
        rewrite (drop_S _ _ _ Enext). reflexivity.
      + apply lookup_ge_None in Enext. lia. }
  rewrite (bind_returned _ _ _ _ _ Hrouting). clear Hrouting.
  rewrite frame_concat, bind_pure_returned.
  rewrite TypedArray_copy, bind_pure_returned.
  rewrite encrypt_aes_gcm.
  erewrite bind_returned; cycle 1.
  { apply encryptAESGCM_run.
    - cbn [HopEncryption.new HopEncryption.privateKey nacl.secretKey Spec.keypair].
      rewrite take_32_slice. apply slice_length.
    - exact Hkey. }
  cbn [HopEncryption.new HopEncryption.privateKey nacl.secretKey nacl.publicKey
       Spec.keypair consumed set_consumed Spec.layer_hop Spec.layer_eph
       Spec.layer_iv].
  rewrite take_32_slice, DataView_setUint32_le_u32_LE, !slice_set_consumed.
  rewrite <- Hc.
  unfold mret, Js_ret. rewrite set_consumed_twice.
  replace (consumed w + 32 + 12)%nat with (consumed w + 44)%nat by lia.
  do 4 f_equal.
  unfold Spec.frame. do 3 f_equal.
  destruct inner as [|next rest].
  - apply stringify_terminal.
  - apply stringify_intermediate.
Qed.

Lemma layers_set_consumed (c : nat) (w : World) (start : nat)
    (path : list OnionPathNode) :
  Spec.layers (set_consumed c w) start path = Spec.layers w start path.
Proof. induction path as [|node rest IH]; [reflexivity|]. cbn. rewrite IH. reflexivity. Qed.

Lemma set_consumed_same (w : World) (c : nat) : consumed w = c -> set_consumed c w = w.
Proof. intros <-. destruct w. reflexivity. Qed.

(** The loop entered with [remaining] turns to go, the layers of the hops
    from [remaining] on being made, ends with the layers of the whole
    path. *)
Lemma hops_run (payload : JSON) (onionPath : list OnionPathNode)
    (destination : OnionDestination) (final_eph_pub : bytes) (start : nat) :
  Forall x25519_key_ok onionPath ->
  forall (remaining : nat) (w : World),
    (remaining <= length onionPath)%nat ->
    consumed w = (start + 44 * (length onionPath - remaining))%nat ->
    OnionBuilder.hops onionPath destination remaining
      (Spec.onion payload destination final_eph_pub
         (Spec.layers w start (drop remaining onionPath))).1
      (Spec.onion payload destination final_eph_pub
         (Spec.layers w start (drop remaining onionPath))).2 w
    = (Returned (Spec.onion payload destination final_eph_pub
                   (Spec.layers w start onionPath)),
       set_consumed (start + 44 * length onionPath) w).
Proof.
  intros Hok. induction remaining as [|i IH]; intros w Hle Hc.
  - rewrite drop_0. cbn [OnionBuilder.hops].
    rewrite set_consumed_same by lia.
    destruct (Spec.onion _ _ _ _). reflexivity.
  - destruct (lookup_lt_is_Some_2 onionPath i ltac:(lia)) as [node Hnode].
    cbn [OnionBuilder.hops].
    pose proof (hop_run payload onionPath destination final_eph_pub start i
                  node w Hnode Hok) as Hhop.
    cbv zeta in Hhop.
    destruct (Spec.onion payload destination final_eph_pub
                (Spec.layers w start (drop (S i) onionPath))) as [blob eph].
    rewrite length_drop in Hhop. specialize (Hhop ltac:(lia)).
    cbn [fst snd].
    rewrite (bind_returned _ _ _ _ _ Hhop).
    specialize (IH (set_consumed (consumed w + 44) w) ltac:(lia)
                  ltac:(cbn; lia)).
    rewrite !layers_set_consumed, set_consumed_twice in IH.
    destruct (Spec.onion payload destination final_eph_pub
                (Spec.layers w start (drop i onionPath))) as [blob' eph'].
    exact IH.
Qed.

(** [buildOnionRequest] on a path of well-formed keys returns what the
    specification's [build] describes, and reads [32 + 44 * N] octets of
    randomness. *)
Lemma buildOnionRequest_run (finalPayload : JSON) (onionPath : list OnionPathNode)
    (destination : OnionDestination) (w : World) :
  Z.of_nat (length (utf8 (JSON_stringify finalPayload))) < 2 ^ 32 ->
  Forall x25519_key_ok onionPath ->
  OnionBuilder.buildOnionRequest finalPayload onionPath destination w
  = (Returned (Spec.build finalPayload onionPath destination w),
     set_consumed (consumed w + 32 + 44 * length onionPath) w).
Proof.
  intros Hsize Hok. unfold OnionBuilder.buildOnionRequest.
  rewrite (bind_returned _ _ _ _ _ (box_keyPair_run w)).
  rewrite encodeSize_u32_LE, bind_pure_returned by assumption.
  pose proof (hops_run finalPayload onionPath destination
                (nacl.publicKey (Spec.keypair (Spec.slice w (consumed w) 32)))
                (consumed w + 32) Hok (length onionPath)
                (set_consumed (consumed w + 32) w) ltac:(lia)
                ltac:(cbn; lia)) as Hloop.
  rewrite drop_all, set_consumed_twice in Hloop.
  cbn [Spec.layers Spec.onion fst snd] in Hloop.
  rewrite layers_set_consumed in Hloop.
  unfold Spec.innermost, Spec.frame in Hloop.
  cbn [concat]. rewrite app_nil_r, stringify_finalRoute.
  rewrite (bind_returned _ _ _ _ _ Hloop).
  unfold Spec.build.
  destruct (Spec.onion finalPayload destination
              (nacl.publicKey (Spec.keypair (Spec.slice w (consumed w) 32)))
              (Spec.layers w (consumed w + 32) onionPath)) as [blob eph].
  cbv beta iota.
  rewrite frame_concat, bind_pure_returned.
  rewrite stringify_wrapperMeta, DataView_setUint32_le_u32_LE.
  unfold mret, Js_ret, Spec.wrapper, Spec.frame.
  rewrite head_lookup. reflexivity.
Qed.
End runs.

(** ** How much randomness a computation reads *)

Lemma reads_weaken {A : Type} (n n' : nat) (m : Js A) :
  (n <= n')%nat -> reads_at_most n m -> reads_at_most n' m.
Proof.
  intros Hle Hm w1 w2 Hag.
  destruct (Hm w1 w2) as (Hout & d & Hd & H1 & H2).
  - intros k Hk. apply Hag. lia.
  - split; [exact Hout|]. exists d. repeat split; [lia|assumption..].
Qed.

Lemma reads_pure {A : Type} (o : Outcome A) : reads_at_most 0 (pure o).
Proof.
  intros w1 w2 _. split; [reflexivity|]. exists 0%nat.
  cbn. rewrite !Nat.add_0_r, !set_consumed_same by reflexivity. auto.
Qed.

Lemma reads_ret {A : Type} (a : A) : reads_at_most 0 (mret a).
Proof. apply (reads_pure (Returned a)). Qed.

Lemma reads_throw {A : Type} (e : JsError) : reads_at_most 0 (throw e : Js A).
Proof. apply (reads_pure (Threw e)). Qed.

Lemma reads_randomBytes (n : nat) : reads_at_most n (randomBytes n).
Proof.
  intros w1 w2 Hag. split.
  - cbn. f_equal. apply list_fmap_ext. intros i k Hk.
    apply Hag. apply lookup_seq in Hk. lia.
  - exists n. auto.
Qed.

Lemma reads_bind {A B : Type} (n1 n2 : nat) (m : Js A) (k : A -> Js B) :
  reads_at_most n1 m -> (forall a, reads_at_most n2 (k a)) ->
  reads_at_most (n1 + n2) (m ≫= k).
Proof.
  intros Hm Hk w1 w2 Hag.
  destruct (Hm w1 w2) as (Hout & d & Hd & H1 & H2).
  { intros i Hi. apply Hag. lia. }
  unfold mbind, Js_bind.
  destruct (m w1) as [o1 w1'], (m w2) as [o2 w2']. cbn in Hout, H1, H2. subst.
  destruct o2 as [a|e|].
  - destruct (Hk a (set_consumed (consumed w1 + d) w1)
                (set_consumed (consumed w2 + d) w2))
      as (Hout' & d' & Hd' & H1' & H2').
    { intros i Hi. cbn. rewrite <- !Nat.add_assoc. apply Hag. lia. }
    split; [exact Hout'|]. exists (d + d')%nat.
    rewrite H1', H2'. cbn. rewrite !Nat.add_assoc. repeat split. lia.
  - split; [reflexivity|]. exists d. repeat split. lia.
  - split; [reflexivity|]. exists d. repeat split. lia.
Qed.

Lemma reads_bind_pure {A B : Type} (n : nat) (o : Outcome A) (k : A -> Js B) :
  (forall a, reads_at_most n (k a)) -> reads_at_most n (pure o ≫= k).
Proof. intros Hk. apply (reads_bind 0 n); [apply reads_pure | exact Hk]. Qed.

Section footprint.
Context `{Platform}.

Lemma reads_box_keyPair : reads_at_most 32 nacl.box_keyPair.
Proof.
  unfold nacl.box_keyPair.
  apply (reads_bind 32 0); [apply reads_randomBytes | intros; apply reads_ret].
Qed.

Lemma reads_encrypt (self : HopEncryption.t) (encType : jsstring)
    (plaintext recipientPubKey : bytes) :
  reads_at_most 12 (HopEncryption.encrypt self encType plaintext recipientPubKey).
Proof.
  unfold HopEncryption.encrypt.
  destruct (_ || _); [|apply (reads_weaken 0); [lia | apply reads_throw]].
  unfold HopEncryption.encryptAESGCM.
  apply reads_bind_pure. intros key.
  apply (reads_bind 12 0); [apply reads_randomBytes|]. intros iv.
  do 2 (apply reads_bind_pure; intros ?). apply reads_ret.
Qed.

Lemma reads_hop (onionPath : list OnionPathNode) (destination : OnionDestination)
    (i : nat) (blob ephemeralKeyForNextHop : bytes) :
  reads_at_most 44
    (OnionBuilder.hop onionPath destination i blob ephemeralKeyForNextHop).
Proof.
  unfold OnionBuilder.hop.
  apply (reads_bind 32 12); [apply reads_box_keyPair|]. intros kp.
  apply reads_bind_pure. intros node.
  apply (reads_bind 0 12).
  { destruct (_ =? _); [apply reads_ret|].
    apply reads_bind_pure. intros next. apply reads_ret. }
  intros routingInfo.
  do 2 (apply reads_bind_pure; intros ?).
  apply (reads_bind 12 0); [apply reads_encrypt | intros; apply reads_ret].
Qed.

Lemma reads_hops (onionPath : list OnionPathNode) (destination : OnionDestination)
    (remaining : nat) (blob ephemeralKeyForNextHop : bytes) :
  reads_at_most (44 * remaining)
    (OnionBuilder.hops onionPath destination remaining blob ephemeralKeyForNextHop).
Proof.
  revert blob ephemeralKeyForNextHop.
  induction remaining as [|i IH]; intros blob eph.
  - apply reads_ret.
  - cbn [OnionBuilder.hops].
    replace (44 * S i)%nat with (44 + 44 * i)%nat by lia.
    apply reads_bind; [apply reads_hop|]. intros [blob' eph']. apply IH.
Qed.

(** [buildOnionRequest] reads the next [32 + 44 * N] octets of the random
    stream at most, and nothing else of the world. *)
Lemma reads_buildOnionRequest (finalPayload : JSON)
    (onionPath : list OnionPathNode) (destination : OnionDestination) :
  reads_at_most (32 + 44 * length onionPath)
    (OnionBuilder.buildOnionRequest finalPayload onionPath destination).
Proof.
  unfold OnionBuilder.buildOnionRequest.
  apply reads_bind; [apply reads_box_keyPair|]. intros kp.
  apply reads_bind_pure. intros sizeBuffer.
  replace (44 * length onionPath)%nat with (44 * length onionPath + 0)%nat by lia.
  apply reads_bind; [apply reads_hops|]. intros [blob eph].
  apply reads_bind_pure. intros finalWrapper. apply reads_ret.
Qed.

(** The plaintext made for the terminal hop lies inside the blob of any
    non-empty path. *)
Lemma terminal_sealed_in (payload : JSON) (destination : OnionDestination)
    (final_eph_pub : bytes) (layers : list Spec.Layer) :
  layers <> [] ->
  Spec.sealed_in
    (Spec.frame (Spec.innermost payload) (utf8 (Spec.terminal_routing destination)))
    (Spec.onion payload destination final_eph_pub layers).1.
Proof.
  induction layers as [|l inner IH]; [congruence|]. intros _.
  cbn [Spec.onion].
  destruct inner as [|next rest].
  - cbn. apply Spec.sealed_here.
  - specialize (IH ltac:(congruence)).
    destruct (Spec.onion payload destination final_eph_pub (next :: rest))
      as [blob_prev next_eph_pub].
    cbn [fst] in *. apply Spec.sealed_deeper. exact IH.
Qed.

Lemma layers_length (w : World) (start : nat) (path : list OnionPathNode) :
  length (Spec.layers w start path) = length path.
Proof. induction path; cbn; congruence. Qed.
End footprint.

(** ** The reference platform against the standards' test vectors *)

Example sha256_abc :
  toHex (Reference.of_octets (Reference.sha256 (Reference.octets (utf8 (js "abc")))))
  = js "ba7816bf8f01cfea414140de5dae2223b00361a396177a9cb410ff61f20015ad".
Proof. vm_compute. reflexivity. Qed.

(** RFC 4231, test case 2. *)
Example hmac_sha256_rfc4231 :
  toHex (HMAC_SHA256 (Platform := Reference.platform) (utf8 (js "Jefe"))
           (utf8 (js "what do ya want for nothing?")))
  = js "5bdcc146bf60754e6a042426089575c75a003f089d2739839dec58b964ec3843".
Proof. vm_compute. reflexivity. Qed.

(** RFC 7748, section 6.1: both public keys and the shared secret. *)
Example x25519_rfc7748 :
  crypto_scalarmult (Platform := Reference.platform) Scenario.alice_sk nacl.nine
  = Scenario.alice_pk
  /\ crypto_scalarmult (Platform := Reference.platform) Scenario.bob_sk nacl.nine
     = Scenario.bob_pk
  /\ toHex (crypto_scalarmult (Platform := Reference.platform)
              Scenario.alice_sk Scenario.bob_pk)
     = js "4a5d9d5ba4ce2de1728e3bf480350f25e07e21c947d19e3376f09b3c1e161742".
Proof. vm_compute. auto. Qed.

(** The GCM specification's test case 14: a zero key, a zero IV and one
    zero block. *)
Example aes_gcm_test_case_14 :
  toHex (AES_GCM_encrypt (Platform := Reference.platform)
           (replicate 32 x00) (replicate 12 x00) (replicate 16 x00))
  = js "cea7403d4d606b6e074ec5d3baf39d18d0d1c8a799996bf0265b98b5d48ab919".
Proof. vm_compute. reflexivity. Qed.

(** ** The text of numbers and of buffers against the engine

    Values as Node prints and decodes them. *)

Example Number_toString_examples :
  Number_toString 443 = js "443"
  /\ Number_toString (-17) = js "-17"
  /\ Number_toString (2 ^ 53 + 1) = js "9007199254740992"
  /\ Number_toString (2 ^ 64) = js "18446744073709552000"
  /\ Number_toString (10 ^ 21 - 1) = js "1e+21"
  /\ Number_toString (2 ^ 70) = js "1.1805916207174113e+21"
  /\ Number_toString (2 ^ 1024) = js "Infinity"
  /\ JSON_number (2 ^ 64) = js "18446744073709552000"
  /\ JSON_number (2 ^ 1024) = js "null".
Proof. vm_compute. repeat split. Qed.

(** "A", U+00E9, U+20AC and U+1F600; then a sequence cut short by "A" and
    a surrogate written in three bytes, which is three ill-formed parts. *)
Example Buffer_toString_examples :
  Buffer_toString [x41; xc3; xa9; xe2; x82; xac; xf0; x9f; x98; x80]
  = [0x41; 0xE9; 0x20AC; 0xD83D; 0xDE00]
  /\ Buffer_toString [xe2; x82; x41; xed; xa0; x80]
     = [0xFFFD; 0x41; 0xFFFD; 0xFFFD; 0xFFFD].
Proof. vm_compute. split; reflexivity. Qed.

(** Code units above 255 are read through their low byte: U+0130 and
    U+0141 count as "0" and "A". *)
Example fromHex_low_byte :
  fromHex [0x130; 0x141] = [x0a] /\ fromHex (js "0g12") = [].
Proof. vm_compute. split; reflexivity. Qed.

(** ** The claims about [buildOnionRequest] *)

Section layers.
Context `{Platform}.

Lemma slice_app (w : World) (from n m : nat) :
  Spec.slice w from n ++ Spec.slice w (from + n) m = Spec.slice w from (n + m).
Proof.
  unfold Spec.slice. rewrite seq_app, fmap_app. f_equal. cbn [Nat.add].
  replace (seq n m) with (Nat.add n <$> seq 0 m)
    by (rewrite fmap_add_seq; f_equal; lia).
  rewrite <- list_fmap_compose.
  apply list_fmap_ext. intros _ i _. cbn. f_equal. lia.
Qed.

(** The layers are those of the hops, in the order of the path. *)
Lemma layers_hops (w : World) (start : nat) (path : list OnionPathNode) :
  Spec.layer_hop <$> Spec.layers w start path = path.
Proof.
  induction path as [|node rest IH]; [reflexivity|].
  cbn [Spec.layers fmap list_fmap Spec.layer_hop]. f_equal. exact IH.
Qed.

(** Read from the last hop to the first, the layers take the random
    stream as it comes. *)
Lemma layers_material (w : World) (start : nat) (path : list OnionPathNode) :
  concat ((fun l => nacl.secretKey (Spec.layer_eph l) ++ Spec.layer_iv l)
            <$> rev (Spec.layers w start path))
  = Spec.slice w start (44 * length path).
Proof.
  induction path as [|node rest IH]; [reflexivity|].
  cbn [Spec.layers rev]. rewrite fmap_app, concat_app, IH.
  cbn [fmap list_fmap concat Spec.layer_eph Spec.layer_iv Spec.keypair
       nacl.secretKey].
  rewrite app_nil_r, slice_app, slice_app. f_equal. cbn [length]. lia.
Qed.
End layers.


Section build.
Context `{Platform}.

(** C1. For a path of length N >= 1 (of well-formed X25519 keys, and a
    payload whose JSON fits a 32-bit size), [buildOnionRequest] returns an
    envelope whose bytes are [u32_LE(len(blob)) || blob || ] the compact
    JSON [{"ephemeral_key":<hex>,"enc_type":"aes-gcm"}] in UTF-8. The
    blob is the outermost layer the loop made for this payload,
    destination and path: the frame of the blob of the hops after the
    first and of the routing JSON, sealed for the first hop with the last
    ephemeral keypair and IV drawn (at [32 + 44 * (N-1)] of the random
    stream). The hex digits are lowercase and spell the public key of
    that keypair, and the entry node is the first element of the path. *)
Theorem buildOnionRequest_envelope (finalPayload : JSON)
    (onionPath : list OnionPathNode) (destination : OnionDestination)
    (w : World) :
  (1 <= length onionPath)%nat ->
  Z.of_nat (length (utf8 (JSON_stringify finalPayload))) < 2 ^ 32 ->
  Forall x25519_key_ok onionPath ->
  let from := (consumed w + 32 + 44 * (length onionPath - 1))%nat in
  let eph_sk := Spec.slice w from 32 in
  let iv := Spec.slice w (from + 32) 12 in
  let eph_pub := crypto_scalarmult eph_sk nacl.nine in
  let inner :=
    Spec.onion finalPayload destination
      (crypto_scalarmult (Spec.slice w (consumed w) 32) nacl.nine)
      (Spec.layers w (consumed w + 32) (tail onionPath)) in
  let routing :=
    match tail onionPath with
    | [] => Spec.terminal_routing destination
    | next :: _ => Spec.intermediate_routing (ed25519_pubkey next) inner.2
    end in
  exists (envelope : OnionRequestResult) (entry : OnionPathNode) (blob : bytes),
    (OnionBuilder.buildOnionRequest finalPayload onionPath destination w).1
    = Returned envelope
    /\ encryptedPayload envelope
       = u32_LE (length blob) ++ blob
           ++ utf8 (js "{" ++ quoted (js "ephemeral_key") ++ js ":"
                      ++ quoted (toHex eph_pub) ++ js ","
                      ++ quoted (js "enc_type") ++ js ":"
                      ++ quoted (js "aes-gcm") ++ js "}")
    /\ Forall hex_char (toHex eph_pub)
    /\ blob = Spec.seal (Spec.frame inner.1 (utf8 routing))
                (fromHex (x25519_pubkey entry)) eph_sk iv
    /\ ephemeralKey envelope = eph_pub
    /\ onionPath !! 0%nat = Some entry
    /\ entryNode envelope = Some entry.
Proof.
  intros HN Hsize Hok from eph_sk iv eph_pub inner routing.
  destruct onionPath as [|entry rest]; [cbn in HN; lia|].
  rewrite buildOnionRequest_run by assumption.
  unfold Spec.build. cbn [Spec.layers Spec.onion].
  cbn [tail length] in from, inner, routing.
  replace (consumed w + 32 + 44 * length rest)%nat with from
    by (subst from; lia).
  cbn [Spec.layer_hop Spec.layer_eph Spec.layer_iv nacl.publicKey
       nacl.secretKey Spec.keypair].
  fold eph_sk iv eph_pub inner.
  assert (Hplain : (let '(blob_prev, next_eph_pub) := inner in
                    (Spec.seal
                       (Spec.frame blob_prev
                          (utf8 match Spec.layers w (consumed w + 32) rest with
                                | [] => Spec.terminal_routing destination
                                | next :: _ =>
                                    Spec.intermediate_routing
                                      (ed25519_pubkey (Spec.layer_hop next))
                                      next_eph_pub
                                end))
                       (fromHex (x25519_pubkey entry)) eph_sk iv,
                     eph_pub))
                   = (Spec.seal (Spec.frame inner.1 (utf8 routing))
                        (fromHex (x25519_pubkey entry)) eph_sk iv, eph_pub)).
  { subst routing. destruct inner as [blob_prev next_eph_pub].
    destruct rest; reflexivity. }
  rewrite Hplain.
  eexists _, entry, (Spec.seal (Spec.frame inner.1 (utf8 routing))
                       (fromHex (x25519_pubkey entry)) eph_sk iv).
  split; [reflexivity|]. cbn [encryptedPayload ephemeralKey entryNode head].
  split; [reflexivity|]. split; [apply toHex_chars|].
  repeat split; reflexivity.
Qed.

(** C2. For a path of N hops the layers are made for [i = N-1] down to
    [0]: the returned envelope is the specification's [build], in which
    the blob of the hops [P[i..N)] seals
    [u32_LE(len(previous blob)) || previous blob || routing JSON], the
    routing of the last hop is [{host, port, protocol, target}] of the
    destination, that of any other hop is [{destination, ephemeral_key,
    enc_type}] naming hop [i+1] and the ephemeral key of the layer
    inside, and the innermost blob is [u32_LE(payload_len) || JSON of the
    payload || {"headers":{}}]. The random stream is read in that order:
    the layer of hop [i] takes its secret key and its IV at
    [32 + 44 * (N-1-i)], and [32 + 44 * N] octets are read in all. *)
Theorem buildOnionRequest_layers (finalPayload : JSON)
    (onionPath : list OnionPathNode) (destination : OnionDestination)
    (w : World) :
  (1 <= length onionPath)%nat ->
  Z.of_nat (length (utf8 (JSON_stringify finalPayload))) < 2 ^ 32 ->
  Forall x25519_key_ok onionPath ->
  OnionBuilder.buildOnionRequest finalPayload onionPath destination w
  = (Returned (Spec.build finalPayload onionPath destination w),
     set_consumed (consumed w + 32 + 44 * length onionPath) w)
  /\ (forall final_eph_pub,
        Spec.onion finalPayload destination final_eph_pub []
        = (u32_LE (length (utf8 (JSON_stringify finalPayload)))
             ++ utf8 (JSON_stringify finalPayload)
             ++ utf8 (js "{" ++ quoted (js "headers") ++ js ":{}}"),
           final_eph_pub))
  /\ (forall (i : nat) (node : OnionPathNode),
        onionPath !! i = Some node ->
        Spec.layers w (consumed w + 32) onionPath !! i
        = Some {| Spec.layer_hop := node;
                  Spec.layer_eph :=
                    Spec.keypair
                      (Spec.slice w
                         (consumed w + 32 + 44 * (length onionPath - 1 - i)) 32);
                  Spec.layer_iv :=
                    Spec.slice w
                      (consumed w + 32 + 44 * (length onionPath - 1 - i) + 32)
                      12 |}).
Proof.
  intros _ Hsize Hok. split; [apply buildOnionRequest_run; assumption|].
  split; [reflexivity|].
  generalize (consumed w + 32)%nat as start. intros start.
  induction onionPath as [|p rest IH]; intros i node Hi; [discriminate|].
  destruct i as [|i].
  - cbn in Hi. injection Hi as ->. cbn.
    rewrite Nat.sub_0_r, Nat.sub_0_r. reflexivity.
  - cbn in Hi. apply Forall_cons in Hok as [_ Hok].
    etransitivity; [exact (IH Hok i node Hi)|].
    pose proof (lookup_lt_Some _ _ _ Hi).
    cbn [length].
    replace (S (length rest) - 1 - S i)%nat with (length rest - 1 - i)%nat by lia.
    reflexivity.
Qed.

(** C7. Two runs of [buildOnionRequest] on the same payload, path and
    destination, whose random streams give the same next
    [32 + 44 * N] octets, end the same way: with byte-identical
    envelopes, or with the same exception; nothing else of the world is
    looked at. On well-formed input both return the envelope that wraps
    the layers made for the hops of the path, and the layers are made
    from the innermost to the outermost: read from the layer of the last
    hop to that of the first, their ephemeral secret keys and IVs are the
    random stream after the final key, 44 octets each, in the order it
    was given. *)
Theorem buildOnionRequest_deterministic (finalPayload : JSON)
    (onionPath : list OnionPathNode) (destination : OnionDestination)
    (w1 w2 : World) :
  agree (32 + 44 * length onionPath) w1 w2 ->
  (OnionBuilder.buildOnionRequest finalPayload onionPath destination w1).1
  = (OnionBuilder.buildOnionRequest finalPayload onionPath destination w2).1
  /\ (Z.of_nat (length (utf8 (JSON_stringify finalPayload))) < 2 ^ 32 ->
      Forall x25519_key_ok onionPath ->
      let made := Spec.layers w1 (consumed w1 + 32) onionPath in
      let outer :=
        Spec.onion finalPayload destination
          (crypto_scalarmult (Spec.slice w1 (consumed w1) 32) nacl.nine) made in
      exists envelope : OnionRequestResult,
        (OnionBuilder.buildOnionRequest finalPayload onionPath destination w1).1
        = Returned envelope
        /\ (OnionBuilder.buildOnionRequest finalPayload onionPath destination
              w2).1
           = Returned envelope
        /\ encryptedPayload envelope = Spec.wrapper outer.1 outer.2
        /\ Spec.layer_hop <$> made = onionPath
        /\ concat ((fun l => nacl.secretKey (Spec.layer_eph l) ++ Spec.layer_iv l)
                     <$> rev made)
           = Spec.slice w1 (consumed w1 + 32) (44 * length onionPath)).
Proof.
  intros Hag.
  pose proof (reads_buildOnionRequest finalPayload onionPath destination w1 w2
                Hag) as [Hsame _].
  split; [exact Hsame|].
  intros Hsize Hok made outer.
  rewrite <- Hsame, buildOnionRequest_run by assumption. cbn [fst].
  exists (Spec.build finalPayload onionPath destination w1).
  split; [reflexivity|]. split; [reflexivity|].
  split; [|split].
  - unfold Spec.build. cbn [Spec.keypair nacl.publicKey]. fold made outer.
    destruct outer as [blob eph]. reflexivity.
  - apply layers_hops.
  - apply layers_material.
Qed.

(** C10. A destination with an empty host or target is turned down by
    [sendOnionRequest] before anything is built (no randomness is read,
    no request is sent, the world is as it was), while
    [buildOnionRequest] itself accepts it: on any non-empty path it
    returns an envelope in which the plaintext made for the terminal hop
    ends in the routing JSON of the destination, with the empty string
    in the place of the empty field. *)
Theorem destination_checked_by_send_only (payload : JSON)
    (onionPath : list OnionPathNode) (destination : OnionDestination)
    (w : World) :
  host destination = [] \/ target destination = [] ->
  (1 <= length onionPath)%nat ->
  Z.of_nat (length (utf8 (JSON_stringify payload))) < 2 ^ 32 ->
  Forall x25519_key_ok onionPath ->
  OnionBuilder.sendOnionRequest payload (Some destination) w
  = (Threw CustomDestinationIncomplete, w)
  /\ (exists (envelope : OnionRequestResult) (blob : bytes),
        (OnionBuilder.buildOnionRequest payload onionPath destination w).1
        = Returned envelope
        /\ encryptedPayload envelope = Spec.wrapper blob (ephemeralKey envelope)
        /\ Spec.sealed_in
             (Spec.frame (Spec.innermost payload)
                (utf8 (js "{" ++ quoted (js "host") ++ js ":"
                         ++ QuoteJSONString (host destination) ++ js ","
                         ++ quoted (js "port") ++ js ":"
                         ++ JSON_number (port destination) ++ js ","
                         ++ quoted (js "protocol") ++ js ":"
                         ++ QuoteJSONString (protocol destination) ++ js ","
                         ++ quoted (js "target") ++ js ":"
                         ++ QuoteJSONString (target destination) ++ js "}")))
             blob)
  /\ (host destination = [] -> QuoteJSONString (host destination) = quoted [])
  /\ (target destination = [] -> QuoteJSONString (target destination) = quoted []).
Proof.
  intros Hempty HN Hsize Hok. split; [|split; [|split]].
  - unfold OnionBuilder.sendOnionRequest.
    destruct Hempty as [-> | ->]; cbn [truthy_string negb orb].
    + reflexivity.
    + rewrite !orb_true_r. reflexivity.
  - rewrite buildOnionRequest_run by assumption.
    unfold Spec.build.
    pose proof (terminal_sealed_in payload destination
                  (nacl.publicKey (Spec.keypair (Spec.slice w (consumed w) 32)))
                  (Spec.layers w (consumed w + 32) onionPath)) as Hin.
    destruct (Spec.onion payload destination _ _) as [blob eph].
    exists {| encryptedPayload := Spec.wrapper blob eph;
              entryNode := head onionPath; ephemeralKey := eph;
              finalEphemeralKeyPair :=
                Spec.keypair (Spec.slice w (consumed w) 32) |}, blob.
    split; [reflexivity|]. split; [reflexivity|].
    apply Hin. intros E. apply (f_equal length) in E.
    rewrite layers_length in E. cbn in E. lia.
  - intros ->. reflexivity.
  - intros ->. reflexivity.
Qed.
End build.

Lemma scenario_payload_size :
  Z.of_nat (length (utf8 (JSON_stringify Scenario.payload))) < 2 ^ 32.
Proof. vm_compute. reflexivity. Defined.

Lemma scenario_path_keys : Forall x25519_key_ok Scenario.path.
Proof. repeat (constructor; [vm_compute; reflexivity|]). constructor. Defined.

Lemma scenario_path_length : (1 <= length Scenario.path)%nat.
Proof. cbn. lia. Defined.

Lemma buildOnionRequest_envelope_witness :
  exists (envelope : OnionRequestResult) (entry : OnionPathNode) (blob : bytes),
    (@OnionBuilder.buildOnionRequest Reference.platform Scenario.payload
       Scenario.path Scenario.destination Scenario.world).1
    = Returned envelope
    /\ encryptedPayload envelope
       = u32_LE (length blob) ++ blob
           ++ utf8 (js "{" ++ quoted (js "ephemeral_key") ++ js ":"
                      ++ quoted (toHex (ephemeralKey envelope)) ++ js ","
                      ++ quoted (js "enc_type") ++ js ":"
                      ++ quoted (js "aes-gcm") ++ js "}")
    /\ ephemeralKey envelope
       = @crypto_scalarmult Reference.platform
           (Spec.slice Scenario.world 120 32) nacl.nine
    /\ Scenario.path !! 0%nat = Some entry
    /\ entryNode envelope = Some entry.
Proof.
  destruct (@buildOnionRequest_envelope Reference.platform Scenario.payload
              Scenario.path Scenario.destination Scenario.world
              scenario_path_length scenario_payload_size scenario_path_keys)
    as (envelope & entry & blob & Hbuild & Hbytes & _ & _ & Heph & Hfirst & Hentry).
  exists envelope, entry, blob.
  split; [exact Hbuild|]. split; [rewrite Heph; exact Hbytes|].
  split; [exact Heph|]. split; [exact Hfirst|exact Hentry].
Defined.

Lemma buildOnionRequest_layers_witness :
  @OnionBuilder.buildOnionRequest Reference.platform Scenario.payload
    Scenario.path Scenario.destination Scenario.world
  = (Returned (@Spec.build Reference.platform Scenario.payload Scenario.path
                 Scenario.destination Scenario.world),
     set_consumed 164 Scenario.world).
Proof.
  exact (proj1 (@buildOnionRequest_layers Reference.platform Scenario.payload
                  Scenario.path Scenario.destination Scenario.world
                  scenario_path_length scenario_payload_size scenario_path_keys)).
Defined.

Lemma scenario_worlds_agree :
  agree (32 + 44 * length Scenario.path) Scenario.world Scenario.other_world.
Proof.
  intros k _. cbn [Scenario.world Scenario.other_world entropy consumed].
  do 3 f_equal. lia.
Defined.

Lemma buildOnionRequest_deterministic_witness :
  exists envelope : OnionRequestResult,
    (@OnionBuilder.buildOnionRequest Reference.platform Scenario.payload
       Scenario.path Scenario.destination Scenario.world).1
    = Returned envelope
    /\ (@OnionBuilder.buildOnionRequest Reference.platform Scenario.payload
          Scenario.path Scenario.destination Scenario.other_world).1
       = Returned envelope.
Proof.
  destruct (@buildOnionRequest_deterministic Reference.platform Scenario.payload
              Scenario.path Scenario.destination Scenario.world
              Scenario.other_world scenario_worlds_agree) as [_ Hmade].
  destruct (Hmade scenario_payload_size scenario_path_keys)
    as (envelope & Hfirst & Hsecond & _).
  exists envelope. split; [exact Hfirst|exact Hsecond].
Defined.

Lemma destination_checked_by_send_only_witness :
  @OnionBuilder.sendOnionRequest Reference.platform Scenario.payload
    (Some Scenario.no_host) Scenario.world
  = (Threw CustomDestinationIncomplete, Scenario.world)
  /\ exists (envelope : OnionRequestResult),
       (@OnionBuilder.buildOnionRequest Reference.platform Scenario.payload
          Scenario.path Scenario.no_host Scenario.world).1
       = Returned envelope.
Proof.
  destruct (@destination_checked_by_send_only Reference.platform Scenario.payload
              Scenario.path Scenario.no_host Scenario.world
              (or_introl eq_refl) scenario_path_length scenario_payload_size
              scenario_path_keys)
    as (Hsend & (envelope & blob & Hbuild & _) & _).
  split; [exact Hsend|]. exists envelope. exact Hbuild.
Defined.

(** ** The claims about [HopEncryption] *)

Section hop_encryption.
Context `{Platform}.

(** C8. The constructor keeps the first 32 bytes of each key and checks
    no length: a longer key is cut, a shorter one is stored as it is.
    What is encrypted or decrypted afterwards depends on the secret key
    through its first 32 bytes only, and not on the public key given to
    the constructor. *)
Theorem constructor_truncates_keys (privateKey publicKey other_publicKey : bytes)
    (isServer other_isServer : bool) (data peer : bytes) (w : World) :
  let self := HopEncryption.new privateKey publicKey isServer in
  HopEncryption.privateKey self = take 32 privateKey
  /\ HopEncryption.publicKey self = take 32 publicKey
  /\ length (HopEncryption.privateKey self) = Nat.min 32 (length privateKey)
  /\ length (HopEncryption.publicKey self) = Nat.min 32 (length publicKey)
  /\ HopEncryption.privateKey self ++ drop 32 privateKey = privateKey
  /\ HopEncryption.publicKey self ++ drop 32 publicKey = publicKey
  /\ HopEncryption.encryptAESGCM self data peer w
     = HopEncryption.encryptAESGCM
         (HopEncryption.new (take 32 privateKey) other_publicKey other_isServer)
         data peer w
  /\ HopEncryption.decryptAESGCM self data peer
     = HopEncryption.decryptAESGCM
         (HopEncryption.new (take 32 privateKey) other_publicKey other_isServer)
         data peer.
Proof.
  cbn zeta. cbn [HopEncryption.new HopEncryption.privateKey HopEncryption.publicKey].
  repeat split.
  - apply length_take.
  - apply length_take.
  - apply take_drop.
  - apply take_drop.
  - unfold HopEncryption.encryptAESGCM.
    cbn [HopEncryption.new HopEncryption.privateKey].
    rewrite take_take, Nat.min_id. reflexivity.
  - unfold HopEncryption.decryptAESGCM.
    cbn [HopEncryption.new HopEncryption.privateKey].
    rewrite take_take, Nat.min_id. reflexivity.
Qed.

(** C5, as the code has it. [decrypt] runs AES-GCM for three values of
    [encType]: "aes-gcm", "gcm" and "xchacha20" (the last by an explicit
    fallback); any other value is rejected, whatever the ciphertext, with
    the error "Unsupported encryption type". *)
Theorem decrypt_enc_types (self : HopEncryption.t) (encType : jsstring)
    (ciphertext senderPubKey : bytes) :
  encType <> js "aes-gcm" -> encType <> js "gcm" -> encType <> js "xchacha20" ->
  HopEncryption.decrypt self encType ciphertext senderPubKey
  = Threw (UnsupportedEncryptionType encType)
  /\ HopEncryption.decrypt self (js "aes-gcm") ciphertext senderPubKey
     = HopEncryption.decryptAESGCM self ciphertext senderPubKey
  /\ HopEncryption.decrypt self (js "gcm") ciphertext senderPubKey
     = HopEncryption.decryptAESGCM self ciphertext senderPubKey
  /\ HopEncryption.decrypt self (js "xchacha20") ciphertext senderPubKey
     = HopEncryption.decryptAESGCM self ciphertext senderPubKey.
Proof.
  intros H1 H2 H3. unfold HopEncryption.decrypt. repeat split.
  rewrite !bool_decide_eq_false_2 by assumption. reflexivity.
Qed.
End hop_encryption.

(** C5 as the specification states it fails: the ciphertext Alice sealed
    for Bob is opened under the name "xchacha20". *)
Lemma decrypt_xchacha20_accepted :
  js "xchacha20" <> js "aes-gcm"
  /\ @HopEncryption.decrypt Reference.platform
       (HopEncryption.new Scenario.bob_sk Scenario.bob_pk true)
       (js "xchacha20") Scenario.sealed_greeting Scenario.alice_pk
     = Returned Scenario.greeting.
Proof. split; [discriminate | vm_compute; reflexivity]. Qed.

Lemma decrypt_enc_types_witness :
  @HopEncryption.decrypt Reference.platform
    (HopEncryption.new Scenario.bob_sk Scenario.bob_pk true)
    (js "chacha20-poly1305") Scenario.sealed_greeting Scenario.alice_pk
  = Threw (UnsupportedEncryptionType (js "chacha20-poly1305")).
Proof.
  refine (proj1 (@decrypt_enc_types Reference.platform _ _ _ _ _ _ _));
    discriminate.
Defined.

(** ** [Math.floor(Math.random() * n)] stays below [n] *)

Lemma round53_nonneg (p : Z) : 0 <= p -> 0 <= round53 p.
Proof.
  intros Hp. unfold round53. cbv zeta.
  destruct (Z.leb_spec (Z.log2 p - 52) 0); [assumption|].
  set (k := Z.log2 p - 52) in *.
  assert (0 < 2 ^ k) by (apply Z.pow_pos_nonneg; lia).
  assert (0 <= p / 2 ^ k) by (apply Z.div_pos; lia).
  assert (0 <= p / 2 ^ k * 2 ^ k) by (apply Z.mul_nonneg_nonneg; lia).
  assert (0 <= (p / 2 ^ k + 1) * 2 ^ k) by (apply Z.mul_nonneg_nonneg; lia).
  repeat destruct (_ <? _); try destruct (Z.even _); assumption.
Qed.

(** Rounding the product of a double below one and an array length cannot
    reach the array length. *)
Lemma round53_product_below (m e n : Z) :
  0 <= m < 2 ^ 53 -> 0 <= e -> m < 2 ^ e -> 0 < n < 2 ^ 53 ->
  round53 (m * n) < n * 2 ^ e.
Proof.
  intros Hm He Hme Hn.
  assert (Hlt : m * n < n * 2 ^ e).
  { rewrite (Z.mul_comm m n). apply Z.mul_lt_mono_pos_l; lia. }
  unfold round53. cbv zeta.
  destruct (Z.leb_spec (Z.log2 (m * n) - 52) 0) as [Hk|Hk]; [assumption|].
  set (k := Z.log2 (m * n) - 52) in *.
  assert (Hp : 0 < m * n).
  { destruct (Z.eq_dec (m * n) 0) as [E|E]; [|nia].
    subst k. rewrite E in Hk. cbn in Hk. lia. }
  destruct (Z.log2_spec (m * n) Hp) as [Hlo _].
  assert (Ek : Z.log2 (m * n) = (k - 1) + 53) by (subst k; lia).
  rewrite Ek in Hlo. rewrite Z.pow_add_r in Hlo by lia.
  clearbody k. clear Ek.
  generalize dependent (2 ^ 53). intros C Hm Hn Hlo.
  set (a := 2 ^ (k - 1)) in *.
  assert (Ha : 0 < a) by (apply Z.pow_pos_nonneg; lia).
  assert (EA : 2 ^ k = 2 * a).
  { replace k with (1 + (k - 1)) at 1 by lia. rewrite Z.pow_add_r by lia. reflexivity. }
  assert (Hek : k <= e).
  { destruct (Z.le_gt_cases k e) as [|Hgt]; [assumption|exfalso].
    assert (2 ^ e <= a) by (apply Z.pow_le_mono_r; lia).
    assert (m * n <= m * C) by (apply Z.mul_le_mono_nonneg_l; lia).
    assert (m * C < a * C) by (apply Z.mul_lt_mono_pos_r; lia).
    lia. }
  assert (EE : 2 ^ e = 2 ^ (e - k) * (2 * a)).
  { rewrite <- EA, <- Z.pow_add_r by lia. f_equal. lia. }
  set (b := 2 ^ (e - k)) in *.
  assert (Hb : 0 < b) by (apply Z.pow_pos_nonneg; lia).
  assert (Hna : a < n).
  { destruct (Z.lt_ge_cases a n) as [|Hge]; [assumption|exfalso].
    assert (m * n <= m * a) by (apply Z.mul_le_mono_nonneg_l; lia).
    assert (m * a < C * a) by (apply Z.mul_lt_mono_pos_r; lia).
    lia. }
  rewrite EA. rewrite EE in Hme, Hlt |- *. clearbody a b.
  pose proof (Z.div_mod (m * n) (2 * a) ltac:(lia)) as Hdm.
  pose proof (Z.mod_pos_bound (m * n) (2 * a) ltac:(lia)) as Hr.
  set (q := m * n / (2 * a)) in *. set (r := (m * n) mod (2 * a)) in *.
  clearbody q r.
  assert (Hup : m * n <= (b * (2 * a) - 1) * n)
    by (apply Z.mul_le_mono_nonneg_r; lia).
  assert (Hdown : q * (2 * a) < n * (b * (2 * a))) by lia.
  assert (Hround : a <= r -> (q + 1) * (2 * a) < n * (b * (2 * a))) by lia.
  destruct (Z.ltb_spec r a); [assumption|].
  destruct (Z.ltb_spec a r); [apply Hround; lia|].
  destruct (Z.even q); [assumption | apply Hround; lia].
Qed.

Lemma Math_floor_times_range (r : Sample) (n : nat) :
  unit_interval r -> (0 < n)%nat -> Z.of_nat n < 2 ^ 53 ->
  0 <= Math_floor_times r n < Z.of_nat n.
Proof.
  intros (Hm & He & Hme) Hn Hbig. unfold Math_floor_times.
  assert (0 < 2 ^ exponent r) by (apply Z.pow_pos_nonneg; lia).
  split.
  - apply Z.div_pos; [|assumption]. apply round53_nonneg. nia.
  - apply Z.div_lt_upper_bound; [assumption|].
    rewrite (Z.mul_comm (2 ^ exponent r)). apply round53_product_below; lia.
Qed.

Lemma unit_intervalb_spec (r : Sample) : unit_intervalb r = true <-> unit_interval r.
Proof.
  unfold unit_intervalb, unit_interval.
  rewrite !andb_true_iff, !Z.leb_le, !Z.ltb_lt. tauto.
Qed.

(** ** Path selection *)

Lemma active_spec (node : ServiceNode) :
  OnionBuilder.active node = true
  <-> pubkey_ed25519 node <> [] /\ pubkey_x25519 node <> [] /\ public_ip node <> []
      /\ storage_port node <> 0.
Proof.
  unfold OnionBuilder.active, truthy_string, truthy_number.
  rewrite !andb_true_iff, negb_true_iff, Z.eqb_neq.
  destruct (pubkey_ed25519 node), (pubkey_x25519 node), (public_ip node);
    intuition congruence.
Qed.

Section selection.
Variable activeNodes : list ServiceNode.
Variable pathLength : Z.

(** The loop entered with the distinct indices [idxs] chosen so far. It
    never throws; it returns the entries at distinct indices, each chosen
    before or drawn from [pending]; it starves only when [pending] holds
    too few distinct indices. *)
Lemma select_spec (pending : list Sample) :
  forall idxs : list Z,
    NoDup idxs ->
    match OnionBuilder.select activeNodes pathLength pending
            (at_index activeNodes <$> idxs) (list_to_set idxs) with
    | (Returned selectedNodes, rest) =>
        exists idxs' : list Z,
          selectedNodes = at_index activeNodes <$> idxs' /\ NoDup idxs'
          /\ (forall i, i ∈ idxs' -> i ∈ idxs \/ i ∈ drawn activeNodes <$> pending)
          /\ Z.of_nat (length idxs') = Z.max pathLength (Z.of_nat (length idxs))
          /\ exists used, pending = used ++ rest
    | (Threw _, _) => False
    | (Starved, _) =>
        Z.of_nat (size (list_to_set (idxs ++ (drawn activeNodes <$> pending)) : gset Z))
        < pathLength
    end.
Proof.
  induction pending as [|r pending IH]; intros idxs Hnd;
    cbn [OnionBuilder.select]; rewrite length_fmap.
  - destruct (Z.ltb_spec (Z.of_nat (length idxs)) pathLength) as [Hlt|Hge].
    + cbn [fmap list_fmap]. rewrite app_nil_r, size_list_to_set by assumption.
      exact Hlt.
    + exists idxs. repeat split; [assumption|auto|lia|]. exists []. reflexivity.
  - destruct (Z.ltb_spec (Z.of_nat (length idxs)) pathLength) as [Hlt|Hge].
    + change (Math_floor_times r (length activeNodes)) with (drawn activeNodes r).
      change (activeNodes !! Z.to_nat (drawn activeNodes r)) with (at_index activeNodes (drawn activeNodes r)).
      case_bool_decide as Hin.
      * specialize (IH idxs Hnd).
        destruct (OnionBuilder.select _ _ _ _ _) as [[sel|e|] rest].
        -- destruct IH as (idxs' & Hsel & Hnd' & Hfrom & Hlen & used & Hused).
           exists idxs'. repeat split; [assumption..| | |].
           ++ intros i Hi. destruct (Hfrom i Hi); [auto|].
              right. rewrite fmap_cons. set_solver.
           ++ exact Hlen.
           ++ exists (r :: used). rewrite Hused. reflexivity.
        -- exact IH.
        -- replace (list_to_set (idxs ++ (drawn activeNodes <$> r :: pending)) : gset Z)
             with (list_to_set (idxs ++ (drawn activeNodes <$> pending)) : gset Z);
             [exact IH|].
           rewrite fmap_cons, !list_to_set_app_L, list_to_set_cons. set_solver.
      * assert (Hfresh : drawn activeNodes r ∉ idxs) by set_solver.
        assert (Hnd' : NoDup (idxs ++ [drawn activeNodes r])).
        { apply NoDup_app. repeat split; [assumption| |apply NoDup_singleton].
          intros i Hi Hi'. apply list_elem_of_singleton in Hi'. subst. auto. }
        specialize (IH (idxs ++ [drawn activeNodes r]) Hnd').
        rewrite fmap_app in IH. cbn [fmap list_fmap] in IH.
        replace (list_to_set (idxs ++ [drawn activeNodes r]) : gset Z)
          with ({[drawn activeNodes r]} ∪ list_to_set idxs : gset Z) in IH
          by (rewrite list_to_set_app_L; set_solver).
        destruct (OnionBuilder.select _ _ _ _ _) as [[sel|e|] rest].
        -- destruct IH as (idxs' & Hsel & Hnd'' & Hfrom & Hlen & used & Hused).
           exists idxs'. repeat split; [assumption..| | |].
           ++ intros i Hi. rewrite fmap_cons.
              destruct (Hfrom i Hi) as [Hi'|Hi']; set_solver.
           ++ rewrite Hlen, length_app. cbn. lia.
           ++ exists (r :: used). rewrite Hused. reflexivity.
        -- exact IH.
        -- replace (list_to_set (idxs ++ (drawn activeNodes <$> r :: pending)) : gset Z)
             with (list_to_set ((idxs ++ [drawn activeNodes r]) ++ (drawn activeNodes <$> pending))
                   : gset Z); [exact IH|].
           rewrite fmap_cons, !list_to_set_app_L, list_to_set_cons. set_solver.
    + exists idxs. repeat split; [assumption|auto|lia|]. exists []. reflexivity.
Qed.

(** Entries read inside the array are defined, and the path is made of
    them. *)
Lemma map_to_path_in_range (idxs : list Z) :
  Forall (fun i => 0 <= i < Z.of_nat (length activeNodes)) idxs ->
  exists path : list OnionPathNode,
    OnionBuilder.map_to_path (at_index activeNodes <$> idxs) = Returned path
    /\ Forall2 (fun i hop =>
                  exists node, activeNodes !! Z.to_nat i = Some node
                               /\ hop = OnionBuilder.to_path_node node)
               idxs path.
Proof.
  induction 1 as [|i idxs Hi _ (path & Hpath & Hall)].
  - exists []. split; [reflexivity|constructor].
  - destruct (lookup_lt_is_Some_2 activeNodes (Z.to_nat i) ltac:(lia))
      as [node Hnode].
    exists (OnionBuilder.to_path_node node :: path). split.
    + rewrite fmap_cons. cbn [OnionBuilder.map_to_path].
      change (at_index activeNodes i) with (activeNodes !! Z.to_nat i).
      rewrite Hnode. cbn [defined mbind Outcome_bind]. rewrite Hpath. reflexivity.
    + constructor; [eauto|assumption].
Qed.
End selection.

Lemma set_samples_same (w : World) : set_samples (samples w) w = w.
Proof. destruct w. reflexivity. Qed.

(** With too few active nodes the caller gets the generic error, and the
    world is untouched. *)
Lemma buildOnionPath_too_few (pathLength : Z) (w : World) :
  Z.of_nat (length (List.filter OnionBuilder.active (serviceNodes (this w))))
  < pathLength ->
  OnionBuilder.buildOnionPath pathLength w = (Threw UnableToBuildOnionPath, w).
Proof.
  intros Hlt. unfold OnionBuilder.buildOnionPath, try_catch.
  unfold OnionBuilder.getServiceNodes, read, mbind, Js_bind.
  destruct (Z.ltb_spec
              (Z.of_nat (length (List.filter OnionBuilder.active
                                   (serviceNodes (this w))))) pathLength);
    [reflexivity | lia].
Qed.

(** With enough of them, the method is the loop followed by the map. *)
Lemma buildOnionPath_enough (pathLength : Z) (w : World) :
  pathLength
  <= Z.of_nat (length (List.filter OnionBuilder.active (serviceNodes (this w)))) ->
  (OnionBuilder.buildOnionPath pathLength w).1
  = match (OnionBuilder.select
             (List.filter OnionBuilder.active (serviceNodes (this w)))
             pathLength (samples w) [] ∅).1 with
    | Returned selectedNodes =>
        match OnionBuilder.map_to_path selectedNodes with
        | Returned path => Returned path
        | Threw _ => Threw UnableToBuildOnionPath
        | Starved => Starved
        end
    | Threw _ => Threw UnableToBuildOnionPath
    | Starved => Starved
    end.
Proof.
  intros Hge. unfold OnionBuilder.buildOnionPath, try_catch.
  unfold OnionBuilder.getServiceNodes, read, mbind, Js_bind.
  destruct (Z.ltb_spec
              (Z.of_nat (length (List.filter OnionBuilder.active
                                   (serviceNodes (this w))))) pathLength);
    [lia|].
  unfold OnionBuilder.select_nodes.
  destruct (OnionBuilder.select _ _ _ _ _) as [[sel|e|] rest]; cbn; try reflexivity.
  unfold pure. destruct (OnionBuilder.map_to_path sel); reflexivity.
Qed.

(** C4, as the code has it. The candidates are filtered to those with a
    non-empty ed25519 key, x25519 key and address and a non-zero storage
    port. With fewer than N of them the method fails with the generic error
    "Unable to build onion path" (the counts are logged, not given to the
    caller). Otherwise it does not throw: when it returns, the path has
    exactly N hops, read at pairwise distinct positions of the filtered
    list, and it returns as soon as the samples of [Math.random] give N
    distinct positions. *)
Theorem buildOnionPath_selects (pathLength : Z) (w : World) :
  let activeNodes := List.filter OnionBuilder.active (serviceNodes (this w)) in
  1 <= pathLength ->
  Forall unit_interval (samples w) ->
  Z.of_nat (length activeNodes) < 2 ^ 53 ->
  (forall node,
     node ∈ activeNodes
     <-> node ∈ serviceNodes (this w)
         /\ pubkey_ed25519 node <> [] /\ pubkey_x25519 node <> []
         /\ public_ip node <> [] /\ storage_port node <> 0)
  /\ (Z.of_nat (length activeNodes) < pathLength ->
      OnionBuilder.buildOnionPath pathLength w = (Threw UnableToBuildOnionPath, w))
  /\ (pathLength <= Z.of_nat (length activeNodes) ->
      match (OnionBuilder.buildOnionPath pathLength w).1 with
      | Returned path =>
          exists positions : list nat,
            NoDup positions
            /\ Z.of_nat (length positions) = pathLength
            /\ Forall2 (fun i hop =>
                          exists node, activeNodes !! i = Some node
                                       /\ hop = OnionBuilder.to_path_node node)
                       positions path
      | Threw _ => False
      | Starved =>
          Z.of_nat (size (list_to_set (drawn activeNodes <$> samples w) : gset Z))
          < pathLength
      end).
Proof.
  intros activeNodes HN Hunit Hbig. split; [|split].
  - intros node. subst activeNodes.
    rewrite list_elem_of_In, filter_In, <- list_elem_of_In, active_spec. tauto.
  - apply buildOnionPath_too_few.
  - intros Hge. rewrite buildOnionPath_enough by assumption. fold activeNodes.
    pose proof (select_spec activeNodes pathLength (samples w) [] (NoDup_nil_2))
      as Hsel.
    change (at_index activeNodes <$> []) with (@nil (option ServiceNode)) in Hsel.
    change (list_to_set [] : gset Z) with (∅ : gset Z) in Hsel.
    destruct (OnionBuilder.select activeNodes pathLength (samples w) [] ∅)
      as [[sel|e|] rest]; cbn [fst]; [| contradiction | exact Hsel].
    destruct Hsel as (idxs & -> & Hnd & Hfrom & Hlen & _).
    assert (Hrange : Forall (fun i => 0 <= i < Z.of_nat (length activeNodes)) idxs).
    { apply Forall_forall. intros i Hi.
      destruct (Hfrom i Hi) as [Hi'|Hi']; [inversion Hi'|].
      apply list_elem_of_fmap in Hi' as (r & -> & Hr).
      apply Math_floor_times_range; [|lia|assumption].
      eapply Forall_forall; eassumption. }
    destruct (map_to_path_in_range activeNodes idxs Hrange) as (path & -> & Hall).
    exists (Z.to_nat <$> idxs). repeat split.
    + apply NoDup_fmap_2_strong; [|assumption].
      intros i j Hi Hj E.
      pose proof (proj1 (Forall_forall _ _) Hrange i Hi) as Hi'.
      pose proof (proj1 (Forall_forall _ _) Hrange j Hj) as Hj'.
      cbv beta in Hi', Hj'. lia.
    + rewrite length_fmap. cbn in Hlen. lia.
    + apply Forall2_fmap_l. exact Hall.
Qed.

(** C6, as the code has it. Asked for a path of length 0, [buildOnionPath]
    returns the empty path, whatever the candidates, and leaves the world
    as it was. *)
Theorem buildOnionPath_zero (w : World) :
  OnionBuilder.buildOnionPath 0 w = (Returned [], w).
Proof.
  unfold OnionBuilder.buildOnionPath, try_catch.
  unfold OnionBuilder.getServiceNodes, read, mbind, Js_bind.
  destruct (Z.ltb_spec
              (Z.of_nat (length (List.filter OnionBuilder.active
                                   (serviceNodes (this w))))) 0); [lia|].
  unfold OnionBuilder.select_nodes.
  assert (E : OnionBuilder.select
                (List.filter OnionBuilder.active (serviceNodes (this w))) 0
                (samples w) [] ∅ = (Returned [], samples w)).
  { destruct (samples w); reflexivity. }
  rewrite E, set_samples_same. reflexivity.
Qed.

(** C6 as the specification states it fails: on five candidates a path of
    length 0 is returned, not refused. *)
Lemma buildOnionPath_zero_not_rejected :
  (OnionBuilder.buildOnionPath 0 Scenario.world).1 = Returned []
  /\ forall e, (OnionBuilder.buildOnionPath 0 Scenario.world).1 <> Threw e.
Proof. split; [reflexivity|]. intros e. discriminate. Qed.

(** C4 as the specification states it fails, twice. With two usable
    candidates and a path of three, the error the caller gets is the
    generic one and carries neither count. With the same node listed twice
    among the candidates, the path of two holds it twice. *)
Lemma buildOnionPath_cause_lost_and_node_twice :
  length (List.filter OnionBuilder.active (serviceNodes (this Scenario.two_nodes)))
  = 2%nat
  /\ (OnionBuilder.buildOnionPath 3 Scenario.two_nodes).1
     = Threw UnableToBuildOnionPath
  /\ message UnableToBuildOnionPath = js "Unable to build onion path"
  /\ Threw (A := list OnionPathNode) UnableToBuildOnionPath
     <> Threw (NotEnoughActiveNodes 3 2)
  /\ (OnionBuilder.buildOnionPath 2 Scenario.same_node_twice).1
     = Returned [OnionBuilder.to_path_node Scenario.node_a;
                 OnionBuilder.to_path_node Scenario.node_a].
Proof.
  split; [reflexivity|]. split; [reflexivity|]. split; [reflexivity|].
  split; [discriminate|]. vm_compute. reflexivity.
Qed.

Lemma scenario_samples_unit : Forall unit_interval (samples Scenario.world).
Proof.
  apply Forall_forall. intros r Hr. apply unit_intervalb_spec.
  revert r Hr. apply Forall_forall.
  repeat (constructor; [vm_compute; reflexivity|]). constructor.
Defined.

Lemma buildOnionPath_selects_witness :
  exists path : list OnionPathNode,
    (OnionBuilder.buildOnionPath 3 Scenario.world).1 = Returned path
    /\ length path = 3%nat.
Proof.
  pose proof (buildOnionPath_selects 3 Scenario.world ltac:(lia)
                scenario_samples_unit ltac:(vm_compute; reflexivity)) as (_ & _ & H).
  specialize (H ltac:(vm_compute; discriminate)).
  destruct (OnionBuilder.buildOnionPath 3 Scenario.world).1 as [path|e|] eqn:E;
    [|contradiction|].
  - exists path. split; [reflexivity|].
    destruct H as (positions & _ & Hlen & Hall).
    apply Forall2_length in Hall. lia.
  - exfalso. revert H. vm_compute. discriminate.
Defined.

(** ** Fetching and updating the service nodes *)

Lemma set_requests_same (w : World) (n : nat) : requests w = n -> set_requests n w = w.
Proof. intros <-. destruct w. reflexivity. Qed.

Lemma post_seed_sends (seedNodeUrl : jsstring) (limit : Z) :
  sends_at_most 1 (OnionBuilder.post_seed seedNodeUrl limit).
Proof.
  intros w. exists 1%nat. split; [lia|]. unfold OnionBuilder.post_seed.
  rewrite Nat.add_1_r. destruct (seed_reply w _ _ _); reflexivity.
Qed.

Lemma try_seed_nodes_sends (limit : Z) (seeds : list jsstring) :
  sends_at_most (length seeds) (OnionBuilder.try_seed_nodes limit seeds).
Proof.
  induction seeds as [|url rest IH]; intros w.
  - exists 0%nat. split; [lia|]. cbn. rewrite set_requests_same by lia. reflexivity.
  - cbn [OnionBuilder.try_seed_nodes length].
    unfold mbind, Js_bind, try_catch.
    destruct (post_seed_sends url limit w) as (d & Hd & Hw).
    destruct (OnionBuilder.post_seed url limit w) as [[states|e|] w1];
      cbn [snd] in Hw; subst w1.
    + destruct states as [states|]; cbn.
      * exists d. split; [lia|reflexivity].
      * destruct (IH (set_requests (requests w + d) w)) as (d' & Hd' & Hw').
        exists (d + d')%nat. split; [lia|]. rewrite Hw'. cbn.
        rewrite Nat.add_assoc. reflexivity.
    + cbn.
      destruct (IH (set_requests (requests w + d) w)) as (d' & Hd' & Hw').
      exists (d + d')%nat. split; [lia|]. rewrite Hw'. cbn.
      rewrite Nat.add_assoc. reflexivity.
    + exists d. split; [lia|reflexivity].
Qed.

Lemma fetch_rounds_sends (limit : Z) (attempts : nat) :
  sends_at_most (3 * attempts) (OnionBuilder.fetch_rounds limit attempts).
Proof.
  induction attempts as [|attempts IH]; intros w.
  - exists 0%nat. split; [lia|]. cbn. rewrite set_requests_same by lia. reflexivity.
  - cbn [OnionBuilder.fetch_rounds]. unfold mbind, Js_bind.
    destruct (try_seed_nodes_sends limit OXEN_SEED_NODES w) as (d & Hd & Hw).
    cbn [length OXEN_SEED_NODES] in Hd.
    destruct (OnionBuilder.try_seed_nodes limit OXEN_SEED_NODES w)
      as [[found|e|] w1]; cbn [snd] in Hw; subst w1.
    + destruct found as [nodes|].
      * exists d. split; [lia|reflexivity].
      * destruct (IH (set_requests (requests w + d) w)) as (d' & Hd' & Hw').
        exists (d + d')%nat. split; [lia|]. rewrite Hw'. cbn.
        rewrite Nat.add_assoc. reflexivity.
    + exists d. split; [lia|reflexivity].
    + exists d. split; [lia|reflexivity].
Qed.

(** The loops of [fetchServiceNodes] do not depend on [Math.random]. *)
Lemma try_seed_nodes_not_starved (limit : Z) (seeds : list jsstring) (w : World) :
  (OnionBuilder.try_seed_nodes limit seeds w).1 <> Starved
  /\ forall e, (OnionBuilder.try_seed_nodes limit seeds w).1 <> Threw e.
Proof.
  revert w. induction seeds as [|url rest IH]; intros w; [split; [|intros e]; discriminate|].
  cbn [OnionBuilder.try_seed_nodes]. unfold mbind, Js_bind, try_catch.
  unfold OnionBuilder.post_seed.
  destruct (seed_reply w (requests w) url limit) as [m|[states|]]; cbn;
    try apply IH.
  split; [|intros e]; discriminate.
Qed.

Lemma fetch_rounds_outcome (limit : Z) (attempts : nat) (w : World) :
  (OnionBuilder.fetch_rounds limit attempts w).1 <> Starved
  /\ forall e, (OnionBuilder.fetch_rounds limit attempts w).1 = Threw e ->
               e = SeedNodesExhausted.
Proof.
  revert w. induction attempts as [|attempts IH]; intros w.
  - split; [discriminate|]. intros e E. cbn in E. congruence.
  - cbn [OnionBuilder.fetch_rounds]. unfold mbind, Js_bind.
    destruct (try_seed_nodes_not_starved limit OXEN_SEED_NODES w) as [Hs Ht].
    destruct (OnionBuilder.try_seed_nodes limit OXEN_SEED_NODES w)
      as [[found|e|] w1]; cbn [fst] in Hs, Ht.
    + destruct found as [nodes|]; [|apply IH].
      split; [discriminate|]. intros e E. discriminate.
    + exfalso. exact (Ht e eq_refl).
    + contradiction.
Qed.

(** C9. [updateServiceNodes] ends as [fetchServiceNodes] does. When the
    fetch throws, the same error is thrown again and the stored list is the
    one before the call; when it returns, the stored list is the fetched
    one, whole. In both cases nothing else changes but the count of
    requests sent (15 at most), and the path length is kept. *)
Theorem updateServiceNodes_atomic (limit : Z) (w : World) :
  match OnionBuilder.fetchServiceNodes limit w with
  | (Returned realServiceNodes, w') =>
      OnionBuilder.updateServiceNodes limit w
      = (Returned tt,
         set_this {| serviceNodes := realServiceNodes;
                     onionPathLength := onionPathLength (this w) |} w')
  | (Threw error, w') =>
      OnionBuilder.updateServiceNodes limit w = (Threw error, w')
      /\ error = SeedNodesExhausted
      /\ serviceNodes (this (OnionBuilder.updateServiceNodes limit w).2)
         = serviceNodes (this w)
  | (Starved, _) => False
  end
  /\ onionPathLength (this (OnionBuilder.updateServiceNodes limit w).2)
     = onionPathLength (this w)
  /\ exists sent : nat,
       (sent <= 15)%nat
       /\ (OnionBuilder.fetchServiceNodes limit w).2
          = set_requests (requests w + sent) w.
Proof.
  unfold OnionBuilder.updateServiceNodes, OnionBuilder.fetchServiceNodes.
  unfold try_catch, mbind, Js_bind, write, throw.
  destruct (fetch_rounds_sends limit 5 w) as (sent & Hsent & Hw).
  destruct (fetch_rounds_outcome limit 5 w) as [Hs He].
  destruct (OnionBuilder.fetch_rounds limit 5 w) as [[nodes|e|] w1];
    cbn [fst snd] in *; subst w1.
  - split; [reflexivity|]. split; [reflexivity|]. exists sent. split; [lia|reflexivity].
  - split; [|split; [reflexivity|exists sent; split; [lia|reflexivity]]].
    split; [reflexivity|]. split; [apply He; reflexivity|reflexivity].
  - contradiction.
Qed.

(** In a world where every seed node fails, the update fails after fifteen
    requests and keeps the five nodes it had; in one where the fifth
    request is answered, the two nodes of the answer replace them. *)
Example updateServiceNodes_offline :
  (OnionBuilder.updateServiceNodes 3 Scenario.offline).1 = Threw SeedNodesExhausted
  /\ requests (OnionBuilder.updateServiceNodes 3 Scenario.offline).2 = 15%nat
  /\ serviceNodes (this (OnionBuilder.updateServiceNodes 3 Scenario.offline).2)
     = serviceNodes (this Scenario.offline).
Proof. vm_compute. auto. Qed.

Example updateServiceNodes_fifth_answer :
  (OnionBuilder.updateServiceNodes 3 Scenario.world).1 = Returned tt
  /\ requests (OnionBuilder.updateServiceNodes 3 Scenario.world).2 = 5%nat
  /\ serviceNodes (this (OnionBuilder.updateServiceNodes 3 Scenario.world).2)
     = OnionBuilder.project <$> [Scenario.state "10.0.0.8"; Scenario.state "10.0.0.9"].
Proof. vm_compute. auto. Qed.

(** * Further properties of the code *)

(** ** [CryptoUtils] *)

(** X1. [fromHex] undoes [toHex]: the hex form of a buffer has two
    lowercase hex digits per byte and decodes to the buffer. *)
Theorem hex_round_trip (buffer : bytes) :
  fromHex (toHex buffer) = buffer
  /\ length (toHex buffer) = (2 * length buffer)%nat
  /\ Forall hex_char (toHex buffer).
Proof.
  split; [apply fromHex_toHex|]. split; [apply toHex_length | apply toHex_chars].
Qed.

(** ** Sizes and typed arrays in [buildOnionRequest] *)

(** X2. The three [set] calls that fill a layer (and the outer wrapper)
    never throw and leave [[size][blob][routing]] with nothing between the
    parts: the array is the concatenation, of the summed length. *)
Theorem layer_is_concatenation (blobSizeBuffer blob routingBuffer : bytes) :
  OnionBuilder.frame blobSizeBuffer blob routingBuffer
  = Returned (blobSizeBuffer ++ blob ++ routingBuffer)
  /\ length (blobSizeBuffer ++ blob ++ routingBuffer)
     = (length blobSizeBuffer + length blob + length routingBuffer)%nat.
Proof.
  split; [apply (@frame_concat Reference.platform) | rewrite !length_app; lia].
Qed.

(** X3. The two ways the code writes a size agree below 2^32: both leave
    the four little-endian octets of the length, which read back as the
    length. From 2^32 on they part: [encodeSize] (the innermost frame)
    throws a [RangeError], the [DataView] store (every other layer) wraps
    around. *)
Theorem size_prefixes (n : nat) (rest : bytes) :
  DataView_setUint32_le (Z.of_nat n) = u32_LE n
  /\ read_u32_LE (u32_LE n ++ rest) = Some (Z.of_nat n mod 2 ^ 32)
  /\ encodeSize (Z.of_nat n)
     = (if Z.of_nat n <? 2 ^ 32 then Returned (u32_LE n) else Threw RangeError)
  /\ DataView_setUint32_le (Z.of_nat n + 2 ^ 32) = DataView_setUint32_le (Z.of_nat n).
Proof.
  split; [apply DataView_setUint32_le_u32_LE|].
  split; [apply read_u32_LE_u32_LE|]. split.
  - destruct (Z.ltb_spec (Z.of_nat n) (2 ^ 32)).
    + apply encodeSize_u32_LE; assumption.
    + apply encodeSize_out_of_range; assumption.
  - unfold DataView_setUint32_le. f_equal.
    rewrite <- (Z.mul_1_l (2 ^ 32)) at 1. apply Z.mod_add. lia.
Qed.

(** ** [HopEncryption] *)

Section hop_encryption_more.
Context `{Platform}.

(** X4. [encrypt] runs AES-GCM for "aes-gcm" and "gcm" only. Any other
    [encType] is rejected before anything is done: the error carries the
    name, no randomness is read. That holds for "xchacha20" as well,
    which [decrypt] accepts: what is named so can be opened but not
    sealed. *)
Theorem encrypt_enc_types (self : HopEncryption.t) (encType : jsstring)
    (data peer : bytes) (w : World) :
  encType <> js "aes-gcm" -> encType <> js "gcm" ->
  HopEncryption.encrypt self encType data peer w
  = (Threw (UnsupportedEncryptionType encType), w)
  /\ HopEncryption.encrypt self (js "aes-gcm") data peer w
     = HopEncryption.encryptAESGCM self data peer w
  /\ HopEncryption.encrypt self (js "gcm") data peer w
     = HopEncryption.encryptAESGCM self data peer w
  /\ HopEncryption.encrypt self (js "xchacha20") data peer w
     = (Threw (UnsupportedEncryptionType (js "xchacha20")), w)
  /\ HopEncryption.decrypt self (js "xchacha20") data peer
     = HopEncryption.decryptAESGCM self data peer.
Proof.
  intros H1 H2. unfold HopEncryption.encrypt, HopEncryption.decrypt.
  rewrite !bool_decide_eq_false_2 by assumption. repeat split.
Qed.

(** X5. A ciphertext shorter than 28 bytes (a 12-byte IV and a 16-byte
    tag) is refused by [decryptAESGCM] with "Ciphertext too short for
    AES-GCM" before any key is derived, so whatever the keys are; from 28
    bytes on, with keys of 32 bytes, the outcome is that of the AES-GCM
    opening of the bytes after the IV under the derived key. *)
Theorem decryptAESGCM_length_check (self : HopEncryption.t)
    (ciphertext senderPubKey : bytes) :
  (length ciphertext < 28)%nat ->
  HopEncryption.decryptAESGCM self ciphertext senderPubKey = Threw CiphertextTooShort
  /\ message CiphertextTooShort = js "Ciphertext too short for AES-GCM"
  /\ forall long : bytes,
       (28 <= length long)%nat ->
       length (HopEncryption.privateKey self) = 32%nat ->
       length senderPubKey = 32%nat ->
       HopEncryption.decryptAESGCM self long senderPubKey
       = match AES_GCM_decrypt
                 (Spec.derive (HopEncryption.privateKey self) senderPubKey)
                 (take 12 long) (drop 12 long) with
         | Some plain => Returned plain
         | None => Threw OperationError
         end.
Proof.
  intros Hshort. unfold HopEncryption.decryptAESGCM. split; [|split].
  - destruct (Nat.ltb_spec (length ciphertext) (12 + 16)); [reflexivity|lia].
  - reflexivity.
  - intros long Hlong Hsk Hpk.
    destruct (Nat.ltb_spec (length long) (12 + 16)); [lia|].
    rewrite deriveSymmetricKey_run by assumption.
    cbn [mbind Outcome_bind]. rewrite importKey_derived. reflexivity.
Qed.

(** X6. What one party seals, the other opens. Let Alice and Bob hold
    keypairs on which X25519 agrees, and let AES-GCM open what it seals
    under their key with the IV the world gives (two properties of the
    primitives, hypotheses here). Then [encryptAESGCM] by Alice for Bob
    returns a ciphertext of at least 28 bytes that begins with the IV,
    and [decryptAESGCM] by Bob gives the plaintext back. *)
Theorem open_what_was_sealed (a_sk b_sk plaintext : bytes) (w : World) :
  length a_sk = 32%nat -> length b_sk = 32%nat ->
  let a_pk := nacl.publicKey (Spec.keypair a_sk) in
  let b_pk := nacl.publicKey (Spec.keypair b_sk) in
  let iv := Spec.slice w (consumed w) 12 in
  crypto_scalarmult a_sk b_pk = crypto_scalarmult b_sk a_pk ->
  AES_GCM_decrypt (Spec.derive a_sk b_pk) iv
    (AES_GCM_encrypt (Spec.derive a_sk b_pk) iv plaintext) = Some plaintext ->
  (16 <= length (AES_GCM_encrypt (Spec.derive a_sk b_pk) iv plaintext))%nat ->
  exists ciphertext : bytes,
    (HopEncryption.encryptAESGCM (HopEncryption.new a_sk a_pk false)
       plaintext b_pk w).1 = Returned ciphertext
    /\ take 12 ciphertext = iv
    /\ (28 <= length ciphertext)%nat
    /\ HopEncryption.decryptAESGCM (HopEncryption.new b_sk b_pk true)
         ciphertext a_pk = Returned plaintext.
Proof.
  intros Ha Hb a_pk b_pk iv Hdh Hopen Htag.
  assert (Hapk : length a_pk = 32%nat) by apply crypto_scalarmult_length.
  assert (Hbpk : length b_pk = 32%nat) by apply crypto_scalarmult_length.
  assert (Hiv : length iv = 12%nat) by apply slice_length.
  rewrite encryptAESGCM_run; cycle 1.
  { cbn [HopEncryption.new HopEncryption.privateKey].
    rewrite take_ge by lia. assumption. }
  { assumption. }
  cbn [HopEncryption.new HopEncryption.privateKey fst].
  rewrite (take_ge a_sk) by lia. fold iv.
  exists (Spec.seal plaintext b_pk a_sk iv). unfold Spec.seal.
  split; [reflexivity|].
  split; [rewrite take_app_length' by assumption; reflexivity|].
  split; [rewrite length_app; lia|].
  unfold HopEncryption.decryptAESGCM.
  cbn [HopEncryption.new HopEncryption.privateKey].
  rewrite (take_ge b_sk) by lia.
  destruct (Nat.ltb_spec
              (length (iv ++ AES_GCM_encrypt (Spec.derive a_sk b_pk) iv plaintext))
              (12 + 16)) as [Hlt|_]; [rewrite length_app in Hlt; lia|].
  rewrite deriveSymmetricKey_run by assumption.
  cbn [mbind Outcome_bind]. rewrite importKey_derived.
  rewrite take_app_length', drop_app_length' by assumption.
  unfold subtle.decrypt, Spec.derive in *. rewrite <- Hdh.
  cbn [mbind Outcome_bind]. rewrite Hopen. reflexivity.
Qed.

(** X7. The constructor takes a secret key of fewer than 32 bytes, but
    the object it makes can neither seal nor open: tweetnacl refuses the
    scalar ("bad n size") when the key is derived, before any randomness
    is read. *)
Theorem short_secret_key_is_unusable (privateKey publicKey data peer : bytes)
    (isServer : bool) (w : World) :
  (length privateKey < 32)%nat ->
  let self := HopEncryption.new privateKey publicKey isServer in
  HopEncryption.privateKey self = privateKey
  /\ HopEncryption.encryptAESGCM self data peer w = (Threw BadScalarSize, w)
  /\ HopEncryption.encrypt self (js "aes-gcm") data peer w
     = (Threw BadScalarSize, w)
  /\ ((28 <= length data)%nat ->
      HopEncryption.decryptAESGCM self data peer = Threw BadScalarSize).
Proof.
  intros Hshort self.
  assert (Hkey : HopEncryption.privateKey self = privateKey).
  { subst self. cbn. apply take_ge. lia. }
  assert (Hderive : forall flag,
            HopEncryption.deriveSymmetricKey privateKey peer flag
            = Threw BadScalarSize).
  { intros flag. unfold HopEncryption.deriveSymmetricKey, nacl.scalarMult.
    destruct (Nat.eqb_spec (length privateKey) 32); [lia|]. reflexivity. }
  split; [exact Hkey|].
  assert (Henc : HopEncryption.encryptAESGCM self data peer w
                 = (Threw BadScalarSize, w)).
  { unfold HopEncryption.encryptAESGCM. rewrite Hkey, Hderive. reflexivity. }
  split; [exact Henc|]. split; [rewrite encrypt_aes_gcm; exact Henc|].
  intros Hlong. unfold HopEncryption.decryptAESGCM.
  destruct (Nat.ltb_spec (length data) (12 + 16)); [lia|].
  rewrite Hkey, Hderive. reflexivity.
Qed.

(** ** [OnionBuilder.encryptForHop] *)

(** X8. [encryptForHop] makes a fresh keypair and returns its public key
    (32 bytes), the IV (12 bytes) and the AES-GCM output, sealed for the
    recipient under the fresh secret key. It reads 44 octets of
    randomness, and its [senderSecretKey] argument plays no part. *)
Theorem encryptForHop_layout (data senderSecretKey otherSecretKey
    recipientPublicKey : bytes) (w : World) :
  length recipientPublicKey = 32%nat ->
  let eph_sk := Spec.slice w (consumed w) 32 in
  let iv := Spec.slice w (consumed w + 32) 12 in
  OnionBuilder.encryptForHop data senderSecretKey recipientPublicKey w
  = (Returned (crypto_scalarmult eph_sk nacl.nine ++ iv
                 ++ AES_GCM_encrypt (Spec.derive eph_sk recipientPublicKey) iv data),
     set_consumed (consumed w + 44) w)
  /\ OnionBuilder.encryptForHop data otherSecretKey recipientPublicKey w
     = OnionBuilder.encryptForHop data senderSecretKey recipientPublicKey w.
Proof.
  intros Hpk eph_sk iv. split; [|reflexivity].
  unfold OnionBuilder.encryptForHop.
  rewrite (bind_returned _ _ _ _ _ (box_keyPair_run w)).
  rewrite encrypt_aes_gcm.
  erewrite bind_returned; cycle 1.
  { apply encryptAESGCM_run; [|exact Hpk].
    cbn [HopEncryption.new HopEncryption.privateKey nacl.secretKey Spec.keypair].
    rewrite take_32_slice. apply slice_length. }
  cbn [HopEncryption.new HopEncryption.privateKey nacl.secretKey nacl.publicKey
       Spec.keypair consumed set_consumed].
  rewrite take_32_slice, slice_set_consumed, set_consumed_twice.
  unfold mret, Js_ret, Spec.seal. cbn [concat]. rewrite app_nil_r.
  replace (consumed w + 32 + 12)%nat with (consumed w + 44)%nat by lia.
  reflexivity.
Qed.
End hop_encryption_more.

Lemma encrypt_enc_types_witness :
  @HopEncryption.encrypt Reference.platform
    (HopEncryption.new Scenario.alice_sk Scenario.alice_pk false)
    (js "xchacha20") Scenario.greeting Scenario.bob_pk Scenario.world
  = (Threw (UnsupportedEncryptionType (js "xchacha20")), Scenario.world).
Proof.
  refine (proj1 (@encrypt_enc_types Reference.platform _ _ _ _ _ _ _));
    discriminate.
Defined.

Lemma decryptAESGCM_length_check_witness :
  @HopEncryption.decryptAESGCM Reference.platform
    (HopEncryption.new Scenario.bob_sk Scenario.bob_pk true)
    (take 27 Scenario.sealed_greeting) Scenario.alice_pk
  = Threw CiphertextTooShort.
Proof.
  refine (proj1 (@decryptAESGCM_length_check Reference.platform _ _ _ _)).
  vm_compute. lia.
Defined.

Lemma open_what_was_sealed_witness :
  exists ciphertext : bytes,
    (@HopEncryption.encryptAESGCM Reference.platform
       (HopEncryption.new Scenario.alice_sk Scenario.alice_pk false)
       Scenario.greeting Scenario.bob_pk Scenario.world).1 = Returned ciphertext
    /\ @HopEncryption.decryptAESGCM Reference.platform
         (HopEncryption.new Scenario.bob_sk Scenario.bob_pk true)
         ciphertext Scenario.alice_pk = Returned Scenario.greeting.
Proof.
  destruct (@open_what_was_sealed Reference.platform Scenario.alice_sk
              Scenario.bob_sk Scenario.greeting Scenario.world)
    as (ciphertext & Henc & _ & _ & Hdec).
  - vm_compute. reflexivity.
  - vm_compute. reflexivity.
  - vm_compute. reflexivity.
  - vm_compute. reflexivity.
  - vm_compute. lia.
  - exists ciphertext. split.
    + replace Scenario.alice_pk
        with (nacl.publicKey (@Spec.keypair Reference.platform Scenario.alice_sk))
        by (vm_compute; reflexivity).
      replace Scenario.bob_pk
        with (nacl.publicKey (@Spec.keypair Reference.platform Scenario.bob_sk))
        by (vm_compute; reflexivity).
      exact Henc.
    + replace Scenario.alice_pk
        with (nacl.publicKey (@Spec.keypair Reference.platform Scenario.alice_sk))
        by (vm_compute; reflexivity).
      replace Scenario.bob_pk
        with (nacl.publicKey (@Spec.keypair Reference.platform Scenario.bob_sk))
        by (vm_compute; reflexivity).
      exact Hdec.
Defined.

Lemma short_secret_key_is_unusable_witness :
  @HopEncryption.encryptAESGCM Reference.platform
    (HopEncryption.new (take 31 Scenario.alice_sk) Scenario.alice_pk false)
    Scenario.greeting Scenario.bob_pk Scenario.world
  = (Threw BadScalarSize, Scenario.world).
Proof.
  refine (proj1 (proj2 (@short_secret_key_is_unusable Reference.platform _ _ _ _
                          _ _ _))).
  vm_compute. lia.
Defined.

Lemma encryptForHop_layout_witness :
  @OnionBuilder.encryptForHop Reference.platform Scenario.greeting
    Scenario.bob_sk Scenario.bob_pk Scenario.world
  = @OnionBuilder.encryptForHop Reference.platform Scenario.greeting
      Scenario.alice_sk Scenario.bob_pk Scenario.world.
Proof.
  refine (proj2 (@encryptForHop_layout Reference.platform _ _ _ _ _ _)).
  vm_compute. reflexivity.
Defined.

(** ** [buildOnionPath], further *)

(** X9. The index [Math.floor(Math.random() * activeNodes.length)] is
    inside the array for every double of [0, 1) and every non-empty array
    of fewer than 2^53 entries, rounding of the product included: the entry
    the loop pushes is never [undefined]. *)
Theorem drawn_index_is_defined (activeNodes : list ServiceNode) (r : Sample) :
  unit_interval r -> activeNodes <> [] ->
  Z.of_nat (length activeNodes) < 2 ^ 53 ->
  0 <= drawn activeNodes r < Z.of_nat (length activeNodes)
  /\ exists node, at_index activeNodes (drawn activeNodes r) = Some node
                  /\ node ∈ activeNodes.
Proof.
  intros Hr Hne Hbig.
  assert (Hrange : 0 <= drawn activeNodes r < Z.of_nat (length activeNodes)).
  { apply Math_floor_times_range; [assumption| |assumption].
    destruct activeNodes; [congruence|cbn; lia]. }
  split; [exact Hrange|].
  destruct (lookup_lt_is_Some_2 activeNodes (Z.to_nat (drawn activeNodes r))
              ltac:(lia)) as [node Hnode].
  exists node. split; [exact Hnode|]. eapply list_elem_of_lookup_2, Hnode.
Qed.

(** The largest double below one, on an array of three. *)
Lemma drawn_index_is_defined_witness :
  0 <= drawn [Scenario.node_a; Scenario.node_b; Scenario.node_c]
         {| mantissa := 2 ^ 53 - 1; exponent := 53 |} < 3
  /\ exists node,
       at_index [Scenario.node_a; Scenario.node_b; Scenario.node_c]
         (drawn [Scenario.node_a; Scenario.node_b; Scenario.node_c]
            {| mantissa := 2 ^ 53 - 1; exponent := 53 |}) = Some node
       /\ node ∈ [Scenario.node_a; Scenario.node_b; Scenario.node_c].
Proof.
  refine (drawn_index_is_defined [Scenario.node_a; Scenario.node_b; Scenario.node_c]
            {| mantissa := 2 ^ 53 - 1; exponent := 53 |} _ _ _).
  - vm_compute. intuition discriminate.
  - discriminate.
  - vm_compute. reflexivity.
Defined.

Lemma select_rest_is_suffix (activeNodes : list ServiceNode) (pathLength : Z)
    (pending : list Sample) :
  forall selectedNodes usedIndices,
  exists used,
    pending = used ++ (OnionBuilder.select activeNodes pathLength pending
                         selectedNodes usedIndices).2.
Proof.
  induction pending as [|r pending IH]; intros sel used_idx;
    cbn [OnionBuilder.select].
  - exists []. destruct (_ <? _); reflexivity.
  - destruct (_ <? _); [|exists []; reflexivity].
    destruct (bool_decide _).
    + destruct (IH sel used_idx) as [used Hused].
      exists (r :: used). cbn. f_equal. exact Hused.
    + match goal with
      | |- context [OnionBuilder.select _ _ _ ?s ?u] =>
          destruct (IH s u) as [used Hused]
      end.
      exists (r :: used). cbn. f_equal. exact Hused.
Qed.

(** X10. [buildOnionPath] takes samples of [Math.random] from the front of
    the supply and does nothing else to the world: the service-node list
    and the path length stay, no randomness of the CSPRNG is read, no
    request is sent. *)
Theorem buildOnionPath_touches_samples_only (pathLength : Z) (w : World) :
  exists used rest : list Sample,
    samples w = used ++ rest
    /\ (OnionBuilder.buildOnionPath pathLength w).2 = set_samples rest w.
Proof.
  unfold OnionBuilder.buildOnionPath, try_catch.
  unfold OnionBuilder.getServiceNodes, read, mbind, Js_bind.
  destruct (_ <? _).
  - exists [], (samples w). split; [reflexivity|]. cbn.
    symmetry. apply set_samples_same.
  - unfold OnionBuilder.select_nodes.
    destruct (select_rest_is_suffix
                (List.filter OnionBuilder.active (serviceNodes (this w)))
                pathLength (samples w) [] ∅) as [used Hused].
    destruct (OnionBuilder.select _ _ _ _ _) as [[sel|e|] rest];
      cbn [snd] in Hused; exists used, rest; (split; [exact Hused|]); cbn;
      try reflexivity.
    unfold pure. destruct (OnionBuilder.map_to_path sel); reflexivity.
Qed.

Lemma map_to_path_returned (selectedNodes : list (option ServiceNode)) :
  forall path,
    OnionBuilder.map_to_path selectedNodes = Returned path ->
    Forall2 (fun entry hop =>
               exists node, entry = Some node /\ hop = OnionBuilder.to_path_node node)
            selectedNodes path.
Proof.
  induction selectedNodes as [|entry rest IH]; intros path Hpath.
  - cbn in Hpath. injection Hpath as <-. constructor.
  - cbn [OnionBuilder.map_to_path] in Hpath.
    destruct entry as [node|]; [|discriminate].
    cbn [defined mbind Outcome_bind] in Hpath.
    destruct (OnionBuilder.map_to_path rest) as [path'| |]; try discriminate.
    cbn in Hpath. injection Hpath as <-.
    constructor; [eauto | apply IH; reflexivity].
Qed.

(** X11. Whenever [buildOnionPath] returns, whatever [Math.random] gave,
    the path has as many hops as asked for (none for a negative length),
    and every hop is made of a stored service node that passed the filter:
    its two keys and its address are not empty and its port is not 0. *)
Theorem returned_path_is_usable (pathLength : Z) (w : World)
    (path : list OnionPathNode) :
  (OnionBuilder.buildOnionPath pathLength w).1 = Returned path ->
  Z.of_nat (length path) = Z.max pathLength 0
  /\ Forall (fun hop =>
               exists node, node ∈ serviceNodes (this w)
                            /\ OnionBuilder.active node = true
                            /\ hop = OnionBuilder.to_path_node node) path
  /\ Forall hop_is_usable path.
Proof.
  intros Hret.
  set (activeNodes := List.filter OnionBuilder.active (serviceNodes (this w))).
  destruct (Z.lt_ge_cases (Z.of_nat (length activeNodes)) pathLength) as [Hlt|Hge].
  { rewrite buildOnionPath_too_few in Hret by exact Hlt. discriminate. }
  rewrite buildOnionPath_enough in Hret by exact Hge. fold activeNodes in Hret.
  pose proof (select_spec activeNodes pathLength (samples w) [] (NoDup_nil_2))
    as Hsel.
  change (at_index activeNodes <$> []) with (@nil (option ServiceNode)) in Hsel.
  change (list_to_set [] : gset Z) with (∅ : gset Z) in Hsel.
  destruct (OnionBuilder.select activeNodes pathLength (samples w) [] ∅)
    as [[sel|e|] rest]; cbn [fst] in Hret; try discriminate.
  destruct Hsel as (idxs & -> & _ & _ & Hlen & _).
  destruct (OnionBuilder.map_to_path (at_index activeNodes <$> idxs))
    as [path'| |] eqn:Emap; try discriminate.
  injection Hret as ->.
  apply map_to_path_returned in Emap.
  assert (Hnodes : Forall (fun hop =>
                     exists node, node ∈ serviceNodes (this w)
                                  /\ OnionBuilder.active node = true
                                  /\ hop = OnionBuilder.to_path_node node) path).
  { apply Forall_forall. intros hop Hhop.
    apply list_elem_of_lookup_1 in Hhop as [k Hk].
    destruct (Forall2_lookup_r _ _ _ _ _ Emap Hk) as (entry & Hentry & node & -> & ->).
    apply list_elem_of_lookup_2, list_elem_of_fmap in Hentry as (i & Hi & _).
    symmetry in Hi. apply list_elem_of_lookup_2 in Hi.
    subst activeNodes. apply list_elem_of_In, filter_In in Hi as [Hin Hact].
    exists node. rewrite list_elem_of_In. auto. }
  split; [|split; [exact Hnodes|]].
  - apply Forall2_length in Emap. rewrite length_fmap in Emap.
    rewrite <- Emap, Hlen. cbn. lia.
  - eapply Forall_impl; [exact Hnodes|].
    intros hop (node & _ & Hact & ->). apply active_spec in Hact. exact Hact.
Qed.

Lemma scenario_path_selected :
  (OnionBuilder.buildOnionPath 3 Scenario.world).1 = Returned Scenario.path.
Proof. vm_compute. reflexivity. Defined.

Lemma returned_path_is_usable_witness :
  Z.of_nat (length Scenario.path) = Z.max 3 0 /\ Forall hop_is_usable Scenario.path.
Proof.
  destruct (returned_path_is_usable 3 Scenario.world Scenario.path
              scenario_path_selected) as (Hlen & _ & Hall).
  split; assumption.
Defined.

(** ** [buildOnionRequest] on a path with a malformed key *)

Section malformed.
Context `{Platform}.

(** One turn of the loop on any blob: it adds a layer when the key of the
    hop decodes to 32 bytes, and throws "bad p size" otherwise. *)
Lemma hop_outcome (onionPath : list OnionPathNode) (destination : OnionDestination)
    (i : nat) (node : OnionPathNode) (blob eph : bytes) (w : World) :
  onionPath !! i = Some node ->
  if decide (x25519_key_ok node)
  then exists layer,
         OnionBuilder.hop onionPath destination i blob eph w
         = (Returned layer, set_consumed (consumed w + 44) w)
  else OnionBuilder.hop onionPath destination i blob eph w
       = (Threw BadPointSize, set_consumed (consumed w + 32) w).
Proof.
  intros Hnode. unfold OnionBuilder.hop.
  rewrite (bind_returned _ _ _ _ _ (box_keyPair_run w)).
  rewrite Hnode. cbn [defined]. rewrite bind_pure_returned.
  assert (Hlen : (i < length onionPath)%nat) by (eapply lookup_lt_Some, Hnode).
  assert (Hrouting : exists routingInfo,
    (if Z.of_nat i =? Z.of_nat (length onionPath) - 1
     then mret (JObj [(js "host", JStr (host destination));
                      (js "port", JNum (port destination));
                      (js "protocol", JStr (protocol destination));
                      (js "target", JStr (target destination))])
     else next ← pure (defined (onionPath !! (i + 1)%nat));
          mret (JObj [(js "destination", JStr (ed25519_pubkey next));
                      (js "ephemeral_key", JStr (toHex eph));
                      (js "enc_type", JStr (js "aes-gcm"))]))
      (set_consumed (consumed w + 32) w)
    = (Returned routingInfo, set_consumed (consumed w + 32) w)).
  { destruct (Z.eqb_spec (Z.of_nat i) (Z.of_nat (length onionPath) - 1)) as [E|E].
    - eexists. reflexivity.
    - destruct (lookup_lt_is_Some_2 onionPath (i + 1) ltac:(lia)) as [next Hnext].
      rewrite Hnext. eexists. reflexivity. }
  destruct Hrouting as [routingInfo Hrouting].
  rewrite (bind_returned _ _ _ _ _ Hrouting). clear Hrouting.
  rewrite frame_concat, bind_pure_returned.
  rewrite TypedArray_copy, bind_pure_returned.
  rewrite encrypt_aes_gcm.
  destruct (decide (x25519_key_ok node)) as [Hkey|Hkey].
  - eexists. erewrite bind_returned; cycle 1.
    { apply encryptAESGCM_run; [|exact Hkey].
      cbn [HopEncryption.new HopEncryption.privateKey nacl.secretKey Spec.keypair].
      rewrite take_32_slice. apply slice_length. }
    cbn [consumed set_consumed]. unfold mret, Js_ret.
    rewrite set_consumed_twice.
    replace (consumed w + 32 + 12)%nat with (consumed w + 44)%nat by lia.
    reflexivity.
  - apply bind_threw. unfold HopEncryption.encryptAESGCM.
    unfold HopEncryption.deriveSymmetricKey, nacl.scalarMult.
    cbn [HopEncryption.new HopEncryption.privateKey nacl.secretKey Spec.keypair].
    rewrite take_32_slice, slice_length. cbn [Nat.eqb negb].
    unfold x25519_key_ok in Hkey.
    destruct (Nat.eqb_spec (length (fromHex (x25519_pubkey node))) 32);
      [contradiction|]. reflexivity.
Qed.

Lemma hops_malformed (onionPath : list OnionPathNode)
    (destination : OnionDestination) :
  forall (remaining : nat) (blob eph : bytes) (w : World),
    (remaining <= length onionPath)%nat ->
    (exists i node, (i < remaining)%nat /\ onionPath !! i = Some node
                    /\ ~ x25519_key_ok node) ->
    (OnionBuilder.hops onionPath destination remaining blob eph w).1
    = Threw BadPointSize.
Proof.
  induction remaining as [|i IH]; intros blob eph w Hle (j & bad & Hj & Hbad & Hkey);
    [lia|].
  cbn [OnionBuilder.hops].
  destruct (lookup_lt_is_Some_2 onionPath i ltac:(lia)) as [node Hnode].
  pose proof (hop_outcome onionPath destination i node blob eph w Hnode) as Hhop.
  destruct (decide (x25519_key_ok node)) as [Hok|Hno].
  - destruct Hhop as [[blob' eph'] Hhop].
    rewrite (bind_returned _ _ _ _ _ Hhop).
    apply IH; [lia|].
    exists j, bad. repeat split; [|assumption..].
    destruct (decide (j = i)) as [->|]; [|lia].
    rewrite Hnode in Hbad. injection Hbad as ->. contradiction.
  - rewrite (bind_threw _ _ _ _ _ Hhop). reflexivity.
Qed.

(** X12. No partial envelope: when the X25519 key of any hop of the path
    does not decode to 32 bytes, [buildOnionRequest] ends with tweetnacl's
    "bad p size" and returns nothing, wherever the hop stands in the
    path. *)
Theorem malformed_hop_key_aborts (finalPayload : JSON)
    (onionPath : list OnionPathNode) (destination : OnionDestination)
    (w : World) :
  Z.of_nat (length (utf8 (JSON_stringify finalPayload))) < 2 ^ 32 ->
  Exists (fun node => ~ x25519_key_ok node) onionPath ->
  (OnionBuilder.buildOnionRequest finalPayload onionPath destination w).1
  = Threw BadPointSize.
Proof.
  intros Hsize Hbad. unfold OnionBuilder.buildOnionRequest.
  rewrite (bind_returned _ _ _ _ _ (box_keyPair_run w)).
  rewrite encodeSize_u32_LE, bind_pure_returned by assumption.
  apply Exists_exists in Hbad as (bad & Hin & Hkey).
  apply list_elem_of_lookup_1 in Hin as [j Hj].
  pose proof (lookup_lt_Some _ _ _ Hj) as Hlt.
  unfold mbind, Js_bind.
  match goal with
  | |- context [OnionBuilder.hops ?p ?d ?n ?b ?e ?w'] =>
      pose proof (hops_malformed p d n b e w' ltac:(lia)
                    ltac:(exists j, bad; auto)) as Hloop;
      destruct (OnionBuilder.hops p d n b e w') as [[r|err|] w'']
  end; cbn [fst] in Hloop |- *; try discriminate.
  injection Hloop as ->. reflexivity.
Qed.
End malformed.

Lemma malformed_hop_key_aborts_witness :
  (@OnionBuilder.buildOnionRequest Reference.platform Scenario.payload
     Scenario.bad_path Scenario.destination Scenario.world).1
  = Threw BadPointSize.
Proof.
  refine (@malformed_hop_key_aborts Reference.platform _ _ _ _
            scenario_payload_size _).
  apply Exists_cons_tl, Exists_cons_hd. vm_compute. discriminate.
Defined.

(** ** [fetchServiceNodes] *)

Lemma set_requests_twice (n m : nat) (w : World) :
  set_requests n (set_requests m w) = set_requests n w.
Proof. reflexivity. Qed.

Lemma try_seed_nodes_none (limit : Z) (seeds : list jsstring) :
  forall w : World,
    (forall j url, seeds !! j = Some url ->
                   answered (seed_reply w (requests w + j)%nat url limit) = None) ->
    OnionBuilder.try_seed_nodes limit seeds w
    = (Returned None, set_requests (requests w + length seeds) w).
Proof.
  induction seeds as [|url rest IH]; intros w Hall.
  - cbn. rewrite Nat.add_0_r, set_requests_same by reflexivity. reflexivity.
  - cbn [OnionBuilder.try_seed_nodes]. unfold mbind, Js_bind, try_catch.
    unfold OnionBuilder.post_seed.
    pose proof (Hall 0%nat url eq_refl) as H0. rewrite Nat.add_0_r in H0.
    assert (Hrest : OnionBuilder.try_seed_nodes limit rest
                      (set_requests (S (requests w)) w)
                    = (Returned None,
                       set_requests (requests w + length (url :: rest)) w)).
    { rewrite IH.
      - cbn [requests set_requests]. rewrite set_requests_twice.
        do 2 f_equal. cbn [length]. lia.
      - intros j url' Hj. cbn.
        replace (S (requests w + j)) with (requests w + S j)%nat by lia.
        apply (Hall (S j) url' Hj). }
    destruct (seed_reply w (requests w) url limit) as [m|[states|]];
      cbn in H0 |- *; try discriminate; exact Hrest.
Qed.

Lemma try_seed_nodes_some (limit : Z) (seeds : list jsstring) :
  forall (w : World) (k : nat) (url : jsstring) (states : list NodeState),
    (forall j url', (j < k)%nat -> seeds !! j = Some url' ->
                    answered (seed_reply w (requests w + j)%nat url' limit) = None) ->
    seeds !! k = Some url ->
    answered (seed_reply w (requests w + k)%nat url limit) = Some states ->
    OnionBuilder.try_seed_nodes limit seeds w
    = (Returned (Some (OnionBuilder.project <$> states)),
       set_requests (requests w + k + 1) w).
Proof.
  induction seeds as [|url0 rest IH]; intros w k url states Hbefore Hk Hans;
    [discriminate|].
  cbn [OnionBuilder.try_seed_nodes]. unfold mbind, Js_bind, try_catch.
  unfold OnionBuilder.post_seed.
  destruct k as [|k].
  - cbn in Hk. injection Hk as ->. rewrite Nat.add_0_r in Hans.
    destruct (seed_reply w (requests w) url limit) as [m|[states'|]];
      cbn in Hans; try discriminate.
    injection Hans as ->. cbn. do 2 f_equal. lia.
  - pose proof (Hbefore 0%nat url0 ltac:(lia) eq_refl) as H0.
    rewrite Nat.add_0_r in H0.
    assert (Hrest : OnionBuilder.try_seed_nodes limit rest
                      (set_requests (S (requests w)) w)
                    = (Returned (Some (OnionBuilder.project <$> states)),
                       set_requests (requests w + S k + 1) w)).
    { rewrite (IH _ k url states).
      - cbn [requests set_requests]. rewrite set_requests_twice.
        do 2 f_equal. cbn [length]. lia.
      - intros j url' Hj Hl. cbn.
        replace (S (requests w + j)) with (requests w + S j)%nat by lia.
        apply (Hbefore (S j) url' ltac:(lia) Hl).
      - exact Hk.
      - cbn. replace (S (requests w + k)) with (requests w + S k)%nat by lia.
        exact Hans. }
    destruct (seed_reply w (requests w) url0 limit) as [m|[states'|]];
      cbn in H0 |- *; try discriminate; exact Hrest.
Qed.

Lemma seed_of_lookup (j : nat) (url : jsstring) :
  OXEN_SEED_NODES !! j = Some url -> url = seed_of j /\ (j < 3)%nat.
Proof.
  intros Hj. pose proof (lookup_lt_Some _ _ _ Hj) as Hlt. cbn in Hlt.
  split; [|exact Hlt]. unfold seed_of.
  rewrite Nat.mod_small by lia. rewrite Hj. reflexivity.
Qed.

Lemma seed_of_next_round (k : nat) : seed_of (3 + k) = seed_of k.
Proof.
  unfold seed_of. do 2 f_equal.
  replace (3 + k)%nat with (k + 1 * 3)%nat by lia. apply Nat.Div0.mod_add.
Qed.

Lemma fetch_rounds_none (limit : Z) (attempts : nat) :
  forall w : World,
    (forall j, (j < 3 * attempts)%nat ->
               answered (seed_reply w (requests w + j)%nat (seed_of j) limit) = None) ->
    OnionBuilder.fetch_rounds limit attempts w
    = (Threw SeedNodesExhausted, set_requests (requests w + 3 * attempts) w).
Proof.
  induction attempts as [|attempts IH]; intros w Hall.
  - cbn. rewrite Nat.add_0_r, set_requests_same by reflexivity. reflexivity.
  - cbn [OnionBuilder.fetch_rounds].
    erewrite bind_returned; cycle 1.
    { apply try_seed_nodes_none. intros j url Hj.
      apply seed_of_lookup in Hj as [-> Hlt]. apply Hall. lia. }
    rewrite IH.
    + cbn [requests set_requests]. rewrite set_requests_twice.
      change (length OXEN_SEED_NODES) with 3%nat. do 2 f_equal. lia.
    + intros j Hj. cbn [requests set_requests seed_reply].
      change (length OXEN_SEED_NODES) with 3%nat.
      replace (requests w + 3 + j)%nat with (requests w + (3 + j))%nat by lia.
      rewrite <- seed_of_next_round. apply Hall. lia.
Qed.

Lemma fetch_rounds_some (limit : Z) (attempts : nat) :
  forall (w : World) (k : nat) (states : list NodeState),
    (k < 3 * attempts)%nat ->
    (forall j, (j < k)%nat ->
               answered (seed_reply w (requests w + j)%nat (seed_of j) limit) = None) ->
    answered (seed_reply w (requests w + k)%nat (seed_of k) limit) = Some states ->
    OnionBuilder.fetch_rounds limit attempts w
    = (Returned (OnionBuilder.project <$> states),
       set_requests (requests w + k + 1) w).
Proof.
  induction attempts as [|attempts IH]; intros w k states Hk Hbefore Hans; [lia|].
  cbn [OnionBuilder.fetch_rounds].
  destruct (Nat.lt_ge_cases k 3) as [Hsmall|Hlarge].
  - destruct (lookup_lt_is_Some_2 OXEN_SEED_NODES k ltac:(cbn; lia)) as [url Hurl].
    pose proof (seed_of_lookup k url Hurl) as [-> _].
    erewrite bind_returned; cycle 1.
    { apply (try_seed_nodes_some limit OXEN_SEED_NODES w k (seed_of k) states);
        [|assumption..].
      intros j url' Hj Hl. apply seed_of_lookup in Hl as [-> _].
      apply Hbefore. exact Hj. }
    reflexivity.
  - erewrite bind_returned; cycle 1.
    { apply try_seed_nodes_none. intros j url Hj.
      apply seed_of_lookup in Hj as [-> Hlt]. apply Hbefore. lia. }
    rewrite (IH _ (k - 3)%nat states).
    + cbn [requests set_requests]. rewrite set_requests_twice.
      change (length OXEN_SEED_NODES) with 3%nat. do 2 f_equal. lia.
    + lia.
    + intros j Hj. cbn [requests set_requests seed_reply].
      change (length OXEN_SEED_NODES) with 3%nat.
      replace (requests w + 3 + j)%nat with (requests w + (3 + j))%nat by lia.
      rewrite <- seed_of_next_round. apply Hbefore. lia.
    + cbn [requests set_requests seed_reply].
      change (length OXEN_SEED_NODES) with 3%nat.
      replace (requests w + 3 + (k - 3))%nat with (requests w + k)%nat by lia.
      rewrite <- seed_of_next_round.
      replace (3 + (k - 3))%nat with k by lia. exact Hans.
Qed.

(** X13. [fetchServiceNodes] asks the three seed nodes in turn, round after
    round, and returns at the first reply that carries a node list: when
    the request number [k] (below 15) is the first to be so answered, the
    result is that list, with the six fields of each node, and [k + 1]
    requests have been sent. Replies that reject or that carry no list are
    passed over alike. *)
Theorem fetchServiceNodes_first_answer (limit : Z) (w : World) (k : nat)
    (states : list NodeState) :
  (k < 15)%nat ->
  (forall j, (j < k)%nat ->
             answered (seed_reply w (requests w + j)%nat (seed_of j) limit) = None) ->
  answered (seed_reply w (requests w + k)%nat (seed_of k) limit) = Some states ->
  OnionBuilder.fetchServiceNodes limit w
  = (Returned (OnionBuilder.project <$> states),
     set_requests (requests w + k + 1) w).
Proof.
  intros Hk Hbefore Hans. apply fetch_rounds_some; [lia|assumption..].
Qed.

(** X14. When none of fifteen requests (five rounds over the three seed
    nodes) is answered with a node list, [fetchServiceNodes] throws "Failed
    to fetch service nodes from all seed nodes after attempts", having sent
    exactly fifteen. *)
Theorem fetchServiceNodes_exhausted (limit : Z) (w : World) :
  (forall j, (j < 15)%nat ->
             answered (seed_reply w (requests w + j)%nat (seed_of j) limit) = None) ->
  OnionBuilder.fetchServiceNodes limit w
  = (Threw SeedNodesExhausted, set_requests (requests w + 15) w).
Proof.
  intros Hall. apply (fetch_rounds_none limit 5 w Hall).
Qed.

Lemma fetchServiceNodes_first_answer_witness :
  OnionBuilder.fetchServiceNodes 3 Scenario.world
  = (Returned (OnionBuilder.project
                 <$> [Scenario.state "10.0.0.8"; Scenario.state "10.0.0.9"]),
     set_requests 5 Scenario.world).
Proof.
  refine (fetchServiceNodes_first_answer 3 Scenario.world 4
            [Scenario.state "10.0.0.8"; Scenario.state "10.0.0.9"] _ _ _).
  - lia.
  - intros j Hj. do 4 (destruct j as [|j]; [reflexivity|]). lia.
  - reflexivity.
Defined.

Lemma fetchServiceNodes_exhausted_witness :
  OnionBuilder.fetchServiceNodes 3 Scenario.offline
  = (Threw SeedNodesExhausted, set_requests 15 Scenario.offline).
Proof.
  refine (fetchServiceNodes_exhausted 3 Scenario.offline _).
  intros j Hj. reflexivity.
Defined.

(** ** [sendOnionRequest], end to end *)

Lemma buildOnionPath_nonpositive (pathLength : Z) (w : World) :
  pathLength <= 0 -> OnionBuilder.buildOnionPath pathLength w = (Returned [], w).
Proof.
  intros Hle. unfold OnionBuilder.buildOnionPath, try_catch.
  unfold OnionBuilder.getServiceNodes, read, mbind, Js_bind.
  destruct (Z.ltb_spec
              (Z.of_nat (length (List.filter OnionBuilder.active
                                   (serviceNodes (this w))))) pathLength); [lia|].
  unfold OnionBuilder.select_nodes.
  assert (E : OnionBuilder.select
                (List.filter OnionBuilder.active (serviceNodes (this w)))
                pathLength (samples w) [] ∅ = (Returned [], samples w)).
  { destruct (samples w); cbn [OnionBuilder.select length];
      destruct (Z.ltb_spec (Z.of_nat 0) pathLength); try lia; reflexivity. }
  rewrite E, set_samples_same. reflexivity.
Qed.

Lemma destination_let_through (d : OnionDestination) :
  destination_is_complete d ->
  negb (truthy_string (host d)) || negb (truthy_number (port d))
  || negb (truthy_string (protocol d)) || negb (truthy_string (target d)) = false.
Proof.
  intros (Hhost & Hport & Hprotocol & Htarget). unfold truthy_number.
  destruct (host d); [contradiction|]. destruct (protocol d); [contradiction|].
  destruct (target d); [contradiction|].
  destruct (Z.eqb_spec (port d) 0); [contradiction|]. reflexivity.
Qed.

Section sending.
Context `{Platform}.

Lemma build_entryNode (payload : JSON) (P : list OnionPathNode)
    (destination : OnionDestination) (w : World) :
  entryNode (Spec.build payload P destination w) = head P.
Proof.
  unfold Spec.build.
  destruct (Spec.onion payload destination
              (nacl.publicKey (Spec.keypair (Spec.slice w (consumed w) 32)))
              (Spec.layers w (consumed w + 32) P)) as [blob eph].
  reflexivity.
Qed.

(** X15. What [sendOnionRequest] puts on the wire. With a complete
    destination and a path that [buildOnionPath] returned, it sends one
    request and no more: a POST of the envelope built over that path to
    [https://<ip>:<port>/onion_req/v2] of the first hop, the port printed
    as JavaScript prints a number. A resolved reply becomes the response,
    with its bytes decoded as UTF-8 for the body; a rejected one becomes
    the error "Failed to send onion request: " followed by the message of
    the rejection. *)
Theorem sendOnionRequest_posts_envelope (payload : JSON)
    (destination : OnionDestination) (w w1 : World)
    (entry : OnionPathNode) (rest : list OnionPathNode) :
  destination_is_complete destination ->
  OnionBuilder.buildOnionPath (onionPathLength (this w)) w
  = (Returned (entry :: rest), w1) ->
  Z.of_nat (length (utf8 (JSON_stringify payload))) < 2 ^ 32 ->
  Forall x25519_key_ok (entry :: rest) ->
  let envelope := Spec.build payload (entry :: rest) destination w1 in
  let w2 := set_consumed (consumed w1 + 32 + 44 * length (entry :: rest)) w1 in
  let url := (js "https://" ++ ip entry ++ js ":"
                ++ Number_toString (node_port entry)) ++ js "/onion_req/v2" in
  OnionBuilder.sendOnionRequest payload (Some destination) w
  = (match entry_reply w2 (requests w2) url (encryptedPayload envelope) with
     | EntryRejected m => Threw (SendFailed m)
     | EntryResolved status headers data =>
         Returned {| statusCode := status; response_headers := headers;
                     body := Buffer_toString data |}
     end,
     set_requests (S (requests w2)) w2).
Proof.
  intros Hdest Hpath Hsize Hkeys envelope w2 url.
  unfold OnionBuilder.sendOnionRequest.
  rewrite (destination_let_through _ Hdest).
  unfold read at 1. unfold mbind at 1, Js_bind at 1.
  rewrite (bind_returned _ _ _ _ _ Hpath).
  rewrite (bind_returned _ _ _ _ _
             (buildOnionRequest_run payload (entry :: rest) destination w1
                Hsize Hkeys)).
  subst envelope w2 url. unfold OnionBuilder.sendRawOnionRequest.
  rewrite build_entryNode. cbn [head defined].
  rewrite bind_pure_returned.
  unfold try_catch, mbind, Js_bind, OnionBuilder.post_entry.
  match goal with
  | |- context [entry_reply ?w' ?k ?u ?p] =>
      destruct (entry_reply w' k u p) as [m|status headers data]
  end; reflexivity.
Qed.

(** X16. A configured path length of 0 (or below) is not refused: with a
    complete destination [sendOnionRequest] builds the empty path, draws
    the 32 octets of the final ephemeral key, and then fails with a
    [TypeError] on reading [onionRequest.entryNode.ip], the entry node
    being [undefined]. No request is sent. *)
Theorem sendOnionRequest_without_hops (payload : JSON)
    (destination : OnionDestination) (w : World) :
  destination_is_complete destination ->
  onionPathLength (this w) <= 0 ->
  Z.of_nat (length (utf8 (JSON_stringify payload))) < 2 ^ 32 ->
  OnionBuilder.sendOnionRequest payload (Some destination) w
  = (Threw TypeError, set_consumed (consumed w + 32) w).
Proof.
  intros Hdest Hzero Hsize. unfold OnionBuilder.sendOnionRequest.
  rewrite (destination_let_through _ Hdest).
  unfold read at 1. unfold mbind at 1, Js_bind at 1.
  rewrite (bind_returned _ _ _ _ _ (buildOnionPath_nonpositive _ w Hzero)).
  rewrite (bind_returned _ _ _ _ _
             (buildOnionRequest_run payload [] destination w Hsize
                (Forall_nil_2 _))).
  unfold OnionBuilder.sendRawOnionRequest.
  rewrite build_entryNode. cbn [head defined length].
  replace (consumed w + 32 + 44 * 0)%nat with (consumed w + 32)%nat by lia.
  reflexivity.
Qed.

(** X20. With a complete destination and fewer usable service nodes than
    the configured path length, [sendOnionRequest] fails with "Unable to
    build onion path" and has done nothing: no randomness is read, no
    request is sent, the world is as it was. The counts of the cause are
    not in the error. *)
Theorem sendOnionRequest_too_few_nodes (payload : JSON)
    (destination : OnionDestination) (w : World) :
  destination_is_complete destination ->
  Z.of_nat (length (List.filter OnionBuilder.active (serviceNodes (this w))))
  < onionPathLength (this w) ->
  OnionBuilder.sendOnionRequest payload (Some destination) w
  = (Threw UnableToBuildOnionPath, w).
Proof.
  intros Hdest Hfew. unfold OnionBuilder.sendOnionRequest.
  rewrite (destination_let_through _ Hdest).
  unfold read at 1. unfold mbind at 1, Js_bind at 1.
  apply bind_threw, buildOnionPath_too_few, Hfew.
Qed.
End sending.

Lemma scenario_destination_complete : destination_is_complete Scenario.destination.
Proof. repeat split; discriminate. Defined.

Lemma scenario_path_run :
  OnionBuilder.buildOnionPath (onionPathLength (this Scenario.world)) Scenario.world
  = (Returned Scenario.path,
     set_samples (Scenario.eighths <$> [2; 5; 3]) Scenario.world).
Proof. vm_compute. reflexivity. Defined.

Lemma sendOnionRequest_posts_envelope_witness :
  exists response,
    (@OnionBuilder.sendOnionRequest Reference.platform Scenario.payload
       (Some Scenario.destination) Scenario.world).1
    = Returned response
    /\ statusCode response = 200.
Proof.
  pose proof (@sendOnionRequest_posts_envelope Reference.platform Scenario.payload
                Scenario.destination Scenario.world _ _ _
                scenario_destination_complete scenario_path_run
                scenario_payload_size scenario_path_keys) as Hsend.
  cbv zeta in Hsend. rewrite Hsend.
  eexists. split; reflexivity.
Defined.

Lemma sendOnionRequest_without_hops_witness :
  @OnionBuilder.sendOnionRequest Reference.platform Scenario.payload
    (Some Scenario.destination) Scenario.no_hops
  = (Threw TypeError, set_consumed 32 Scenario.no_hops).
Proof.
  refine (@sendOnionRequest_without_hops Reference.platform Scenario.payload
            Scenario.destination Scenario.no_hops
            scenario_destination_complete _ scenario_payload_size).
  cbn. lia.
Defined.

Lemma sendOnionRequest_too_few_nodes_witness :
  @OnionBuilder.sendOnionRequest Reference.platform Scenario.payload
    (Some Scenario.destination) Scenario.two_nodes
  = (Threw UnableToBuildOnionPath, Scenario.two_nodes).
Proof.
  refine (@sendOnionRequest_too_few_nodes Reference.platform Scenario.payload
            Scenario.destination Scenario.two_nodes
            scenario_destination_complete _).
  vm_compute. reflexivity.
Defined.

(** ** The server's clean-up of a body *)

Lemma substring_in_range (s : jsstring) (a b : nat) :
  (a <= b <= length s)%nat ->
  Server.String_substring s (Z.of_nat a) (Z.of_nat b) = drop a (take b s).
Proof.
  intros Hab. unfold Server.String_substring.
  rewrite !Z.max_l, !Z.min_l, !Nat2Z.id by lia.
  rewrite Nat.min_l, Nat.max_r by lia. reflexivity.
Qed.

Lemma substring_from_in_range (s : jsstring) (a : nat) :
  (a <= length s)%nat ->
  Server.String_substring_from s (Z.of_nat a) = drop a s.
Proof.
  intros Ha. unfold Server.String_substring_from.
  rewrite substring_in_range, firstn_all by lia. reflexivity.
Qed.

(** [index_from] finds the first occurrence, counted from [i]. *)
Lemma index_from_spec (c : Z) (s : jsstring) :
  forall i : nat,
    (Server.index_from c s i = -1 /\ c ∉ s)
    \/ (exists k : nat, Server.index_from c s i = Z.of_nat (i + k)
                        /\ s !! k = Some c /\ c ∉ take k s).
Proof.
  induction s as [|x s IH]; intros i.
  - left. split; [reflexivity|]. apply not_elem_of_nil.
  - cbn [Server.index_from]. destruct (Z.eqb_spec x c) as [->|Hne].
    + right. exists 0%nat. rewrite Nat.add_0_r.
      split; [reflexivity|]. split; [reflexivity|]. apply not_elem_of_nil.
    + destruct (IH (S i)) as [[E Hnot]|(k & E & Hk & Hnot)].
      * left. split; [exact E|]. apply not_elem_of_cons. split; [congruence|exact Hnot].
      * right. exists (S k). split; [rewrite E; f_equal; lia|].
        split; [exact Hk|]. cbn [take]. apply not_elem_of_cons.
        split; [congruence|exact Hnot].
Qed.

(** X17. [cleanCorruptedPrefix] drops the longest prefix without an opening
    brace, and nothing else: the input is that prefix followed by the
    result; when the input holds an opening brace the result starts with
    the first one; and cleaning twice is cleaning once. *)
Theorem cleanCorruptedPrefix_drops_prefix (bodyString : jsstring) :
  (exists prefix,
     bodyString = prefix ++ Server.cleanCorruptedPrefix bodyString
     /\ Server.LBRACE ∉ prefix)
  /\ (Server.LBRACE ∈ bodyString ->
      head (Server.cleanCorruptedPrefix bodyString) = Some Server.LBRACE)
  /\ Server.cleanCorruptedPrefix (Server.cleanCorruptedPrefix bodyString)
     = Server.cleanCorruptedPrefix bodyString.
Proof.
  assert (Hhead : forall s : jsstring,
             head s = Some Server.LBRACE -> Server.cleanCorruptedPrefix s = s).
  { intros [|x s] Hx; [discriminate|]. injection Hx as ->. reflexivity. }
  assert (Hcases :
            (Server.cleanCorruptedPrefix bodyString = bodyString
             /\ (Server.LBRACE ∉ bodyString
                 \/ head bodyString = Some Server.LBRACE))
            \/ (exists k : nat,
                  Server.cleanCorruptedPrefix bodyString = drop (S k) bodyString
                  /\ bodyString !! S k = Some Server.LBRACE
                  /\ Server.LBRACE ∉ take (S k) bodyString)).
  { unfold Server.cleanCorruptedPrefix, Server.String_indexOf. rewrite drop_0.
    destruct (index_from_spec Server.LBRACE bodyString 0)
      as [[-> Hnot]|(k & -> & Hk & Hnot)].
    - left. split; [reflexivity|]. left. exact Hnot.
    - cbn [Nat.add]. pose proof (lookup_lt_Some _ _ _ Hk) as Hlt.
      destruct k as [|k].
      + left. split; [reflexivity|]. right.
        destruct bodyString; [discriminate|]. exact Hk.
      + right. exists k. destruct (Z.ltb_spec 0 (Z.of_nat (S k))) as [_|]; [|lia].
        rewrite substring_from_in_range by lia. auto. }
  destruct Hcases as [[E Hwhy]|(k & E & Hk & Hnot)]; rewrite E.
  - split; [exists []; split; [reflexivity|apply not_elem_of_nil]|].
    split; [|exact E].
    intros Hin. destruct Hwhy as [Hnot|Hh]; [contradiction|exact Hh].
  - assert (Hd : head (drop (S k) bodyString) = Some Server.LBRACE).
    { rewrite head_lookup, lookup_drop, Nat.add_0_r. exact Hk. }
    split; [exists (take (S k) bodyString); split;
              [symmetry; apply take_drop|exact Hnot]|].
    split; [intros _; exact Hd|]. apply Hhead, Hd.
Qed.

(** The loop that looks for the closing brace, from a count [c] above 0:
    it stops at the first index where the count, kept as the balance of
    what was read, comes to 0. *)
Lemma scan_spec (s : jsstring) :
  forall (i : nat) (c : Z),
    0 < c ->
    (Server.scan s i c = -1
     /\ forall n : nat, (n <= length s)%nat -> 0 < c + brace_balance (take n s))
    \/ (exists k : nat,
          Server.scan s i c = Z.of_nat (i + k)
          /\ s !! k = Some Server.RBRACE
          /\ c + brace_balance (take (S k) s) = 0
          /\ forall n : nat, (n <= k)%nat -> 0 < c + brace_balance (take n s)).
Proof.
  induction s as [|x s IH]; intros i c Hc.
  - left. split; [reflexivity|]. intros n _. rewrite take_nil. cbn. lia.
  - cbn [Server.scan].
    set (c' := if x =? Server.RBRACE
               then (if x =? Server.LBRACE then c + 1 else c) - 1
               else (if x =? Server.LBRACE then c + 1 else c)).
    assert (Hc' : c' = c + ((if x =? Server.LBRACE then 1 else 0)
                            - (if x =? Server.RBRACE then 1 else 0))).
    { subst c'. destruct (x =? Server.RBRACE), (x =? Server.LBRACE); lia. }
    assert (Hstep : forall n : nat,
               c + brace_balance (take (S n) (x :: s))
               = c' + brace_balance (take n s)).
    { intros n. cbn [take brace_balance]. lia. }
    destruct (Z.eqb_spec c' 0) as [Hzero|Hpos].
    + right. exists 0%nat. rewrite Nat.add_0_r. split; [reflexivity|].
      split.
      { cbn [lookup list_lookup]. f_equal.
        destruct (Z.eqb_spec x Server.RBRACE); [assumption|].
        destruct (Z.eqb_spec x Server.LBRACE); lia. }
      split; [rewrite Hstep, take_0; cbn; lia|].
      intros n Hn. replace n with 0%nat by lia. cbn. lia.
    + assert (Hc'pos : 0 < c').
      { destruct (Z.eqb_spec x Server.RBRACE), (Z.eqb_spec x Server.LBRACE); lia. }
      destruct (IH (S i) c' Hc'pos) as [[E Hall]|(k & E & Hk & Hend & Hall)].
      * left. split; [exact E|]. intros [|n] Hn; [cbn; lia|].
        rewrite Hstep. apply Hall. cbn [length] in Hn. lia.
      * right. exists (S k). split; [rewrite E; f_equal; lia|].
        split; [exact Hk|]. split; [rewrite Hstep; exact Hend|].
        intros [|n] Hn; [cbn; lia|]. rewrite Hstep. apply Hall. lia.
Qed.

(** X18. The search for the closing brace in [parseBinaryOnionRequest].
    Started on an opening brace, the loop ends on the first closing brace
    at which the braces read since the start are balanced, and before it
    the opening braces outnumber the closing ones at every index; it
    leaves [braceEnd] at -1 exactly when they do so up to the end of the
    text. Braces are counted wherever they stand, inside JSON strings
    too. *)
Theorem braceEnd_balances (cleanedBody : jsstring) (braceStart : nat) :
  cleanedBody !! braceStart = Some Server.LBRACE ->
  let open_until (j : nat) :=
    0 < brace_balance
          (Server.String_substring cleanedBody (Z.of_nat braceStart)
             (Z.of_nat j + 1)) in
  (Server.braceEnd cleanedBody braceStart = -1
   /\ forall j : nat, (braceStart <= j < length cleanedBody)%nat -> open_until j)
  \/ (exists e : nat,
        Server.braceEnd cleanedBody braceStart = Z.of_nat e
        /\ (braceStart < e < length cleanedBody)%nat
        /\ cleanedBody !! e = Some Server.RBRACE
        /\ brace_balance
             (Server.String_substring cleanedBody (Z.of_nat braceStart)
                (Z.of_nat e + 1)) = 0
        /\ forall j : nat, (braceStart <= j < e)%nat -> open_until j).
Proof.
  intros Hstart open_until. subst open_until. cbv beta.
  pose proof (lookup_lt_Some _ _ _ Hstart) as Hlt.
  assert (Hsub : forall j : nat,
             (braceStart <= j < length cleanedBody)%nat ->
             Server.String_substring cleanedBody (Z.of_nat braceStart)
               (Z.of_nat j + 1)
             = take (S j - braceStart) (drop braceStart cleanedBody)).
  { intros j Hj. replace (Z.of_nat j + 1) with (Z.of_nat (S j)) by lia.
    rewrite substring_in_range by lia.
    rewrite take_drop_commute. f_equal. f_equal. lia. }
  unfold Server.braceEnd.
  assert (Hdrop : exists rest, drop braceStart cleanedBody = Server.LBRACE :: rest
                               /\ length cleanedBody
                                  = (braceStart + S (length rest))%nat
                               /\ forall k, rest !! k
                                            = cleanedBody !! (braceStart + S k)%nat).
  { pose proof (lookup_drop cleanedBody braceStart) as Hl.
    pose proof (length_drop cleanedBody braceStart) as Hlen.
    destruct (drop braceStart cleanedBody) as [|x rest] eqn:E.
    - cbn in Hlen. lia.
    - exists rest. pose proof (Hl 0%nat) as H0. rewrite Nat.add_0_r, Hstart in H0.
      cbn in H0. injection H0 as ->. split; [reflexivity|].
      split; [cbn [length] in Hlen; lia|].
      intros k. rewrite <- Hl. reflexivity. }
  destruct Hdrop as (rest & Hdrop & Hlen & Hrest).
  rewrite Hdrop. cbn [Server.scan].
  change (Server.LBRACE =? Server.LBRACE) with true.
  change (Server.LBRACE =? Server.RBRACE) with false.
  cbn [Z.add Z.eqb Pos.add].
  assert (Hbal : forall n : nat,
             brace_balance (take (S n) (Server.LBRACE :: rest))
             = 1 + brace_balance (take n rest)).
  { intros n. reflexivity. }
  destruct (scan_spec rest (S braceStart) 1 ltac:(lia))
    as [[E Hall]|(k & E & Hk & Hend & Hall)].
  - left. split; [exact E|]. intros j Hj. rewrite Hsub, Hdrop by lia.
    replace (S j - braceStart)%nat with (S (j - braceStart)) by lia.
    rewrite Hbal. apply Hall. lia.
  - right. exists (S braceStart + k)%nat.
    pose proof (lookup_lt_Some _ _ _ Hk) as Hklt.
    split; [exact E|]. split; [lia|].
    split; [rewrite <- Hk, Hrest; f_equal; lia|].
    split.
    + rewrite Hsub, Hdrop by lia.
      replace (S (S braceStart + k) - braceStart)%nat with (S (S k)) by lia.
      rewrite Hbal. exact Hend.
    + intros j Hj. rewrite Hsub, Hdrop by lia.
      replace (S j - braceStart)%nat with (S (j - braceStart)) by lia.
      rewrite Hbal. apply Hall. lia.
Qed.

Lemma braceEnd_balances_witness :
  Server.braceEnd (js "ab{x:{y:1}}{z}") 2 = 10
  /\ brace_balance (Server.String_substring (js "ab{x:{y:1}}{z}") 2 (10 + 1)) = 0.
Proof.
  destruct (braceEnd_balances (js "ab{x:{y:1}}{z}") 2 eq_refl)
    as [[E _]|(e & E & _ & _ & Hbal & _)].
  - vm_compute in E. discriminate.
  - assert (E' : Server.braceEnd (js "ab{x:{y:1}}{z}") 2 = 10) by reflexivity.
    rewrite E' in E. assert (He : e = 10%nat) by lia. subst e.
    split; [reflexivity|exact Hbal].
Defined.

(** ** The entry hop and the envelope *)

Section peeling.
Context `{Platform}.

(** [decryptAESGCM] on a sealed message, by the holder of a secret key on
    which X25519 agrees with the sender's. *)
Lemma decryptAESGCM_seal (plain peer_pub sender_sk iv own_sk own_pk sender_pub : bytes)
    (isServer : bool) :
  length own_sk = 32%nat -> length sender_pub = 32%nat -> length iv = 12%nat ->
  crypto_scalarmult sender_sk peer_pub = crypto_scalarmult own_sk sender_pub ->
  AES_GCM_decrypt (Spec.derive sender_sk peer_pub) iv
    (AES_GCM_encrypt (Spec.derive sender_sk peer_pub) iv plain) = Some plain ->
  (16 <= length (AES_GCM_encrypt (Spec.derive sender_sk peer_pub) iv plain))%nat ->
  HopEncryption.decryptAESGCM (HopEncryption.new own_sk own_pk isServer)
    (Spec.seal plain peer_pub sender_sk iv) sender_pub
  = Returned plain.
Proof.
  intros Hsk Hpub Hiv Hdh Hopen Htag.
  unfold HopEncryption.decryptAESGCM, Spec.seal.
  cbn [HopEncryption.new HopEncryption.privateKey].
  rewrite (take_ge own_sk) by lia.
  destruct (Nat.ltb_spec
              (length (iv ++ AES_GCM_encrypt (Spec.derive sender_sk peer_pub)
                               iv plain))
              (12 + 16)) as [Hlt|_]; [rewrite length_app in Hlt; lia|].
  rewrite deriveSymmetricKey_run by assumption.
  cbn [mbind Outcome_bind]. rewrite importKey_derived.
  rewrite (take_app_length' iv _ 12 (eq_sym Hiv)), (drop_app_length' iv _ 12 (eq_sym Hiv)).
  unfold subtle.decrypt, Spec.derive in *. rewrite <- Hdh.
  cbn [mbind Outcome_bind]. rewrite Hopen. reflexivity.
Qed.

(** X19. The entry hop can open the envelope. Let the first hop of the
    path hold a secret key on which X25519 agrees with the ephemeral key
    drawn for its layer, and let AES-GCM open what it sealed for that
    layer (two properties of the primitives, hypotheses here). Then the
    blob framed in the envelope that [buildOnionRequest] returns is opened
    by [HopEncryption.decrypt] of that hop, under the ephemeral key the
    envelope announces, into the frame of the next blob and the routing
    JSON: that of the destination when the hop is the only one, and
    otherwise the Ed25519 key of the second hop with the ephemeral key
    of its layer. *)
Theorem entry_hop_opens_envelope (payload : JSON) (entry : OnionPathNode)
    (rest : list OnionPathNode) (destination : OnionDestination) (w : World)
    (hop_sk hop_pk : bytes) :
  Z.of_nat (length (utf8 (JSON_stringify payload))) < 2 ^ 32 ->
  Forall x25519_key_ok (entry :: rest) ->
  length hop_sk = 32%nat ->
  let from := (consumed w + 32 + 44 * length rest)%nat in
  let eph := Spec.keypair (Spec.slice w from 32) in
  let iv := Spec.slice w (from + 32) 12 in
  let inner :=
    Spec.onion payload destination
      (nacl.publicKey (Spec.keypair (Spec.slice w (consumed w) 32)))
      (Spec.layers w (consumed w + 32) rest) in
  let routing :=
    match rest with
    | [] => Spec.terminal_routing destination
    | next :: _ => Spec.intermediate_routing (ed25519_pubkey next) inner.2
    end in
  let plain := Spec.frame inner.1 (utf8 routing) in
  let key := Spec.derive (nacl.secretKey eph) (fromHex (x25519_pubkey entry)) in
  crypto_scalarmult (nacl.secretKey eph) (fromHex (x25519_pubkey entry))
  = crypto_scalarmult hop_sk (nacl.publicKey eph) ->
  AES_GCM_decrypt key iv (AES_GCM_encrypt key iv plain) = Some plain ->
  (16 <= length (AES_GCM_encrypt key iv plain))%nat ->
  exists (envelope : OnionRequestResult) (blob : bytes),
    (OnionBuilder.buildOnionRequest payload (entry :: rest) destination w).1
    = Returned envelope
    /\ encryptedPayload envelope = Spec.wrapper blob (nacl.publicKey eph)
    /\ ephemeralKey envelope = nacl.publicKey eph
    /\ HopEncryption.decrypt (HopEncryption.new hop_sk hop_pk true)
         (js "aes-gcm") blob (ephemeralKey envelope)
       = Returned plain.
Proof.
  intros Hsize Hkeys Hsk from eph iv inner routing plain key Hdh Hopen Htag.
  rewrite buildOnionRequest_run by assumption. cbn [fst].
  unfold Spec.build. cbn [Spec.layers Spec.onion].
  fold from. cbn [Spec.layer_hop Spec.layer_eph Spec.layer_iv].
  fold eph iv. fold inner.
  assert (Hplain : (let '(blob_prev, next_eph_pub) := inner in
                    (Spec.seal
                       (Spec.frame blob_prev
                          (utf8 match Spec.layers w (consumed w + 32) rest with
                                | [] => Spec.terminal_routing destination
                                | next :: _ =>
                                    Spec.intermediate_routing
                                      (ed25519_pubkey (Spec.layer_hop next))
                                      next_eph_pub
                                end))
                       (fromHex (x25519_pubkey entry)) (nacl.secretKey eph) iv,
                     nacl.publicKey eph))
                   = (Spec.seal plain (fromHex (x25519_pubkey entry))
                        (nacl.secretKey eph) iv, nacl.publicKey eph)).
  { subst plain routing. destruct inner as [blob_prev next_eph_pub].
    destruct rest; reflexivity. }
  rewrite Hplain.
  eexists _, (Spec.seal plain (fromHex (x25519_pubkey entry))
                (nacl.secretKey eph) iv).
  split; [reflexivity|]. cbn [encryptedPayload ephemeralKey].
  split; [reflexivity|]. split; [reflexivity|].
  unfold HopEncryption.decrypt.
  rewrite bool_decide_eq_true_2 by reflexivity. cbn [orb].
  apply decryptAESGCM_seal; try assumption.
  - apply crypto_scalarmult_length.
  - apply slice_length.
Qed.
End peeling.

Lemma entry_hop_opens_envelope_witness :
  exists (envelope : OnionRequestResult) (blob plain : bytes),
    (@OnionBuilder.buildOnionRequest Reference.platform Scenario.payload
       Scenario.path Scenario.destination Scenario.world).1
    = Returned envelope
    /\ encryptedPayload envelope
       = Spec.wrapper blob (ephemeralKey envelope)
    /\ @HopEncryption.decrypt Reference.platform
         (HopEncryption.new Scenario.bob_sk Scenario.bob_pk true)
         (js "aes-gcm") blob (ephemeralKey envelope)
       = Returned plain.
Proof.
  destruct (@entry_hop_opens_envelope Reference.platform Scenario.payload
              (OnionBuilder.to_path_node Scenario.node_b)
              [OnionBuilder.to_path_node Scenario.node_a;
               OnionBuilder.to_path_node Scenario.node_c]
              Scenario.destination Scenario.world Scenario.bob_sk Scenario.bob_pk
              scenario_payload_size scenario_path_keys)
    as (envelope & blob & Hbuild & Hwrap & Heph & Hopen).
  - reflexivity.
  - vm_compute. reflexivity.
  - vm_compute. reflexivity.
  - vm_compute. lia.
  - exists envelope, blob. eexists. split; [exact Hbuild|].
    split; [rewrite Heph; exact Hwrap|exact Hopen].
Defined.
